(** * bpkit: decomposition and traceability-validation core

    A shallow embedding of the parts of [bpkit_cli] that the specification
    makes claims about, together with the proofs that settle each claim.

    Conventions used throughout.

    - A Python [str] is a list of Unicode code points ([char := N]).  The
      properties of code points that the interpreter takes from the Unicode
      character database ([str.isspace], [str.isalnum], the case mappings)
      are an interface, [Unicode]; the facts about them that proofs rely on
      are a second interface, [UnicodeLaws].  [ucd] is a concrete instance
      tabulating Basic Latin and a few further code points; it is what the
      examples evaluate with.
    - A Python [float] that only carries a fixed confidence or a percentage
      is an exact rational ([Q]).
    - A Python exception is an explicit [None] / error result.
    - [dict] and [set] are stdpp's [gmap] and [gset] where only membership
      matters, and an association list where insertion order is observable.
    - The filesystem is explicit state, a finite map from paths to nodes. *)

From Stdlib Require Import NArith ZArith QArith List Ascii String Lia Permutation.
From stdpp Require Import gmap strings list sets.

Local Open Scope N_scope.

(** * Strings *)

Abbreviation char := N.
Abbreviation str := (list N).

(** [U "abc"] is the Python literal ["abc"] (ASCII literals only). *)
Definition U (s : string) : str :=
  List.map N_of_ascii (list_ascii_of_string s).

Definition in_range (lo hi c : char) : bool := (lo <=? c) && (c <=? hi).

Definition c_newline : char := 10.
Definition c_hyphen : char := 45.
Definition c_underscore : char := 95.
Definition c_SIGMA : char := 931.       (* U+03A3 GREEK CAPITAL LETTER SIGMA *)
Definition c_final_sigma : char := 962. (* U+03C2 *)
Definition c_sigma : char := 963.       (* U+03C3 *)

(** ** The Unicode character database, as the interpreter consults it *)

Class Unicode := {
  isspace : char -> bool;          (* str.isspace, regex \s *)
  isalnum : char -> bool;          (* str.isalnum; regex \w is isalnum or '_' *)
  isdecimal : char -> bool;        (* regex \d *)
  todecimal : char -> N;           (* the value int() gives a decimal digit *)
  tolower : char -> char;          (* simple lower-case mapping (re.IGNORECASE) *)
  toupper : char -> char;          (* simple upper-case mapping (re.IGNORECASE) *)
  lower_full : char -> str;        (* full lower-case mapping (str.lower) *)
  title_full : char -> str;        (* full title-case mapping (str.capitalize) *)
  iscased : char -> bool;
  iscaseignorable : char -> bool;
}.

(** Facts about the database that the proofs use.  All of them hold of the
    real database: the full lower-case mapping only produces characters that
    are themselves lower-case stable, white space is never alphanumeric, and
    the hyphen and the underscore are caseless and are not white space. *)
Class UnicodeLaws (UD : Unicode) := {
  lower_full_stable :
    forall c d, In d (lower_full c) -> lower_full d = [d] /\ d <> c_SIGMA;
  lower_sigma_stable :
    lower_full c_sigma = [c_sigma] /\ lower_full c_final_sigma = [c_final_sigma];
  lower_hyphen : lower_full c_hyphen = [c_hyphen];
  space_not_alnum : forall c, isspace c = true -> isalnum c = false;
  hyphen_not_space : isspace c_hyphen = false;
  underscore_not_space : isspace c_underscore = false;
  hyphen_not_alnum : isalnum c_hyphen = false;
}.

(** ** An excerpt of the database

    Basic Latin (U+0000..U+007F) in full, and: U+0085 and U+00A0 (spaces),
    U+0130 LATIN CAPITAL LETTER I WITH DOT ABOVE (whose full lower-case
    mapping is the two code points U+0069 U+0307), U+0307 COMBINING DOT ABOVE
    (a mark: not alphanumeric), the Greek sigmas, and U+2022 BULLET.  Every
    other code point gets the default entry: caseless, not alphanumeric, not
    white space. *)

Definition ucd_isspace (c : char) : bool :=
  in_range 9 13 c || in_range 28 32 c || (c =? 133) || (c =? 160).

Definition ascii_upper (c : char) : bool := in_range 65 90 c.
Definition ascii_lower (c : char) : bool := in_range 97 122 c.
Definition ascii_digit (c : char) : bool := in_range 48 57 c.

Definition ucd_isalnum (c : char) : bool :=
  ascii_upper c || ascii_lower c || ascii_digit c
  || (c =? 304) || (c =? c_SIGMA) || (c =? c_sigma) || (c =? c_final_sigma).

Definition ucd_tolower (c : char) : char :=
  if ascii_upper c then c + 32
  else if c =? 304 then 105
  else if c =? c_SIGMA then c_sigma
  else c.

Definition ucd_toupper (c : char) : char :=
  if ascii_lower c then c - 32
  else if (c =? c_sigma) || (c =? c_final_sigma) then c_SIGMA
  else c.

Definition ucd_lower_full (c : char) : str :=
  if c =? 304 then [105; 775] else [ucd_tolower c].

Definition ucd_title_full (c : char) : str := [ucd_toupper c].

Definition ucd_iscased (c : char) : bool :=
  ascii_upper c || ascii_lower c
  || (c =? 304) || (c =? c_SIGMA) || (c =? c_sigma) || (c =? c_final_sigma).

Definition ucd_iscaseignorable (c : char) : bool :=
  (c =? 39) || (c =? 46) || (c =? 58) || (c =? 94) || (c =? 96) || (c =? 775).

#[export] Instance ucd : Unicode := {|
  isspace := ucd_isspace;
  isalnum := ucd_isalnum;
  isdecimal := ascii_digit;
  todecimal := fun c => c - 48;
  tolower := ucd_tolower;
  toupper := ucd_toupper;
  lower_full := ucd_lower_full;
  title_full := ucd_title_full;
  iscased := ucd_iscased;
  iscaseignorable := ucd_iscaseignorable;
|}.

(** Facts about the decimal digits of Basic Latin, which hold of the real
    database: they are decimal digits with the expected values, and neither
    the full stop nor the line feed is one. *)
Class DecimalLaws (UD : Unicode) := {
  digit_isdecimal : forall c, 48 <= c <= 57 -> isdecimal c = true;
  digit_todecimal : forall c, 48 <= c <= 57 -> todecimal c = c - 48;
  dot_not_decimal : isdecimal 46 = false;
  newline_not_decimal : isdecimal c_newline = false;
}.

(** On Basic Latin the database is the excerpt above: which characters are
    white space, and what lower-casing does. *)
Class AsciiLaws (UD : Unicode) := {
  ascii_isspace : forall c, c < 128 -> isspace c = ucd_isspace c;
  ascii_lower_full : forall c, c < 128 -> lower_full c = ucd_lower_full c;
}.

(** ** [str] methods *)

Section StrMethods.
Context {UD : Unicode}.

(** Regex [\w]. *)
Definition isword (c : char) : bool := isalnum c || (c =? c_underscore).

(** [handle_capital_sigma]: U+03A3 lower-cases to the final sigma when it is
    preceded by a cased letter (skipping case-ignorable characters) and not
    followed by one. *)
Fixpoint first_not_ignorable (s : str) : option char :=
  match s with
  | [] => None
  | c :: s' => if iscaseignorable c then first_not_ignorable s' else Some c
  end.

Definition handle_capital_sigma (before_rev after : str) : char :=
  let cased_before :=
    match first_not_ignorable before_rev with
    | Some c => iscased c
    | None => false
    end in
  let cased_after :=
    match first_not_ignorable after with
    | Some c => iscased c
    | None => false
    end in
  if cased_before && negb cased_after then c_final_sigma else c_sigma.

Definition lower_ucs4 (before_rev : str) (c : char) (after : str) : str :=
  if c =? c_SIGMA then [handle_capital_sigma before_rev after]
  else lower_full c.

Fixpoint do_lower (before_rev s : str) : str :=
  match s with
  | [] => []
  | c :: s' => lower_ucs4 before_rev c s' ++ do_lower (c :: before_rev) s'
  end.

(** [s.lower()] *)
Definition lower (s : str) : str := do_lower [] s.

(** [s.capitalize()]: title-case the first character, lower-case the rest. *)
Definition capitalize (s : str) : str :=
  match s with
  | [] => []
  | c :: s' => title_full c ++ do_lower [c] s'
  end.

Fixpoint lstrip_by (p : char -> bool) (s : str) : str :=
  match s with
  | [] => []
  | c :: s' => if p c then lstrip_by p s' else s
  end.

Definition rstrip_by (p : char -> bool) (s : str) : str :=
  rev (lstrip_by p (rev s)).

Definition strip_by (p : char -> bool) (s : str) : str :=
  rstrip_by p (lstrip_by p s).

(** [s.strip()] *)
Definition strip (s : str) : str := strip_by isspace s.

(** [s.strip(chars)] *)
Definition strip_chars (chars : str) (s : str) : str :=
  strip_by (fun c => existsb (N.eqb c) chars) s.

(** [s.split()]: split on runs of white space, dropping empty fields. *)
Fixpoint split_ws_go (cur_rev : str) (s : str) : list str :=
  match s with
  | [] => match cur_rev with [] => [] | _ => [rev cur_rev] end
  | c :: s' =>
      if isspace c
      then match cur_rev with
           | [] => split_ws_go [] s'
           | _ => rev cur_rev :: split_ws_go [] s'
           end
      else split_ws_go (c :: cur_rev) s'
  end.

Definition split_ws (s : str) : list str := split_ws_go [] s.

End StrMethods.

(** [s.split(sep)] for a one-character separator. *)
Fixpoint split_char_go (sep : char) (cur_rev : str) (s : str) : list str :=
  match s with
  | [] => [rev cur_rev]
  | c :: s' =>
      if c =? sep then rev cur_rev :: split_char_go sep [] s'
      else split_char_go sep (c :: cur_rev) s'
  end.

Definition split_char (sep : char) (s : str) : list str :=
  split_char_go sep [] s.

(** [sep.join(parts)] *)
Fixpoint join (sep : str) (parts : list str) : str :=
  match parts with
  | [] => []
  | [p] => p
  | p :: ps => p ++ sep ++ join sep ps
  end.

Definition str_eqb (a b : str) : bool := bool_decide (a = b).

(** [s.startswith(p)] *)
Fixpoint startswith (p s : str) : bool :=
  match p, s with
  | [], _ => true
  | _ :: _, [] => false
  | a :: p', b :: s' => (a =? b) && startswith p' s'
  end.

(** [sub in s] *)
Fixpoint contains (sub s : str) : bool :=
  startswith sub s ||
  match s with
  | [] => false
  | _ :: s' => contains sub s'
  end.

(** [s.find(sub, start)]; [None] stands for [-1]. *)
Fixpoint find_go (sub s : str) (i : nat) : option nat :=
  if startswith sub s then Some i
  else match s with
       | [] => None
       | _ :: s' => find_go sub s' (S i)
       end.

Definition str_find (sub s : str) (start : nat) : option nat :=
  if (length s <? start)%nat then None
  else find_go sub (drop start s) start.

(** [s[i:j]] for 0 <= i <= j. *)
Definition slice (s : str) (i j : nat) : str := take (j - i) (drop i s).

(** Decimal rendering of a non-negative integer, as [str(n)] and the
    [{n}] of an f-string give it. *)
Fixpoint digits_go (fuel : nat) (n : N) (acc : str) : str :=
  match fuel with
  | O => acc
  | S f =>
      let acc' := (48 + n mod 10) :: acc in
      if n <? 10 then acc' else digits_go f (n / 10) acc'
  end.

Definition str_of_N (n : N) : str := digits_go (S (N.to_nat (N.log2 n))) n [].

(** [f"{n:03d}"] *)
Definition format_03d (n : N) : str :=
  let d := str_of_N n in
  replicate (3 - length d) 48 ++ d.

(** * Regular expressions

    The subset of Python's [re] that the program uses, as a backtracking
    matcher: literals, character sets, [.], sequence, alternation, greedy
    repetition, capturing groups, the anchors [^] and [$], and [\b], under the
    flags [re.IGNORECASE] and [re.MULTILINE].  A pattern of the source is
    written as the syntax tree its pattern string denotes. *)

Inductive cset_item :=
| CChar (c : char)
| CRange (lo hi : char)
| CSpace     (* \s *)
| CWord      (* \w *)
| CDigit.    (* \d *)

Inductive regex :=
| REps
| RLit (c : char)
| RSet (negated : bool) (items : list cset_item)
| RAny                          (* .  : anything but a newline *)
| RSeq (r1 r2 : regex)
| RAlt (r1 r2 : regex)
| RStar (r : regex)             (* greedy *)
| RGroup (n : nat) (r : regex)  (* the n-th capturing group *)
| RBol                          (* ^ *)
| REol                          (* $ *)
| RWordB.                       (* \b *)

Definition RPlus (r : regex) : regex := RSeq r (RStar r).
Definition ROpt (r : regex) : regex := RAlt r REps.
(** [r{n,}] *)
Fixpoint RAtLeast (n : nat) (r : regex) : regex :=
  match n with
  | O => RStar r
  | S n' => RSeq r (RAtLeast n' r)
  end.
(** A literal string. *)
Fixpoint RStr (s : str) : regex :=
  match s with
  | [] => REps
  | [c] => RLit c
  | c :: s' => RSeq (RLit c) (RStr s')
  end.
(** [a|b|c...] *)
Fixpoint RAlts (rs : list regex) : regex :=
  match rs with
  | [] => REps
  | [r] => r
  | r :: rs' => RAlt r (RAlts rs')
  end.
Fixpoint RSeqs (rs : list regex) : regex :=
  match rs with
  | [] => REps
  | [r] => r
  | r :: rs' => RSeq r (RSeqs rs')
  end.

Definition r_space : regex := RSet false [CSpace].
Definition r_word : regex := RSet false [CWord].
Definition r_digit : regex := RSet false [CDigit].

Record flags := { IGNORECASE : bool; MULTILINE : bool }.
Definition no_flags : flags := {| IGNORECASE := false; MULTILINE := false |}.
Definition re_I : flags := {| IGNORECASE := true; MULTILINE := false |}.
Definition re_M : flags := {| IGNORECASE := false; MULTILINE := true |}.

(** The matcher's position in the subject: the text before it (reversed),
    the text after it, and the groups captured so far (latest first). *)
Record mstate := {
  before : str;
  after : str;
  groups : list (nat * str);
}.

Section Engine.
Context {UD : Unicode}.
Variable fl : flags.

Definition item_base (it : cset_item) (x : char) : bool :=
  match it with
  | CChar c => x =? c
  | CRange lo hi => in_range lo hi x
  | CSpace => isspace x
  | CWord => isword x
  | CDigit => isdecimal x
  end.

(** Under [re.IGNORECASE] a literal or a range also matches the characters
    whose simple lower-case form, or the upper-case form of that, it
    contains. *)
Definition item_match (it : cset_item) (x : char) : bool :=
  item_base it x ||
  (IGNORECASE fl &&
   match it with
   | CChar _ | CRange _ _ =>
       item_base it (tolower x) || item_base it (toupper (tolower x))
   | _ => false
   end).

Definition lit_match (c x : char) : bool :=
  (x =? c) ||
  (IGNORECASE fl &&
   ((tolower x =? tolower c) || (toupper (tolower x) =? toupper (tolower c)))).

Definition set_match (negated : bool) (items : list cset_item) (x : char) : bool :=
  xorb negated (existsb (fun it => item_match it x) items).

Definition at_bol (st : mstate) : bool :=
  match before st with
  | [] => true
  | c :: _ => MULTILINE fl && (c =? c_newline)
  end.

Definition at_eol (st : mstate) : bool :=
  match after st with
  | [] => true
  | c :: rest =>
      (c =? c_newline) &&
      (MULTILINE fl || match rest with [] => true | _ => false end)
  end.

Definition at_word_boundary (st : mstate) : bool :=
  let wb := match before st with c :: _ => isword c | [] => false end in
  let wa := match after st with c :: _ => isword c | [] => false end in
  xorb wb wa.

(** Consume one character satisfying [p]. *)
Definition step_char (p : char -> bool) (st : mstate)
    (k : mstate -> option mstate) : option mstate :=
  match after st with
  | x :: rest =>
      if p x
      then k {| before := x :: before st; after := rest; groups := groups st |}
      else None
  | [] => None
  end.

(** The text consumed between two positions of one subject. *)
Definition consumed (st st' : mstate) : str :=
  take (length (after st) - length (after st')) (after st).

(** The greedy loop of a repetition: take one more iteration of [body] if
    it consumes something, otherwise (or if what follows then fails) stop
    here.  [n] bounds the iterations by the length of the remaining text. *)
Fixpoint star_loop (body : mstate -> (mstate -> option mstate) -> option mstate)
    (k : mstate -> option mstate) (n : nat) (st : mstate) : option mstate :=
  match n with
  | O => k st
  | S n' =>
      match body st
              (fun st' =>
                 if (length (after st') <? length (after st))%nat
                 then star_loop body k n' st' else None) with
      | Some m => Some m
      | None => k st
      end
  end.

(** [rmatch r st k]: match [r] at [st] and continue with [k]; the first
    success in backtracking order wins. *)
Fixpoint rmatch (r : regex) (st : mstate) (k : mstate -> option mstate)
    {struct r} : option mstate :=
  match r with
  | REps => k st
  | RLit c => step_char (lit_match c) st k
  | RSet negated items => step_char (set_match negated items) st k
  | RAny => step_char (fun x => negb (x =? c_newline)) st k
  | RSeq r1 r2 => rmatch r1 st (fun st' => rmatch r2 st' k)
  | RAlt r1 r2 =>
      match rmatch r1 st k with
      | Some m => Some m
      | None => rmatch r2 st k
      end
  | RStar r' => star_loop (rmatch r') k (length (after st)) st
  | RGroup n r' =>
      rmatch r' st
        (fun st' =>
           k {| before := before st'; after := after st';
                groups := (n, consumed st st') :: groups st' |})
  | RBol => if at_bol st then k st else None
  | REol => if at_eol st then k st else None
  | RWordB => if at_word_boundary st then k st else None
  end.

(** One match attempt at a position; [must_advance] refuses the empty match. *)
Definition match_at (r : regex) (bef aft : str) (must_advance : bool)
    : option mstate :=
  rmatch r {| before := bef; after := aft; groups := [] |}
    (fun st' =>
       if must_advance && (length (after st') =? length aft)%nat
       then None else Some st').

(** A match object. *)
Record re_match := {
  m_start : nat;
  m_end : nat;
  m_group0 : str;
  m_groups : list (nat * str);
}.

Definition mk_match (pos : nat) (aft : str) (st' : mstate) : re_match :=
  let n := (length aft - length (after st'))%nat in
  {| m_start := pos; m_end := (pos + n)%nat;
     m_group0 := take n aft; m_groups := groups st' |}.

(** [m.group(n)] for n >= 1; [None] when the group took no part. *)
Definition group (n : nat) (m : re_match) : option str :=
  snd <$> List.find (fun g => (fst g =? n)%nat) (m_groups m).

(** [m.group(n)] where the group is known to have taken part. *)
Definition group_str (n : nat) (m : re_match) : str :=
  default [] (group n m).

(** [re.match(r, s)] *)
Definition re_match_ (r : regex) (s : str) : option re_match :=
  mk_match 0 s <$> match_at r [] s false.

(** The subject cut into its non-overlapping matches, left to right, and
    the characters between them.  After an empty match the search resumes at
    the same position but must then advance.  [skip] counts the characters of
    the last match still to pass. *)
Inductive token := TChar (c : char) | TMatch (m : re_match).

Fixpoint scan_go (r : regex) (bef aft : str) (skip pos : nat) : list token :=
  match skip with
  | S skip' =>
      match aft with
      | [] => []
      | c :: aft' => scan_go r (c :: bef) aft' skip' (S pos)
      end
  | O =>
      let next (emit : bool) (skip : nat) :=
        match aft with
        | [] => []
        | c :: aft' =>
            (if emit then [TChar c] else [])
              ++ scan_go r (c :: bef) aft' skip (S pos)
        end in
      match match_at r bef aft false with
      | None => next true O
      | Some st1 =>
          let m1 := mk_match pos aft st1 in
          match (m_end m1 - pos)%nat with
          | S n => TMatch m1 :: next false n
          | O =>
              match match_at r bef aft true with
              | None => TMatch m1 :: next true O
              | Some st2 =>
                  let m2 := mk_match pos aft st2 in
                  TMatch m1 :: TMatch m2 :: next false (m_end m2 - pos - 1)%nat
              end
          end
      end
  end.

Definition scan (r : regex) (s : str) : list token := scan_go r [] s 0 0.

(** [re.finditer(r, s)] *)
Definition finditer (r : regex) (s : str) : list re_match :=
  omap (fun t => match t with TMatch m => Some m | TChar _ => None end)
       (scan r s).

(** [re.search(r, s)] *)
Definition re_search (r : regex) (s : str) : option re_match :=
  head (finditer r s).

(** [re.split(r, s)], for a pattern without capturing groups. *)
Fixpoint split_tokens (cur_rev : str) (ts : list token) : list str :=
  match ts with
  | [] => [rev cur_rev]
  | TChar c :: ts' => split_tokens (c :: cur_rev) ts'
  | TMatch _ :: ts' => rev cur_rev :: split_tokens [] ts'
  end.

Definition re_split (r : regex) (s : str) : list str :=
  split_tokens [] (scan r s).

(** [re.sub(r, repl, s)], for a replacement without group references. *)
Definition sub_token (repl : str) (t : token) : str :=
  match t with
  | TChar c => [c]
  | TMatch _ => repl
  end.

Definition re_sub (r : regex) (repl : str) (s : str) : str :=
  flat_map (sub_token repl) (scan r s).

End Engine.

(** * Slugs and kebab-case names *)

Section Slug.
Context {UD : Unicode}.

(** [MarkdownParser._heading_to_id] (core/markdown_parser.py) *)
Definition _heading_to_id (heading : str) : str :=
  let section_id := lower heading in
  (* re.sub(r"[^\w\s-]", "", section_id) *)
  let section_id :=
    re_sub no_flags (RSet true [CWord; CSpace; CChar c_hyphen]) [] section_id in
  (* re.sub(r"[-\s]+", "-", section_id) *)
  let section_id :=
    re_sub no_flags (RPlus (RSet false [CChar c_hyphen; CSpace])) (U "-")
      section_id in
  strip_chars (U "-") section_id.

(** [FeatureDetector._to_kebab_case] (core/feature_detector.py) *)
Definition _to_kebab_case (text : str) : str :=
  (* re.sub(r"[^\w\s-]", "", text) *)
  let text := re_sub no_flags (RSet true [CWord; CSpace; CChar c_hyphen]) [] text in
  (* re.sub(r"\s+", "-", text) *)
  let text := re_sub no_flags (RPlus r_space) (U "-") text in
  let text := lower text in
  (* re.sub(r"-+", "-", text) *)
  let text := re_sub no_flags (RPlus (RLit c_hyphen)) (U "-") text in
  strip_chars (U "-") text.

End Slug.

(** * Feature detection (core/feature_detector.py) *)

Module feature_detector.

Inductive priority_t := P1 | P2 | P3.

Record DetectedFeature := {
  id : str;
  name : str;
  title : str;
  description : str;
  priority : priority_t;
  source_section_id : str;
  confidence : Q;
  keywords : list str;
}.

Definition set_priority (p : priority_t) (f : DetectedFeature) : DetectedFeature :=
  {| id := id f; name := name f; title := title f;
     description := description f; priority := p;
     source_section_id := source_section_id f;
     confidence := confidence f; keywords := keywords f |}.

Definition set_id (i : str) (f : DetectedFeature) : DetectedFeature :=
  {| id := i; name := name f; title := title f;
     description := description f; priority := priority f;
     source_section_id := source_section_id f;
     confidence := confidence f; keywords := keywords f |}.

Definition FEATURE_ACTION_VERBS : list str :=
  List.map U
    ["create"; "manage"; "book"; "search"; "browse"; "upload"; "download";
     "send"; "receive"; "process"; "track"; "view"; "edit"; "delete";
     "share"; "export"; "import"; "connect"; "integrate"; "analyze";
     "report"; "notify"; "approve"; "reject"; "review"; "rate"]%string.

Definition FEATURE_KEYWORDS : list str :=
  List.map U
    ["user"; "account"; "profile"; "listing"; "product"; "booking";
     "reservation"; "payment"; "transaction"; "search"; "filter";
     "dashboard"; "analytics"; "report"; "notification"; "message";
     "review"; "rating"; "comment"; "feed"; "timeline"; "calendar";
     "schedule"; "settings"; "preferences"; "authentication";
     "authorization"; "registration"]%string.

(** [sorted(l, key=key, reverse=True)]: descending by key, elements with
    equal keys in their original order.  [insert_desc x l] puts [x] in front
    of the first element whose key is not greater than its own. *)
Fixpoint insert_desc {A} (key : A -> Q) (x : A) (l : list A) : list A :=
  match l with
  | [] => [x]
  | y :: l' =>
      if Qle_bool (key y) (key x) then x :: y :: l'
      else y :: insert_desc key x l'
  end.

Definition sorted_desc {A} (key : A -> Q) (l : list A) : list A :=
  foldr (insert_desc key) [] l.

(** r"^[\s]*[-*•][\s]+(.+)$|^[\s]*\d+\.[\s]+(.+)$" *)
Definition bullet_pattern : regex :=
  RAlt
    (RSeqs [RBol; RStar (RSet false [CSpace]);
            RSet false [CChar 45; CChar 42; CChar 8226];
            RPlus (RSet false [CSpace]); RGroup 1 (RPlus RAny); REol])
    (RSeqs [RBol; RStar (RSet false [CSpace]); RPlus r_digit; RLit 46;
            RPlus (RSet false [CSpace]); RGroup 2 (RPlus RAny); REol]).

(** rf"\b{verb}\s+(\w+(?:\s+\w+)?)" *)
Definition action_pattern (verb : str) : regex :=
  RSeqs [RWordB; RStr verb; RPlus r_space;
         RGroup 1 (RSeq (RPlus r_word)
                        (ROpt (RSeq (RPlus r_space) (RPlus r_word))))].

(** rf"\b{keyword}(?:s)?\b" *)
Definition keyword_pattern (keyword : str) : regex :=
  RSeqs [RWordB; RStr keyword; ROpt (RLit 115); RWordB].

(** r"^(feature:|capability:|component:)\s*" *)
Definition prefix_pattern : regex :=
  RSeqs [RBol;
         RGroup 1 (RAlts [RStr (U "feature:"); RStr (U "capability:");
                          RStr (U "component:")]);
         RStar r_space].

(** r"[^\w\s-]" *)
Definition not_word_space_hyphen : regex :=
  RSet true [CWord; CSpace; CChar c_hyphen].

Section Detector.
Context {UD : Unicode}.

Definition _extract_feature_name (text : str) : option str :=
  let text := re_sub re_I prefix_pattern [] text in
  let words := take 4 (split_ws text) in
  let feature_name := join (U " ") words in
  let feature_name := re_sub no_flags not_word_space_hyphen [] feature_name in
  let feature_name := strip feature_name in
  if (3 <? length feature_name)%nat then Some feature_name else None.

Definition bullet_feature (section_id content feature_name : str)
    : DetectedFeature :=
  {| id := [];
     name := _to_kebab_case feature_name;
     title := feature_name;
     description := content;
     priority := P1;
     source_section_id := section_id;
     confidence := 85 # 100;
     keywords := [lower feature_name] |}.

Definition bullet_line (section_id : str) (line : str) : list DetectedFeature :=
  match re_match_ re_M bullet_pattern line with
  | None => []
  | Some m =>
      let content :=
        match group 1 m with
        | Some (c :: g) => c :: g
        | _ => group_str 2 m
        end in
      let content := strip content in
      if (5 <? length content)%nat then
        match _extract_feature_name content with
        | Some feature_name => [bullet_feature section_id content feature_name]
        | None => []
        end
      else []
  end.

Definition _extract_from_bullets (text section_id : str) : list DetectedFeature :=
  flat_map (bullet_line section_id) (split_char c_newline text).

Definition action_feature (section_id verb : str) (m : re_match)
    : DetectedFeature :=
  let object_text := group_str 1 m in
  let feature_name := capitalize verb ++ U " " ++ capitalize object_text in
  {| id := [];
     name := _to_kebab_case feature_name;
     title := feature_name;
     description := U "Feature: " ++ feature_name;
     priority := P2;
     source_section_id := section_id;
     confidence := 70 # 100;
     keywords := [verb; lower object_text] |}.

Definition _extract_from_action_verbs (text section_id : str)
    : list DetectedFeature :=
  flat_map
    (fun verb =>
       List.map (action_feature section_id verb)
                (finditer re_I (action_pattern verb) text))
    FEATURE_ACTION_VERBS.

Definition keyword_feature (section_id keyword : str) : DetectedFeature :=
  let feature_name := capitalize keyword ++ U " Management" in
  {| id := [];
     name := _to_kebab_case feature_name;
     title := feature_name;
     description := U "Feature: " ++ feature_name;
     priority := P3;
     source_section_id := section_id;
     confidence := 60 # 100;
     keywords := [keyword] |}.

Definition _extract_from_keywords (text section_id : str)
    : list DetectedFeature :=
  flat_map
    (fun keyword =>
       match re_search re_I (keyword_pattern keyword) text with
       | Some _ => [keyword_feature section_id keyword]
       | None => []
       end)
    FEATURE_KEYWORDS.

(** The loop of [_deduplicate_features]: [seen] is the set of normalised
    names met so far. *)
Fixpoint dedup_go (seen : gset str) (features : list DetectedFeature)
    : list DetectedFeature :=
  match features with
  | [] => []
  | feature :: rest =>
      let normalized_name := lower (name feature) in
      if bool_decide (normalized_name ∈ seen) then dedup_go seen rest
      else feature :: dedup_go ({[normalized_name]} ∪ seen) rest
  end.

Definition _deduplicate_features (features : list DetectedFeature)
    : list DetectedFeature :=
  dedup_go ∅ features.

Definition priority_of_rank (idx : nat) : priority_t :=
  if (idx <? 3)%nat then P1 else if (idx <? 7)%nat then P2 else P3.

Definition _assign_priorities (features : list DetectedFeature)
    : list DetectedFeature :=
  let sorted_features := sorted_desc confidence features in
  imap (fun idx feature => set_priority (priority_of_rank idx) feature)
       sorted_features.

Definition assign_ids (features : list DetectedFeature) : list DetectedFeature :=
  imap (fun i feature => set_id (format_03d (N.of_nat (S i))) feature) features.

Definition candidates (product_text solution_text : str) : list DetectedFeature :=
  _extract_from_bullets product_text (U "product")
    ++ _extract_from_bullets solution_text (U "solution")
    ++ _extract_from_action_verbs product_text (U "product")
    ++ _extract_from_keywords solution_text (U "solution").

Definition detect_features (product_text solution_text : str)
    : list DetectedFeature :=
  let features := candidates product_text solution_text in
  let features := _deduplicate_features features in
  let features := _assign_priorities features in
  let features :=
    if (10 <? length features)%nat
    then take 10 (sorted_desc confidence features)
    else features in
  assign_ids features.

(** The cap of [detect_features]: more than 10 features are cut down to the
    first 10 of the sorted list. *)
Definition keep_ten_best (features : list DetectedFeature)
    : list DetectedFeature :=
  if (10 <? length features)%nat
  then take 10 (sorted_desc confidence features)
  else features.

(** ** The pipeline in the words of the specification *)

(** Deduplicate by name: the first occurrence of every name is kept. *)
Fixpoint first_by_name (seen : list str) (features : list DetectedFeature)
    : list DetectedFeature :=
  match features with
  | [] => []
  | f :: rest =>
      if bool_decide (name f ∈ seen) then first_by_name seen rest
      else f :: first_by_name (name f :: seen) rest
  end.

Definition same_confidence (k : Q) (f : DetectedFeature) : bool :=
  Qeq_bool (confidence f) k.

(** [sorted] is [features] sorted by confidence, descending, ties broken by
    the original order: the same features, no confidence followed by a
    higher one, and the features of any one confidence in the order they
    have in [features]. *)
Definition sorted_by_confidence (features sorted : list DetectedFeature) : Prop :=
  Permutation sorted features /\
  (forall i j f g,
      sorted !! i = Some f -> sorted !! j = Some g -> (i <= j)%nat ->
      (confidence g <= confidence f)%Q) /\
  (forall k, List.filter (same_confidence k) sorted
             = List.filter (same_confidence k) features).

(** A number below 1000 on three decimal digits, zero-padded. *)
Definition three_digits (n : nat) : str :=
  [48 + N.of_nat (n / 100); 48 + N.of_nat (n / 10 mod 10);
   48 + N.of_nat (n mod 10)].

End Detector.

End feature_detector.

(** * Principle extraction (core/principle_extractor.py, models/principle.py) *)

Module principle_extractor.

Inductive principle_type := strategic | tactical.
Inductive extraction_method_t := heuristic | manual | derived.

Record Principle := {
  id : str;
  text : str;
  type : principle_type;
  source_section_id : str;
  rationale : option str;
  test : option str;
  confidence : Q;
  extraction_method : extraction_method_t;
}.

Inductive pattern_name :=
  VALUE_PROP | NUMERIC_CONSTRAINT | COMPARATIVE | IMPERATIVE | MARKET_NUMBER.

Record ExtractionPattern := {
  pname : pattern_name;
  pregex : regex;
  pconfidence : Q;
}.

Definition r_upper : cset_item := CRange 65 90.   (* A-Z *)

(** r"\b([A-Z][A-Z\s]{2,}[A-Z])\b" *)
Definition VALUE_PROP_PATTERN : ExtractionPattern :=
  {| pname := VALUE_PROP;
     pregex :=
       RSeqs [RWordB;
              RGroup 1 (RSeqs [RSet false [r_upper];
                               RAtLeast 2 (RSet false [r_upper; CSpace]);
                               RSet false [r_upper]]);
              RWordB];
     pconfidence := 85 # 100 |}.

Definition words (ws : list string) : regex := RAlts (List.map (fun w => RStr (U w)) ws).

(** r"(\d+(?:\.\d+)?%?\s*(?:commission|fee|rate|percent|margin|of|users|customers|revenue))" *)
Definition NUMERIC_CONSTRAINT_PATTERN : ExtractionPattern :=
  {| pname := NUMERIC_CONSTRAINT;
     pregex :=
       RGroup 1 (RSeqs [RPlus r_digit;
                        ROpt (RSeq (RLit 46) (RPlus r_digit));
                        ROpt (RLit 37);
                        RStar r_space;
                        words ["commission"; "fee"; "rate"; "percent";
                               "margin"; "of"; "users"; "customers";
                               "revenue"]%string]);
     pconfidence := 90 # 100 |}.

(** r"\b(better|cheaper|faster|easier|more|less|superior|compared to|than|vs\.?)\s+\w+" *)
Definition COMPARATIVE_PATTERN : ExtractionPattern :=
  {| pname := COMPARATIVE;
     pregex :=
       RSeqs [RWordB;
              RGroup 1 (RAlts [RStr (U "better"); RStr (U "cheaper");
                               RStr (U "faster"); RStr (U "easier");
                               RStr (U "more"); RStr (U "less");
                               RStr (U "superior"); RStr (U "compared to");
                               RStr (U "than");
                               RSeq (RStr (U "vs")) (ROpt (RLit 46))]);
              RPlus r_space; RPlus r_word];
     pconfidence := 75 # 100 |}.

(** r"\b(must|ensure|require|should|need to|will|guarantee|maintain)\s+\w+" *)
Definition IMPERATIVE_PATTERN : ExtractionPattern :=
  {| pname := IMPERATIVE;
     pregex :=
       RSeqs [RWordB;
              RGroup 1 (words ["must"; "ensure"; "require"; "should";
                               "need to"; "will"; "guarantee"; "maintain"]%string);
              RPlus r_space; RPlus r_word];
     pconfidence := 80 # 100 |}.

(** r"([\d,]+(?:\.\d+)?(?:\s*(?:million|billion|thousand|M|B|K))?\s*(?:users|customers|people|businesses|market|revenue|\$))" *)
Definition MARKET_NUMBER_PATTERN : ExtractionPattern :=
  {| pname := MARKET_NUMBER;
     pregex :=
       RGroup 1 (RSeqs [RPlus (RSet false [CDigit; CChar 44]);
                        ROpt (RSeq (RLit 46) (RPlus r_digit));
                        ROpt (RSeq (RStar r_space)
                                   (words ["million"; "billion"; "thousand";
                                           "M"; "B"; "K"]%string));
                        RStar r_space;
                        words ["users"; "customers"; "people"; "businesses";
                               "market"; "revenue"; "$"]%string]);
     pconfidence := 85 # 100 |}.

(** [self.patterns] *)
Definition patterns : list ExtractionPattern :=
  [VALUE_PROP_PATTERN; NUMERIC_CONSTRAINT_PATTERN; COMPARATIVE_PATTERN;
   IMPERATIVE_PATTERN; MARKET_NUMBER_PATTERN].

(** r"[.!?]+\s+" *)
Definition sentence_pattern : regex :=
  RSeq (RPlus (RSet false [CChar 46; CChar 33; CChar 63])) (RPlus r_space).

(** r"[.,;:!?]" *)
Definition punctuation : regex :=
  RSet false [CChar 46; CChar 44; CChar 59; CChar 58; CChar 33; CChar 63].

Section Extractor.
Context {UD : Unicode}.

Definition _split_into_sentences (text : str) : list str :=
  List.map strip
    (List.filter (fun s => (10 <? length (strip s))%nat)
                 (re_split no_flags sentence_pattern text)).

Definition _create_principle_statement (matched_text sentence : str)
    (pattern : ExtractionPattern) : option str :=
  match pname pattern with
  | VALUE_PROP | MARKET_NUMBER => Some (strip matched_text)
  | _ =>
      if (200 <? length sentence)%nat then None
      else Some (strip sentence)
  end.

(** [if principle_text:] -- neither [None] nor the empty string. *)
Definition truthy (o : option str) : option str :=
  match o with
  | Some (c :: s) => Some (c :: s)
  | _ => None
  end.

(** One candidate: the pattern that produced it and the text it yields. *)
Definition sentence_candidates (sentence : str)
    : list (ExtractionPattern * str) :=
  flat_map
    (fun pattern =>
       omap
         (fun m =>
            (* every pattern has a group 1 *)
            let matched_text := default [] (group 1 m) in
            (fun t => (pattern, t)) <$>
              truthy (_create_principle_statement matched_text sentence pattern))
         (finditer re_I (pregex pattern) sentence))
    patterns.

Definition make_principle (principle_type : principle_type) (section_id : str)
    (counter : nat) (c : ExtractionPattern * str) : Principle :=
  {| id := U "principle-" ++ format_03d (N.of_nat counter);
     text := snd c;
     type := principle_type;
     source_section_id := section_id;
     rationale := None;
     test := None;
     confidence := pconfidence (fst c);
     extraction_method := heuristic |}.

Fixpoint dedup_go (seen : gset str) (principles : list Principle)
    : list Principle :=
  match principles with
  | [] => []
  | principle :: rest =>
      let normalized := strip (lower (text principle)) in
      let normalized := re_sub no_flags punctuation [] normalized in
      if bool_decide (normalized ∈ seen) then dedup_go seen rest
      else principle :: dedup_go ({[normalized]} ∪ seen) rest
  end.

Definition _deduplicate_principles (principles : list Principle)
    : list Principle :=
  dedup_go ∅ principles.

(** The principles in creation order, numbered from 1 by
    [principle_id_counter], then deduplicated. *)
Definition extract_principles (text section_id : str)
    (principle_type : principle_type) : list Principle :=
  let sentences := _split_into_sentences text in
  let found := flat_map sentence_candidates sentences in
  let principles :=
    imap (fun i c => make_principle principle_type section_id (S i) c) found in
  _deduplicate_principles principles.

(** The principles that [extract_principles] creates from the matches of one
    pattern family. *)
Definition from_family (n : pattern_name) (text : str)
    : list (ExtractionPattern * str) :=
  List.filter
    (fun c => match pname (fst c), n with
              | VALUE_PROP, VALUE_PROP | NUMERIC_CONSTRAINT, NUMERIC_CONSTRAINT
              | COMPARATIVE, COMPARATIVE | IMPERATIVE, IMPERATIVE
              | MARKET_NUMBER, MARKET_NUMBER => true
              | _, _ => false
              end)
    (flat_map sentence_candidates (_split_into_sentences text)).

End Extractor.

End principle_extractor.

(** * Shared runtime: results, ordered dictionaries, the filesystem *)

(** The outcome of a call that may raise: the value, or the message of the
    exception. *)
Inductive result (A : Type) :=
| Ok (a : A)
| Raise (msg : str).
Arguments Ok {A} a.
Arguments Raise {A} msg.

(** A [dict] whose iteration order is observed: keys in insertion order,
    assignment to an existing key keeps its place. *)
Abbreviation dict V := (list (str * V)).

Fixpoint dict_set {V} (k : str) (v : V) (d : dict V) : dict V :=
  match d with
  | [] => [(k, v)]
  | (k', v') :: d' =>
      if str_eqb k k' then (k, v) :: d' else (k', v') :: dict_set k v d'
  end.

Fixpoint dict_get {V} (k : str) (d : dict V) : option V :=
  match d with
  | [] => None
  | (k', v') :: d' => if str_eqb k k' then Some v' else dict_get k d'
  end.

(** [k in d] *)
Definition dict_mem {V} (k : str) (d : dict V) : bool :=
  existsb (fun kv => str_eqb k (fst kv)) d.

Definition dict_keys {V} (d : dict V) : list str := List.map fst d.

(** A [pathlib.Path] is the string [str(path)] gives. *)
Abbreviation path := str.

Definition c_slash : char := 47.
Definition c_dot : char := 46.

(** The part after the last occurrence of [c] (the whole of [s] when there
    is none), and the part before it. *)
Fixpoint after_last_go (c : char) (cur_rev : str) (s : str) : str :=
  match s with
  | [] => rev cur_rev
  | x :: s' =>
      if x =? c then after_last_go c [] s' else after_last_go c (x :: cur_rev) s'
  end.

Definition after_last (c : char) (s : str) : str := after_last_go c [] s.

(** [s.rfind(c)] *)
Definition rfind_char (c : char) (s : str) : option nat :=
  if existsb (N.eqb c) s
  then Some (length s - length (after_last c s) - 1)%nat
  else None.

(** [path.name]: the last component; the path [.] has no component and its
    name is empty. *)
Definition path_name (p : path) : str :=
  if str_eqb p (U ".") then [] else after_last c_slash p.

(** [path.stem]: the name without its last suffix; a leading or a trailing
    dot does not start a suffix. *)
Definition stem (p : path) : str :=
  let name := path_name p in
  match rfind_char c_dot name with
  | Some i =>
      if (0 <? i)%nat && (i <? length name - 1)%nat then take i name else name
  | None => name
  end.

(** [path.parent] *)
Definition parent (p : path) : path :=
  match rfind_char c_slash p with
  | None => U "."
  | Some O => U "/"
  | Some i => take i p
  end.

(** What a path names. *)
Inductive node :=
| Dir
| File (text : str)          (* a regular file holding UTF-8 text *)
| Unreadable (err : str).    (* a regular file that cannot be read as text;
                                [err] is the message of the exception *)

(** The filesystem: the nodes, and the paths whose removal the operating
    system refuses. *)
Record filesystem := {
  nodes : gmap path node;
  protected : gset path;
}.

(** [path.exists()] *)
Definition path_exists (fs : filesystem) (p : path) : bool :=
  bool_decide (is_Some (nodes fs !! p)).

(** [path.read_text(encoding="utf-8")] *)
Definition read_text (fs : filesystem) (p : path) : result str :=
  match nodes fs !! p with
  | Some (File text) => Ok text
  | Some (Unreadable err) => Raise err
  | Some Dir => Raise (U "[Errno 21] Is a directory: '" ++ p ++ U "'")
  | None => Raise (U "[Errno 2] No such file or directory: '" ++ p ++ U "'")
  end.

(** [path.write_text(text)] on an existing regular file or a new path. *)
Definition write_text (fs : filesystem) (p : path) (text : str)
    : result filesystem :=
  match nodes fs !! p with
  | Some Dir => Raise (U "[Errno 21] Is a directory: '" ++ p ++ U "'")
  | _ =>
      if bool_decide (p ∈ protected fs)
      then Raise (U "[Errno 13] Permission denied: '" ++ p ++ U "'")
      else Ok {| nodes := <[p := File text]> (nodes fs);
                 protected := protected fs |}
  end.

(** * Markdown parsing (core/markdown_parser.py) *)

Module markdown_parser.

(** A token of markdown-it: its type, tag, content and source line range. *)
Record Token := {
  ttype : str;
  tag : str;
  content : str;
  map : option (nat * nat);
}.

(** The markdown-it parser the program instantiates, [self.md.parse]. *)
Class MarkdownIt := { md_parse : str -> list Token }.

Record MarkdownSection := {
  section_id : str;
  title : str;
  section_content : str;
  line_start : nat;
  line_end : nat;
  level : nat;
}.

Record MarkdownLink := {
  link_text : str;
  url : str;
  line_number : nat;
}.

Record heading_info := {
  h_level : nat;
  h_title : str;
  h_section_id : str;
  h_line_start : nat;
}.

Section Parser.
Context {UD : Unicode} {MD : MarkdownIt}.

Definition parse_file (fs : filesystem) (file_path : path) : result str :=
  if negb (path_exists fs file_path)
  then Raise (U "Markdown file not found: " ++ file_path)
  else match read_text fs file_path with
       | Ok text => Ok text
       | Raise e =>
           Raise (U "Failed to read markdown file " ++ file_path ++ U ": " ++ e)
       end.

(** [token.map[0] if token.map else 0] *)
Definition map_start (token : Token) : nat :=
  match map token with
  | Some (a, _) => a
  | None => 0
  end.

(** The content of the token after [token] when that one is an inline
    token, and the empty string otherwise. *)
Definition next_inline (rest : list Token) : str :=
  match rest with
  | t :: _ => if str_eqb (ttype t) (U "inline") then content t else []
  | [] => []
  end.

Fixpoint heading_ids_go (tokens : list Token) (heading_ids : dict nat)
    : dict nat :=
  match tokens with
  | [] => heading_ids
  | token :: rest =>
      if str_eqb (ttype token) (U "heading_open") then
        let line_number := map_start token in
        let heading_text := next_inline rest in
        let section_id := _heading_to_id heading_text in
        heading_ids_go rest (dict_set section_id line_number heading_ids)
      else heading_ids_go rest heading_ids
  end.

Definition extract_heading_ids (content : str) : dict nat :=
  heading_ids_go (md_parse content) [].

Definition _build_section (h : heading_info) (content_lines : list str)
    : MarkdownSection :=
  {| section_id := h_section_id h;
     title := h_title h;
     section_content := strip (join [c_newline] content_lines);
     line_start := h_line_start h;
     line_end := (h_line_start h + length content_lines)%nat;
     level := h_level h |}.

(** [int(token.tag[1])] for the tags h1 .. h6. *)
Definition heading_level (tag : str) : nat :=
  match tag with
  | _ :: d :: _ => N.to_nat (d - 48)
  | _ => 0
  end.

(** The lines [lines[start:end]] that exist. *)
Definition lines_in (lines : list str) (start end_ : nat) : list str :=
  take (end_ - start) (drop start lines).

Fixpoint sections_go (lines : list str) (tokens : list Token)
    (current_heading : option heading_info) (current_content_lines : list str)
    : list MarkdownSection :=
  match tokens with
  | [] =>
      match current_heading with
      | Some h => [_build_section h current_content_lines]
      | None => []
      end
  | token :: rest =>
      if str_eqb (ttype token) (U "heading_open") then
        let heading_text := next_inline rest in
        let h := {| h_level := heading_level (tag token);
                    h_title := heading_text;
                    h_section_id := _heading_to_id heading_text;
                    h_line_start := map_start token |} in
        match current_heading with
        | Some h0 =>
            _build_section h0 current_content_lines
              :: sections_go lines rest (Some h) []
        | None => sections_go lines rest (Some h) []
        end
      else
        match current_heading, map token with
        | Some _, Some (start_line, end_line) =>
            sections_go lines rest current_heading
              (current_content_lines ++ lines_in lines start_line end_line)
        | _, _ => sections_go lines rest current_heading current_content_lines
        end
  end.

Definition extract_sections (content : str) : list MarkdownSection :=
  sections_go (split_char c_newline content) (md_parse content) None [].

End Parser.

End markdown_parser.

(** * Traceability links (models/traceability.py) *)

Module traceability.
Import markdown_parser.

Inductive LinkType :=
| PITCH_TO_STRATEGIC
| STRATEGIC_TO_PITCH
| STRATEGIC_TO_FEATURE
| FEATURE_TO_STRATEGIC
| FEATURE_TO_PITCH.

Inductive LinkValidationState :=
| VALID
| BROKEN_FILE
| BROKEN_SECTION
| MISSING_SOURCE.

Record LinkValidationResult := {
  state : LinkValidationState;
  message : option str;
  suggestion : option str;
}.

Definition is_valid (r : LinkValidationResult) : bool :=
  match state r with
  | VALID => true
  | _ => false
  end.

Record TraceabilityLink := {
  source_file : path;
  source_line : nat;
  target_file : path;
  target_section : option str;
  link_text : option str;
  link_type : option LinkType;
  _validation_result : option LinkValidationResult;
}.

(** [self._validation_result = result] *)
Definition cache_result (r : LinkValidationResult) (l : TraceabilityLink)
    : TraceabilityLink :=
  {| source_file := source_file l; source_line := source_line l;
     target_file := target_file l; target_section := target_section l;
     link_text := link_text l; link_type := link_type l;
     _validation_result := Some r |}.

(** [if self.target_section:] -- a section that is neither [None] nor the
    empty string. *)
Definition specified_section (l : TraceabilityLink) : option str :=
  match target_section l with
  | Some (c :: s) => Some (c :: s)
  | _ => None
  end.

Section Validate.
Context {UD : Unicode} {MD : MarkdownIt}.

(** [TraceabilityLink.validate], the result it returns. *)
Definition validate (fs : filesystem) (self : TraceabilityLink)
    : LinkValidationResult :=
  if negb (path_exists fs (source_file self)) then
    {| state := MISSING_SOURCE;
       message := Some (U "Source file does not exist: " ++ source_file self);
       suggestion := None |}
  else if negb (path_exists fs (target_file self)) then
    {| state := BROKEN_FILE;
       message := Some (U "Target file does not exist: " ++ target_file self);
       suggestion :=
         Some (U "Create " ++ target_file self ++ U " or update link in "
                 ++ source_file self ++ U ":"
                 ++ str_of_N (N.of_nat (source_line self))) |}
  else
    let valid :=
      {| state := VALID; message := Some (U "Link is valid");
         suggestion := None |} in
    match specified_section self with
    | Some section =>
        match parse_file fs (target_file self) with
        | Ok content =>
            let heading_ids := extract_heading_ids content in
            if negb (dict_mem section heading_ids) then
              let available := join (U ", ") (take 5 (dict_keys heading_ids)) in
              {| state := BROKEN_SECTION;
                 message :=
                   Some (U "Section '#" ++ section ++ U "' not found in "
                           ++ target_file self);
                 suggestion := Some (U "Available sections: " ++ available) |}
            else valid
        | Raise e =>
            {| state := BROKEN_FILE;
               message :=
                 Some (U "Failed to read target file " ++ target_file self
                         ++ U ": " ++ e);
               suggestion := None |}
        end
    | None => valid
    end.

End Validate.

Section Target.
Context {UD : Unicode} {MD : MarkdownIt}.

(** [TraceabilityLink.get_target]: the content of the target section, or of
    the whole target file when the link names no section; [None] when the
    target cannot be read or the section is not found. *)
Definition get_target (fs : filesystem) (self : TraceabilityLink)
    : option str :=
  if negb (path_exists fs (target_file self)) then None
  else
    match parse_file fs (target_file self) with
    | Ok content =>
        match specified_section self with
        | Some section =>
            section_content <$>
              List.find (fun s => str_eqb (section_id s) section)
                        (extract_sections content)
        | None => Some content
        end
    | Raise _ => None
    end.

End Target.

End traceability.

(** * Link validation (core/link_validator.py) *)

Module link_validator.
Import markdown_parser traceability.

(** Link objects live in a heap: a list of links is a list of references,
    and validating a link stores the result in the object. *)
Abbreviation loc := nat.
Abbreviation heap := (gmap nat TraceabilityLink).

Abbreviation validated := (nat * LinkValidationResult)%type.

Section Validator.
Context {UD : Unicode} {MD : MarkdownIt}.

(** [link.validate()] on the object at [l]: the result, and the heap with
    the result cached in the object. *)
Definition validate_link (fs : filesystem) (l : loc) (h : heap)
    : option (LinkValidationResult * heap) :=
  match h !! l with
  | Some link =>
      let r := validate fs link in
      Some (r, <[l := cache_result r link]> h)
  | None => None
  end.

(** The state of one [asyncio.gather]: the heap, and one result slot per
    task, empty until the task has completed. *)
Record gather_state := {
  g_heap : heap;
  g_slots : list (option validated);
}.

(** Task [i], [validate_one(links[i])], runs to completion in the executor. *)
Definition run_task (fs : filesystem) (links : list loc) (st : gather_state)
    (i : nat) : gather_state :=
  match links !! i with
  | Some l =>
      match validate_link fs l (g_heap st) with
      | Some (r, h') =>
          {| g_heap := h'; g_slots := <[i := Some (l, r)]> (g_slots st) |}
      | None => st
      end
  | None => st
  end.

(** [validate_all_links_async]: one task per link; the executor completes
    them in the order [schedule]; [gather] returns the slots in task order
    once every task is done. *)
Definition validate_all_links_async (fs : filesystem) (links : list loc)
    (schedule : list nat) (h : heap) : option (list validated * heap) :=
  let st0 := {| g_heap := h; g_slots := replicate (length links) None |} in
  let st := foldl (run_task fs links) st0 schedule in
  match mapM id (g_slots st) with
  | Some results => Some (results, g_heap st)
  | None => None
  end.

(** [validate_all_links]: [asyncio.run] of the above. *)
Definition validate_all_links (fs : filesystem) (links : list loc)
    (schedule : list nat) (h : heap) : option (list validated * heap) :=
  validate_all_links_async fs links schedule h.

(** Validating the links one after the other, in list order. *)
Fixpoint validate_sequentially (fs : filesystem) (links : list loc) (h : heap)
    : option (list validated * heap) :=
  match links with
  | [] => Some ([], h)
  | l :: links' =>
      match validate_link fs l h with
      | Some (r, h') =>
          match validate_sequentially fs links' h' with
          | Some (rs, h'') => Some ((l, r) :: rs, h'')
          | None => None
          end
      | None => None
      end
  end.

End Validator.

(** [get_broken_links]: the results whose state is not [VALID]. *)
Definition get_broken_links {L} (results : list (L * LinkValidationResult))
    : list (L * LinkValidationResult) :=
  List.filter
    (fun lr => match state (snd lr) with VALID => false | _ => true end)
    results.

(** [summary[key] += 1]; [None] is [KeyError]. *)
Definition increment (key : str) (summary : dict nat) : option (dict nat) :=
  match dict_get key summary with
  | Some n => Some (dict_set key (S n) summary)
  | None => None
  end.

Definition state_key (s : LinkValidationState) : str :=
  match s with
  | VALID => U "valid"
  | BROKEN_FILE => U "broken_file"
  | BROKEN_SECTION => U "broken_section"
  | MISSING_SOURCE => U "missing_source"
  end.

Fixpoint count_states {L} (results : list (L * LinkValidationResult))
    (summary : dict nat) : option (dict nat) :=
  match results with
  | [] => Some summary
  | (_, result) :: rest =>
      match increment (state_key (state result)) summary with
      | Some summary' => count_states rest summary'
      | None => None
      end
  end.

(** [get_validation_summary] *)
Definition get_validation_summary {L} (results : list (L * LinkValidationResult))
    : option (dict nat) :=
  count_states results
    [(U "valid", 0%nat); (U "broken_file", 0%nat);
     (U "broken_section", 0%nat); (U "missing_source", 0%nat)].

End link_validator.

(** * Constitutions (models/constitution.py) *)

Module constitution.
Import markdown_parser.

Inductive ConstitutionType := STRATEGIC | FEATURE.

Record Principle := {
  principle_id : str;
  title : str;
  rule : str;
  source_link : option str;
  test_criteria : option str;
}.

Record Constitution := {
  file_path : path;
  constitution_type : ConstitutionType;
  name : str;
  version : str;
  principles : list Principle;
  upstream_links : list MarkdownLink;
  downstream_links : list MarkdownLink;
}.

(** The filter of [Constitution.parse] that selects the upstream links among
    the links of the file. *)
Definition is_upstream (link : MarkdownLink) : bool :=
  contains (U "/deck/") (url link) || contains (U "/memory/") (url link)
  || contains (U "pitch-deck.md") (url link).

Definition select_upstream (all_links : list MarkdownLink) : list MarkdownLink :=
  List.filter is_upstream all_links.

End constitution.

(** * Cycle and orphan detection (core/conflict_detector.py) *)

Module conflict_detector.
Import markdown_parser constitution.

Record dfs_state := {
  visited : gset str;
  rec_stack : gset str;
  cycles : list (list str);
}.

(** [path.index(x)] *)
Fixpoint index_of (x : str) (l : list str) : option nat :=
  match l with
  | [] => None
  | y :: l' => if str_eqb x y then Some 0%nat else S <$> index_of x l'
  end.

(** Reading an attribute that a [MarkdownLink] object does not have: the
    object has [text], [url] and [line_number] only. *)
Definition AttributeError (attribute : string) : str :=
  U "'MarkdownLink' object has no attribute '" ++ U attribute ++ U "'".

(** [link.target_file] *)
Definition link_target_file (link : MarkdownLink) : result path :=
  Raise (AttributeError "target_file").

(** [link.target_section] *)
Definition link_target_section (link : MarkdownLink) : result (option str) :=
  Raise (AttributeError "target_section").

(** The inner loop of the graph construction: the stems of the upstream
    link targets under a features directory. *)
Fixpoint deps_go (links : list MarkdownLink) (deps : gset str)
    : result (gset str) :=
  match links with
  | [] => Ok deps
  | link :: rest =>
      match link_target_file link with
      | Raise e => Raise e
      | Ok target =>
          if contains (U "/features/") target
          then deps_go rest ({[stem target]} ∪ deps)
          else deps_go rest deps
      end
  end.

Definition deps_of (c : Constitution) : result (gset str) :=
  deps_go (upstream_links c) ∅.

(** [graph[constitution.name] = deps] for every constitution, in order. *)
Fixpoint build_graph_go (constitutions : list Constitution)
    (graph : dict (gset str)) : result (dict (gset str)) :=
  match constitutions with
  | [] => Ok graph
  | c :: rest =>
      match deps_of c with
      | Raise e => Raise e
      | Ok deps => build_graph_go rest (dict_set (name c) deps graph)
      end
  end.

Definition build_graph (constitutions : list Constitution)
    : result (dict (gset str)) :=
  build_graph_go constitutions [].

(** [graph.get(node, set())] *)
Definition graph_get (graph : dict (gset str)) (node : str) : gset str :=
  default ∅ (dict_get node graph).

Section Cycles.
(** The order in which a [for] loop walks a [set]. *)
Variable iter_order : gset str -> list str.
Variable graph : dict (gset str).

(** The nested function [dfs].  [path] is passed by copy.  [fuel] bounds
    the recursion depth; [None] is the failure of running out of it, or of
    [path.index]. *)
Fixpoint dfs (fuel : nat) (node : str) (path : list str) (st : dfs_state)
    : option dfs_state :=
  match fuel with
  | O => None
  | S fuel' =>
      let st := {| visited := {[node]} ∪ visited st;
                   rec_stack := {[node]} ∪ rec_stack st;
                   cycles := cycles st |} in
      let path := path ++ [node] in
      let visit :=
        fix visit (neighbors : list str) (st : dfs_state) : option dfs_state :=
          match neighbors with
          | [] => Some st
          | neighbor :: rest =>
              let st' :=
                if bool_decide (neighbor ∉ visited st) then
                  dfs fuel' neighbor path st
                else if bool_decide (neighbor ∈ rec_stack st) then
                  match index_of neighbor path with
                  | Some cycle_start =>
                      let cycle := drop cycle_start path ++ [neighbor] in
                      Some {| visited := visited st;
                              rec_stack := rec_stack st;
                              cycles := cycles st ++ [cycle] |}
                  | None => None
                  end
                else Some st in
              match st' with
              | Some st' => visit rest st'
              | None => None
              end
          end in
      match visit (iter_order (graph_get graph node)) st with
      | Some st =>
          Some {| visited := visited st;
                  rec_stack := rec_stack st ∖ {[node]};
                  cycles := cycles st |}
      | None => None
      end
  end.

(** [for node in graph: if node not in visited: dfs(node, [])] *)
Fixpoint dfs_all (fuel : nat) (keys : list str) (st : dfs_state)
    : option dfs_state :=
  match keys with
  | [] => Some st
  | node :: rest =>
      if bool_decide (node ∉ visited st) then
        match dfs fuel node [] st with
        | Some st' => dfs_all fuel rest st'
        | None => None
        end
      else dfs_all fuel rest st
  end.

End Cycles.

(** Every node the search can reach: the keys and their dependencies. *)
Definition graph_nodes (graph : dict (gset str)) : gset str :=
  list_to_set (dict_keys graph) ∪ ⋃ (List.map snd graph).

(** The search for cycles, from the graph on.  A call of [dfs] visits a node
    not yet visited, so the recursion is never deeper than the number of
    nodes. *)
Definition find_cycles (iter_order : gset str -> list str)
    (graph : dict (gset str)) : option (list (list str)) :=
  let fuel := S (size (graph_nodes graph)) in
  cycles <$>
    dfs_all iter_order graph fuel (dict_keys graph)
      {| visited := ∅; rec_stack := ∅; cycles := [] |}.

(** [detect_circular_dependencies] *)
Definition detect_circular_dependencies (iter_order : gset str -> list str)
    (constitutions : list Constitution) : result (option (list (list str))) :=
  match build_graph constitutions with
  | Raise e => Raise e
  | Ok graph => Ok (find_cycles iter_order graph)
  end.

(** [f"{a}#{b}"] *)
Definition ref_key (a b : str) : str := a ++ U "#" ++ b.

(** The loop over the upstream links of one constitution that collects the
    keys of the links that carry a target section. *)
Fixpoint referenced_go (links : list MarkdownLink) (referenced : gset str)
    : result (gset str) :=
  match links with
  | [] => Ok referenced
  | link :: rest =>
      match link_target_section link with
      | Raise e => Raise e
      | Ok (Some (c :: section)) =>
          match link_target_file link with
          | Raise e => Raise e
          | Ok target =>
              referenced_go rest
                ({[ref_key (stem target) (c :: section)]} ∪ referenced)
          end
      | Ok _ => referenced_go rest referenced
      end
  end.

Fixpoint referenced_principles_go (constitutions : list Constitution)
    (referenced : gset str) : result (gset str) :=
  match constitutions with
  | [] => Ok referenced
  | c :: rest =>
      match referenced_go (upstream_links c) referenced with
      | Raise e => Raise e
      | Ok referenced => referenced_principles_go rest referenced
      end
  end.

Definition referenced_principles (constitutions : list Constitution)
    : result (gset str) :=
  referenced_principles_go constitutions ∅.

(** The second loop: the principles of the strategic constitutions whose key
    is not referenced. *)
Definition unreferenced (referenced : gset str)
    (constitutions : list Constitution) : list (str * str) :=
  flat_map
    (fun c =>
       match constitution_type c with
       | STRATEGIC =>
           omap (fun p =>
                   if bool_decide (ref_key (name c) (principle_id p) ∉ referenced)
                   then Some (name c, principle_id p) else None)
                (principles c)
       | FEATURE => []
       end)
    constitutions.

Definition get_orphaned_principles (constitutions : list Constitution)
    : result (list (str * str)) :=
  match referenced_principles constitutions with
  | Raise e => Raise e
  | Ok referenced => Ok (unreferenced referenced constitutions)
  end.

End conflict_detector.

(** * Installation rollback (core/installer.py) *)

Module installer.

Record InstallationRollback := {
  created_files : list path;
  created_dirs : list path;
}.

Definition new_tracker : InstallationRollback :=
  {| created_files := []; created_dirs := [] |}.

Definition track_file (fs : filesystem) (self : InstallationRollback) (p : path)
    : InstallationRollback :=
  if negb (path_exists fs p)
  then {| created_files := created_files self ++ [p];
          created_dirs := created_dirs self |}
  else self.

Definition track_dir (fs : filesystem) (self : InstallationRollback) (p : path)
    : InstallationRollback :=
  if negb (path_exists fs p)
  then {| created_files := created_files self;
          created_dirs := created_dirs self ++ [p] |}
  else self.

(** [any(dir_path.iterdir())]: some other path lies directly inside. *)
Definition has_entries (fs : filesystem) (d : path) : bool :=
  bool_decide (map_Exists (fun q _ => q <> d /\ parent q = d) (nodes fs)).

Definition remove_node (fs : filesystem) (p : path) : filesystem :=
  {| nodes := delete p (nodes fs); protected := protected fs |}.

(** [path.unlink()]: removes a file; raises on a directory and on a path
    the system protects. *)
Definition unlink (fs : filesystem) (p : path) : result filesystem :=
  match nodes fs !! p with
  | None => Raise (U "[Errno 2] No such file or directory")
  | Some Dir => Raise (U "[Errno 21] Is a directory")
  | Some _ =>
      if bool_decide (p ∈ protected fs)
      then Raise (U "[Errno 13] Permission denied")
      else Ok (remove_node fs p)
  end.

(** [path.rmdir()]: removes an empty directory. *)
Definition rmdir (fs : filesystem) (p : path) : result filesystem :=
  match nodes fs !! p with
  | None => Raise (U "[Errno 2] No such file or directory")
  | Some Dir =>
      if has_entries fs p then Raise (U "[Errno 39] Directory not empty")
      else if bool_decide (p ∈ protected fs)
      then Raise (U "[Errno 13] Permission denied")
      else Ok (remove_node fs p)
  | Some _ => Raise (U "[Errno 20] Not a directory")
  end.

(** What [rollback] does with one tracked path; each event but [Absent]
    is a line it prints. *)
Inductive event :=
| Absent (p : path)                (* the path no longer exists: nothing *)
| DeletedFile (p : path)           (* "Deleted p" *)
| DeletedDir (p : path)            (* "Deleted p/" *)
| Skipped (p : path)               (* "Skipped p/ (not empty)" *)
| Warning (p : path) (e : str).    (* "Warning: Could not delete p: e" *)

Definition event_path (e : event) : path :=
  match e with
  | Absent p | DeletedFile p | DeletedDir p | Skipped p | Warning p _ => p
  end.

(** One iteration of the first loop. *)
Definition rollback_file (fs : filesystem) (file_path : path)
    : filesystem * event :=
  if path_exists fs file_path then
    match unlink fs file_path with
    | Ok fs' => (fs', DeletedFile file_path)
    | Raise e => (fs, Warning file_path e)
    end
  else (fs, Absent file_path).

(** One iteration of the second loop; [iterdir] raises on a path that is
    not a directory. *)
Definition rollback_dir (fs : filesystem) (dir_path : path)
    : filesystem * event :=
  if path_exists fs dir_path then
    match nodes fs !! dir_path with
    | Some Dir =>
        if negb (has_entries fs dir_path) then
          match rmdir fs dir_path with
          | Ok fs' => (fs', DeletedDir dir_path)
          | Raise e => (fs, Warning dir_path e)
          end
        else (fs, Skipped dir_path)
    | _ => (fs, Warning dir_path (U "[Errno 20] Not a directory"))
    end
  else (fs, Absent dir_path).

(** Run [step] over [paths], recording for every path the filesystem it
    found and what happened. *)
Fixpoint run_steps (step : filesystem -> path -> filesystem * event)
    (fs : filesystem) (paths : list path)
    : filesystem * list (filesystem * event) :=
  match paths with
  | [] => (fs, [])
  | p :: rest =>
      let '(fs', e) := step fs p in
      let '(fs'', log) := run_steps step fs' rest in
      (fs'', (fs, e) :: log)
  end.

(** [InstallationRollback.rollback]: the final filesystem and the log. *)
Definition rollback (fs : filesystem) (self : InstallationRollback)
    : filesystem * list (filesystem * event) :=
  let '(fs1, log1) := run_steps rollback_file fs (rev (created_files self)) in
  let '(fs2, log2) := run_steps rollback_dir fs1 (rev (created_dirs self)) in
  (fs2, log1 ++ log2).

(** An installation in progress: calls on the tracker interleaved with
    arbitrary changes of the filesystem. *)
Inductive install_op :=
| TrackFile (p : path)
| TrackDir (p : path)
| Change (f : filesystem -> filesystem).

Definition install_step (st : filesystem * InstallationRollback)
    (op : install_op) : filesystem * InstallationRollback :=
  let '(fs, tracker) := st in
  match op with
  | TrackFile p => (fs, track_file fs tracker p)
  | TrackDir p => (fs, track_dir fs tracker p)
  | Change f => (f fs, tracker)
  end.

Definition install (fs : filesystem) (ops : list install_op)
    : filesystem * InstallationRollback :=
  foldl install_step (fs, new_tracker) ops.

(** [path.mkdir()]: a new directory inside an existing one. *)
Definition mkdir (fs : filesystem) (p : path) : result filesystem :=
  match nodes fs !! p with
  | Some _ => Raise (U "[Errno 17] File exists")
  | None =>
      match nodes fs !! parent p with
      | Some Dir =>
          Ok {| nodes := <[p := Dir]> (nodes fs); protected := protected fs |}
      | Some _ => Raise (U "[Errno 20] Not a directory")
      | None => Raise (U "[Errno 2] No such file or directory")
      end
  end.

(** [path.write_text(text)] as the installation uses it, on a path that
    may be new: opening a new file needs its directory. *)
Definition write_new_text (fs : filesystem) (p : path) (text : str)
    : result filesystem :=
  match nodes fs !! p with
  | Some _ => write_text fs p text
  | None =>
      match nodes fs !! parent p with
      | Some Dir => write_text fs p text
      | Some _ => Raise (U "[Errno 20] Not a directory: '" ++ p ++ U "'")
      | None => Raise (U "[Errno 2] No such file or directory: '" ++ p ++ U "'")
      end
  end.

(** A step of an installation that keeps to the protocol of
    [atomic_installation]: the tracker is told of the path, then the path is
    created ([tracker.track_dir(p); p.mkdir()], or
    [tracker.track_file(p); p.write_text(text)]). *)
Inductive creation :=
| CreateDir (p : path)
| CreateFile (p : path) (text : str).

(** The body of the [with] block: the steps in order, up to the first one
    that raises.  The tracker is a mutable object, so it keeps what it was
    told before the exception. *)
Fixpoint run_body (fs : filesystem) (tracker : InstallationRollback)
    (body : list creation) : filesystem * InstallationRollback * option str :=
  match body with
  | [] => (fs, tracker, None)
  | CreateDir p :: rest =>
      let tracker := track_dir fs tracker p in
      match mkdir fs p with
      | Ok fs' => run_body fs' tracker rest
      | Raise e => (fs, tracker, Some e)
      end
  | CreateFile p text :: rest =>
      let tracker := track_file fs tracker p in
      match write_new_text fs p text with
      | Ok fs' => run_body fs' tracker rest
      | Raise e => (fs, tracker, Some e)
      end
  end.

(** [with atomic_installation() as tracker: body], followed by whatever else
    the block does, which raises [and_then = Some e] or not: the filesystem
    afterwards and the outcome. *)
Definition atomic_installation (fs : filesystem) (body : list creation)
    (and_then : option str) : filesystem * result unit :=
  let '(fs', tracker, raised) := run_body fs new_tracker body in
  match (match raised with Some e => Some e | None => and_then end) with
  | Some e =>
      (fst (rollback fs' tracker),
       Raise (U "Installation failed: " ++ e ++ U ". All changes rolled back."))
  | None => (fs', Ok tt)
  end.

End installer.

(** * Checklists (models/checklist.py) *)

Module checklist.

Record ChecklistItem := {
  item_id : str;
  description : str;
  is_checked : bool;
  category : str;
}.

Record Checklist := {
  checklist_id : str;
  constitution_file : path;
  items : list ChecklistItem;
}.

(** [a / b] on integers: [None] is [ZeroDivisionError]. *)
Definition truediv (a b : Z) : option Q :=
  if (b =? 0)%Z then None else Some (inject_Z a / inject_Z b)%Q.

(** [sum(1 for item in self.items if item.is_checked)] *)
Definition checked_count (items : list ChecklistItem) : Z :=
  Z.of_nat (length (List.filter is_checked items)).

Definition calculate_completion (self : Checklist) : option Q :=
  match items self with
  | [] => Some 0%Q
  | _ =>
      match truediv (checked_count (items self))
                    (Z.of_nat (length (items self))) with
      | Some q => Some (q * 100)%Q
      | None => None
      end
  end.

(** [ChecklistItem.to_markdown] *)
Definition to_markdown (self : ChecklistItem) : str :=
  let checkbox := if is_checked self then U "[x]" else U "[ ]" in
  U "- " ++ checkbox ++ U " " ++ description self.

(** [s.split(sep, 1)[1]]: the text after the first occurrence of [sep];
    [None] is the [IndexError] raised when [sep] does not occur. *)
Definition after_first (sep s : str) : option str :=
  match str_find sep s 0 with
  | Some i => Some (drop (i + length sep) s)
  | None => None
  end.

(** The variables of the loop of [Checklist.parse_from_file] that the items
    depend on. *)
Record parse_state := {
  current_category : str;
  parsed_items : list ChecklistItem;
  item_counter : N;
}.

Section Parse.
Context {UD : Unicode}.

(** One iteration of the loop of [Checklist.parse_from_file]; [None] is an
    exception.  The constitution reference and the constitution type that
    the loop also reads off the lines do not bear on the items and are left
    out. *)
Definition parse_line (st : parse_state) (line : str) : option parse_state :=
  if startswith (U "## ") line then
    Some {| current_category := strip (drop 3 line);
            parsed_items := parsed_items st;
            item_counter := item_counter st |}
  else if startswith (U "- [") (strip line) then
    let checked :=
      contains (U "[x]") (lower line) || contains (U "[X]") (lower line) in
    let found :=
      if contains (U "- [ ]") line then Some (after_first (U "- [ ]") line)
      else if contains (U "- [x]") (lower line)
      then Some (after_first (U "]") line)
      else None in
    match found with
    | Some (Some text) =>
        let item :=
          {| item_id := U "CHK" ++ format_03d (item_counter st);
             description := strip text;
             is_checked := checked;
             category := current_category st |} in
        Some {| current_category := current_category st;
                parsed_items := parsed_items st ++ [item];
                item_counter := item_counter st + 1 |}
    | Some None => None
    | None => Some st
    end
  else Some st.

Fixpoint parse_lines (st : parse_state) (lines : list str)
    : option parse_state :=
  match lines with
  | [] => Some st
  | line :: rest =>
      match parse_line st line with
      | Some st' => parse_lines st' rest
      | None => None
      end
  end.

(** The items of [Checklist.parse_from_file(path)] for a file that holds
    [content]. *)
Definition parse_items (content : str) : option (list ChecklistItem) :=
  parsed_items <$>
    parse_lines {| current_category := U "General"; parsed_items := [];
                   item_counter := 1 |}
                (split_char c_newline content).

End Parse.

End checklist.

(** * Versions and frontmatter (core/version_tracker.py) *)

Module version_tracker.

Inductive BumpType := MAJOR | MINOR | PATCH.

(** What PyYAML's safe loader constructs: a value, or at top level a
    dictionary of values. *)
Inductive yaml_value :=
| YNull
| YBool (b : bool)
| YInt (z : Z)
| YFloat (repr : str)       (* a float, by the string [str] gives for it *)
| YStr (s : str)
| YOther (source : str).    (* dates, sequences, nested mappings: never
                               inspected *)

Inductive yaml_doc :=
| YValue (v : yaml_value)
| YMap (entries : list (yaml_value * yaml_value)).

(** The two PyYAML entry points the program calls: [yaml.safe_load], where
    [Raise] is [yaml.YAMLError], and
    [yaml.dump(x, default_flow_style=False, sort_keys=False)]. *)
Class PyYAML := {
  safe_load : str -> result yaml_doc;
  dump : yaml_doc -> str;
}.

(** r"^(\d+)\.(\d+)\.(\d+)$" *)
Definition VERSION_PATTERN : regex :=
  RSeqs [RBol; RGroup 1 (RPlus r_digit); RLit 46; RGroup 2 (RPlus r_digit);
         RLit 46; RGroup 3 (RPlus r_digit); REol].

Definition str_of_Z (z : Z) : str :=
  match z with
  | Zneg p => U "-" ++ str_of_N (Npos p)
  | _ => str_of_N (Z.to_N z)
  end.

Definition delimiter_nl : str := [c_newline] ++ U "---" ++ [c_newline].
Definition delimiter : str := [c_newline] ++ U "---".
Definition opening : str := U "---" ++ [c_newline].

(** [content.find("\n---\n", 4)], falling back on [content.find("\n---", 4)]. *)
Definition find_end_delimiter (content : str) : option nat :=
  match str_find delimiter_nl content 4 with
  | Some i => Some i
  | None => str_find delimiter content 4
  end.

(** [frontmatter.get(key)] and [key in frontmatter] for a string key. *)
Definition is_key (k : str) (kv : yaml_value * yaml_value) : bool :=
  match fst kv with
  | YStr s => str_eqb s k
  | _ => false
  end.

Definition ymap_get (k : str) (entries : list (yaml_value * yaml_value))
    : option yaml_value :=
  snd <$> List.find (is_key k) entries.

(** [frontmatter[key] = v] *)
Fixpoint ymap_set (k : str) (v : yaml_value)
    (entries : list (yaml_value * yaml_value))
    : list (yaml_value * yaml_value) :=
  match entries with
  | [] => [(YStr k, v)]
  | kv :: rest =>
      if is_key k kv then (fst kv, v) :: rest else kv :: ymap_set k v rest
  end.

(** [str(version)] when [isinstance(version, (str, int, float))]; a [bool]
    is an [int]. *)
Definition version_string (v : yaml_value) : option str :=
  match v with
  | YStr s => Some s
  | YInt z => Some (str_of_Z z)
  | YBool b => Some (if b then U "True" else U "False")
  | YFloat repr => Some repr
  | _ => None
  end.

Section Tracker.
Context {UD : Unicode} {Y : PyYAML}.

(** [int(s)] on a string of decimal digits. *)
Definition int_of (s : str) : N :=
  fold_left (fun acc c => 10 * acc + todecimal c) s 0.

Definition parse_version (version_str : str) : result (N * N * N) :=
  match re_match_ no_flags VERSION_PATTERN version_str with
  | None => Raise (U "Invalid semantic version: " ++ version_str)
  | Some m =>
      Ok (int_of (group_str 1 m), int_of (group_str 2 m),
          int_of (group_str 3 m))
  end.

Definition bump_version (current_version : str) (bump_type : BumpType)
    : result str :=
  match parse_version current_version with
  | Raise e => Raise e
  | Ok (major, minor, patch) =>
      Ok match bump_type with
         | MAJOR => str_of_N (major + 1) ++ U ".0.0"
         | MINOR => str_of_N major ++ U "." ++ str_of_N (minor + 1) ++ U ".0"
         | PATCH =>
             str_of_N major ++ U "." ++ str_of_N minor ++ U "."
               ++ str_of_N (patch + 1)
         end
  end.

Definition extract_version_from_frontmatter (fs : filesystem)
    (file_path : path) : option str :=
  if negb (path_exists fs file_path) then None
  else
    match read_text fs file_path with
    | Raise _ => None
    | Ok content =>
        if negb (startswith opening content) then None
        else
          match find_end_delimiter content with
          | None => None
          | Some end_delimiter =>
              let frontmatter_content := slice content 4 end_delimiter in
              match safe_load frontmatter_content with
              | Ok (YMap frontmatter) =>
                  match ymap_get (U "version") frontmatter with
                  | Some version => version_string version
                  | None => None
                  end
              | _ => None
              end
          end
    end.

Definition update_version_in_frontmatter (fs : filesystem) (file_path : path)
    (new_version : str) : result filesystem :=
  if negb (path_exists fs file_path)
  then Raise (U "File not found: " ++ file_path)
  else
    match read_text fs file_path with
    | Raise e => Raise e
    | Ok content =>
        if negb (startswith opening content)
        then Raise (U "File " ++ file_path ++ U " has no YAML frontmatter")
        else
          match find_end_delimiter content with
          | None =>
              Raise (U "File " ++ file_path
                       ++ U " has incomplete YAML frontmatter")
          | Some end_delimiter =>
              let frontmatter_content := slice content 4 end_delimiter in
              match safe_load frontmatter_content with
              | Raise e =>
                  Raise (U "File " ++ file_path
                           ++ U " has invalid YAML frontmatter: " ++ e)
              | Ok (YMap frontmatter) =>
                  match ymap_get (U "version") frontmatter with
                  | None =>
                      Raise (U "File " ++ file_path
                               ++ U " has no 'version' field in frontmatter")
                  | Some _ =>
                      let frontmatter :=
                        ymap_set (U "version") (YStr new_version) frontmatter in
                      let new_frontmatter := dump (YMap frontmatter) in
                      let rest_of_content := drop (end_delimiter + 5) content in
                      let new_content :=
                        opening ++ new_frontmatter ++ opening
                          ++ rest_of_content in
                      write_text fs file_path new_content
                  end
              | Ok _ =>
                  Raise (U "File " ++ file_path
                           ++ U " frontmatter is not a dictionary")
              end
          end
    end.

End Tracker.

Section Compare.
Context {UD : Unicode}.

(** [a < b] on tuples of three integers. *)
Definition tuple_ltb (a b : N * N * N) : bool :=
  let '(a1, a2, a3) := a in
  let '(b1, b2, b3) := b in
  (a1 <? b1) || ((a1 =? b1) && ((a2 <? b2) || ((a2 =? b2) && (a3 <? b3)))).

Definition compare_versions (version1 version2 : str) : result Z :=
  match parse_version version1 with
  | Raise e => Raise e
  | Ok v1_parts =>
      match parse_version version2 with
      | Raise e => Raise e
      | Ok v2_parts =>
          Ok (if tuple_ltb v1_parts v2_parts then (-1)%Z
              else if tuple_ltb v2_parts v1_parts then 1%Z
              else 0%Z)
      end
  end.

End Compare.

End version_tracker.

(** * Pitch decks (models/pitch_deck.py) *)

Module pitch_deck.
Import markdown_parser version_tracker.

Inductive SourceMode := INTERACTIVE | FROM_FILE | FROM_PDF | MANUAL.

Record PitchDeckSection := {
  section_id : str;
  title : str;
  content : str;
  line_start : nat;
  line_end : nat;
}.

(** [last_modified], a timestamp, is left out. *)
Record PitchDeck := {
  file_path : path;
  version : str;
  sections : list PitchDeckSection;
  source_mode : SourceMode;
}.

Definition of_markdown_section (ms : MarkdownSection) : PitchDeckSection :=
  {| section_id := markdown_parser.section_id ms;
     title := markdown_parser.title ms;
     content := markdown_parser.section_content ms;
     line_start := markdown_parser.line_start ms;
     line_end := markdown_parser.line_end ms |}.

Section Deck.
Context {UD : Unicode} {MD : MarkdownIt} {Y : PyYAML}.

Definition parse (fs : filesystem) (file_path : path) : result PitchDeck :=
  match parse_file fs file_path with
  | Raise e => Raise e
  | Ok content =>
      match extract_version_from_frontmatter fs file_path with
      | None =>
          Raise (U "Pitch deck " ++ file_path
                   ++ U " has no version in frontmatter")
      | Some version =>
          Ok {| file_path := file_path;
                version := version;
                sections := List.map of_markdown_section
                                     (extract_sections content);
                source_mode := MANUAL |}
      end
  end.

(** [PitchDeck.bump_version]: the new version string and the updated deck. *)
Definition bump_version (self : PitchDeck) (bump_type : BumpType)
    : result (str * PitchDeck) :=
  match version_tracker.bump_version (version self) bump_type with
  | Raise e => Raise e
  | Ok new_version =>
      Ok (new_version,
          {| file_path := file_path self; version := new_version;
             sections := sections self; source_mode := source_mode self |})
  end.

Definition save (fs : filesystem) (self : PitchDeck) : result filesystem :=
  match update_version_in_frontmatter fs (file_path self) (version self) with
  | Ok fs' => Ok fs'
  | Raise e =>
      Raise (U "Failed to update version in " ++ file_path self ++ U ": " ++ e)
  end.

(** What the round trip compares of a section. *)
Definition section_view (s : PitchDeckSection) : str * str * str :=
  (section_id s, title s, content s).

(** Parse, bump, save, parse again: the bumped version, the deck first
    parsed and the deck parsed last. *)
Definition round_trip (fs : filesystem) (file_path : path)
    (bump_type : BumpType) : result (str * PitchDeck * PitchDeck) :=
  match parse fs file_path with
  | Raise e => Raise e
  | Ok deck =>
      match bump_version deck bump_type with
      | Raise e => Raise e
      | Ok (new_version, deck') =>
          match save fs deck' with
          | Raise e => Raise e
          | Ok fs' =>
              match parse fs' file_path with
              | Raise e => Raise e
              | Ok deck'' => Ok (new_version, deck, deck'')
              end
          end
      end
  end.

End Deck.

(** [PitchDeck.get_section]: the first section with that id. *)
Definition get_section (self : PitchDeck) (sid : str)
    : option PitchDeckSection :=
  List.find (fun section => str_eqb (section_id section) sid) (sections self).

Definition set_content (new_content : str) (s : PitchDeckSection)
    : PitchDeckSection :=
  {| section_id := section_id s; title := title s; content := new_content;
     line_start := line_start s; line_end := line_end s |}.

(** [section.content = new_content] on the object [get_section] returned,
    which is the first of the list with that id. *)
Fixpoint assign_content (sid new_content : str) (l : list PitchDeckSection)
    : list PitchDeckSection :=
  match l with
  | [] => []
  | s :: rest =>
      if str_eqb (section_id s) sid then set_content new_content s :: rest
      else s :: assign_content sid new_content rest
  end.

(** [PitchDeck.update_section] *)
Definition update_section (self : PitchDeck) (sid new_content : str)
    : result PitchDeck :=
  match get_section self sid with
  | None => Raise (U "Section '" ++ sid ++ U "' not found in pitch deck")
  | Some _ =>
      Ok {| file_path := file_path self; version := version self;
            sections := assign_content sid new_content (sections self);
            source_mode := source_mode self |}
  end.

End pitch_deck.

(** * The third-party parsers on the documents of the examples

    The program hands markdown to markdown-it and frontmatter to PyYAML.
    Theorems about the program hold for any parser; the examples need
    concrete ones.  The two instances below follow the libraries on a small
    class of documents and are not models of them elsewhere. *)

Module commonmark.
Import markdown_parser.

(** markdown-it's block tokens ("commonmark" preset) for a document whose
    lines are blank lines, thematic breaks, ATX headings, setext underlines
    and paragraph text indented by less than four spaces.  As CommonMark
    prescribes, a line of dashes under paragraph text is a setext underline
    and makes that text a level-2 heading; elsewhere it is a thematic
    break. *)

Definition is_blank_char (c : char) : bool := (c =? 32) || (c =? 9).
Definition is_blank (ln : str) : bool := forallb is_blank_char ln.

Definition unindent (ln : str) : option str :=
  let s := lstrip_by (N.eqb 32) ln in
  if (length ln - length s <? 4)%nat then Some s else None.

(** The level of a setext underline. *)
Definition setext_level (ln : str) : option nat :=
  match unindent ln with
  | Some (c :: s) =>
      if ((c =? 61) || (c =? 45)) && is_blank (lstrip_by (N.eqb c) s)
      then Some (if c =? 61 then 1%nat else 2%nat) else None
  | _ => None
  end.

Definition is_hr (ln : str) : bool :=
  match unindent ln with
  | Some (c :: s) =>
      ((c =? 45) || (c =? 95) || (c =? 42))
      && forallb (fun x => (x =? c) || is_blank_char x) s
      && (2 <=? length (List.filter (N.eqb c) s))%nat
  | _ => false
  end.

(** The level and the text of an ATX heading; a closing run of [#] set off
    by a space is dropped. *)
Definition atx (UD : Unicode) (ln : str) : option (nat * str) :=
  match unindent ln with
  | Some s =>
      let rest := lstrip_by (N.eqb 35) s in
      let n := (length s - length rest)%nat in
      let opens := match rest with [] => true | c :: _ => is_blank_char c end in
      if (1 <=? n)%nat && (n <=? 6)%nat && opens then
        let r1 := rstrip_by is_blank_char rest in
        let r2 := rstrip_by (N.eqb 35) r1 in
        let body :=
          match rev r2 with
          | c :: _ => if is_blank_char c then r2 else r1
          | [] => r1
          end in
        Some (n, strip body)
      else None
  | None => None
  end.

Definition tok (ttype tag : string) (content : str) (map : option (nat * nat))
    : Token :=
  {| ttype := U ttype; tag := U tag; content := content; map := map |}.

Definition heading_tokens (level : nat) (text : str) (open_map inline_map : nat * nat)
    : list Token :=
  let tag := append "h" (string_of_list_ascii [ascii_of_nat (48 + level)]) in
  [tok "heading_open" tag [] (Some open_map);
   tok "inline" "" text (Some inline_map);
   tok "heading_close" tag [] None].

Definition paragraph_text (UD : Unicode) (para_rev : list str) : str :=
  strip (join [c_newline] (rev para_rev)).

Definition flush (UD : Unicode) (para_rev : list str) (start i : nat)
    : list Token :=
  match para_rev with
  | [] => []
  | _ =>
      [tok "paragraph_open" "p" [] (Some (start, i));
       tok "inline" "" (paragraph_text UD para_rev) (Some (start, i));
       tok "paragraph_close" "p" [] None]
  end.

(** [para_rev] holds the lines of the paragraph being read, which started
    on line [start]; [i] is the number of the line at the head of [lines]. *)
Fixpoint blocks (UD : Unicode) (lines : list str) (i : nat)
    (para_rev : list str) (start : nat) : list Token :=
  match lines with
  | [] => flush UD para_rev start i
  | ln :: rest =>
      match para_rev, setext_level ln with
      | _ :: _, Some level =>
          heading_tokens level (paragraph_text UD para_rev)
            (start, S i) (start, i)
            ++ blocks UD rest (S i) [] (S i)
      | _, _ =>
          if is_blank ln then
            flush UD para_rev start i ++ blocks UD rest (S i) [] (S i)
          else if is_hr ln then
            flush UD para_rev start i
              ++ tok "hr" "hr" [] (Some (i, S i))
              :: blocks UD rest (S i) [] (S i)
          else
            match atx UD ln with
            | Some (level, text) =>
                flush UD para_rev start i
                  ++ heading_tokens level text (i, S i) (i, S i)
                  ++ blocks UD rest (S i) [] (S i)
            | None =>
                blocks UD rest (S i) (ln :: para_rev)
                  (match para_rev with [] => i | _ => start end)
            end
      end
  end.

(** A trailing newline does not start a further line. *)
Definition source_lines (src : str) : list str :=
  match rev (split_char c_newline src) with
  | [] :: ls => rev ls
  | _ => split_char c_newline src
  end.

#[export] Instance markdown_it (UD : Unicode) : MarkdownIt :=
  {| md_parse := fun src => blocks UD (source_lines src) 0 [] 0 |}.

End commonmark.

Module plain_yaml.
Import version_tracker.

(** PyYAML on block mappings of one [key: value] line per entry, where a
    key is a word and a value is a word or a dotted number with at least
    two dots -- both of which YAML 1.1 resolves to strings, and both of
    which [yaml.dump] writes back plain.  Anything else is refused. *)

Definition word_char (c : char) : bool :=
  ascii_upper c || ascii_lower c || ascii_digit c || (c =? 95) || (c =? 45).

(** The words YAML 1.1 reads as null or as a boolean. *)
Definition reserved : list str :=
  List.map U ["null"; "Null"; "NULL"; "yes"; "Yes"; "YES"; "no"; "No"; "NO";
              "true"; "True"; "TRUE"; "false"; "False"; "FALSE";
              "on"; "On"; "ON"; "off"; "Off"; "OFF";
              "y"; "Y"; "n"; "N"]%string.

Definition is_word (s : str) : bool :=
  match s with
  | c :: _ =>
      (ascii_upper c || ascii_lower c) && forallb word_char s
      && negb (existsb (str_eqb s) reserved)
  | [] => false
  end.

Definition is_dotted (s : str) : bool :=
  let parts := split_char c_dot s in
  (3 <=? length parts)%nat
  && forallb (fun p => match p with
                       | [] => false
                       | _ => forallb ascii_digit p
                       end) parts.

Definition is_plain (s : str) : bool := is_word s || is_dotted s.

(** One line [key: value]. *)
Definition entry (ln : str) : option (str * str) :=
  match str_find (U ": ") ln 0 with
  | Some i =>
      let k := take i ln in
      let v := drop (i + 2) ln in
      if is_word k && is_plain v then Some (k, v) else None
  | None => None
  end.

Definition load (src : str) : result yaml_doc :=
  let lines := List.filter (fun ln => negb (commonmark.is_blank ln))
                           (split_char c_newline src) in
  match lines with
  | [] => Ok (YValue YNull)
  | _ =>
      match mapM entry lines with
      | Some entries =>
          if bool_decide (NoDup (List.map fst entries))
          then Ok (YMap (List.map (fun kv => (YStr (fst kv), YStr (snd kv)))
                                  entries))
          else Raise (U "found duplicate key")
      | None => Raise (U "not a mapping of plain scalars")
      end
  end.

Definition dump_entry (kv : yaml_value * yaml_value) : str :=
  match kv with
  | (YStr k, YStr v) => k ++ U ": " ++ v ++ [c_newline]
  | _ => []
  end.

Definition dump_doc (d : yaml_doc) : str :=
  match d with
  | YMap entries => flat_map dump_entry entries
  | YValue _ => []
  end.

#[export] Instance pyyaml : PyYAML :=
  {| safe_load := load; dump := dump_doc |}.

End plain_yaml.

(** * Proofs *)

Local Close Scope N_scope.

#[local] Set Warnings "-clear-no-such-hyp".

(** ** Checklist completion *)

Section ChecklistProofs.
Import checklist.

Lemma truediv_nonzero (a b : Z) :
  b <> 0%Z -> truediv a b = Some (inject_Z a / inject_Z b)%Q.
Proof.
  intros Hb. unfold truediv. destruct (Z.eqb_spec b 0); [contradiction | reflexivity].
Qed.

(** C9: [calculate_completion] never fails with a division by zero: on an
    empty checklist it returns 0.0, on any other it returns
    (checked / total) * 100.0; and one checked item out of two gives 50.0. *)
Theorem calculate_completion_total (self : Checklist) :
  calculate_completion self =
    Some (match items self with
          | [] => 0
          | _ => inject_Z (checked_count (items self))
                   / inject_Z (Z.of_nat (length (items self))) * 100
          end)%Q
  /\ (forall id1 d1 c1 id2 d2 c2 cid cf,
        exists q,
          calculate_completion
            {| checklist_id := cid; constitution_file := cf;
               items := [ {| item_id := id1; description := d1;
                             is_checked := true; category := c1 |};
                          {| item_id := id2; description := d2;
                             is_checked := false; category := c2 |} ] |}
          = Some q /\ (q == 50)%Q).
Proof.
  split.
  - unfold calculate_completion.
    destruct (items self) as [|i is_] eqn:E; [reflexivity|].
    rewrite truediv_nonzero; [reflexivity|].
    cbn [length]. lia.
  - intros. eexists. split; [reflexivity|]. vm_compute. reflexivity.
Qed.

End ChecklistProofs.

(** ** Orphaned principles *)

Section OrphanProofs.
Import markdown_parser constitution conflict_detector.

Lemma referenced_principles_go_linked (constitutions : list Constitution)
    (referenced : gset str) :
  Exists (fun c => upstream_links c <> []) constitutions ->
  referenced_principles_go constitutions referenced
  = Raise (AttributeError "target_section").
Proof.
  induction 1 as [c rest Hc|c rest _ IH]; cbn [referenced_principles_go].
  - by destruct (upstream_links c).
  - destruct (upstream_links c); [exact IH|reflexivity].
Qed.

Lemma referenced_principles_go_unlinked (constitutions : list Constitution)
    (referenced : gset str) :
  Forall (fun c => upstream_links c = []) constitutions ->
  referenced_principles_go constitutions referenced = Ok referenced.
Proof.
  induction 1 as [|c rest Hc _ IH]; [done|].
  cbn [referenced_principles_go]. by rewrite Hc.
Qed.

(** The principles of the strategic constitutions, in order. *)
Definition strategic_principles (constitutions : list Constitution)
    : list (str * str) :=
  flat_map
    (fun c =>
       match constitution_type c with
       | STRATEGIC => List.map (fun p => (name c, principle_id p)) (principles c)
       | FEATURE => []
       end)
    constitutions.

Lemma unreferenced_empty (constitutions : list Constitution) :
  unreferenced ∅ constitutions = strategic_principles constitutions.
Proof.
  unfold unreferenced, strategic_principles.
  induction constitutions as [|c rest IH]; [done|]. cbn [flat_map].
  rewrite IH. apply (f_equal (fun l => l ++ _)).
  destruct (constitution_type c); [|done].
  induction (principles c) as [|p l IHl]; [done|]. cbn.
  rewrite bool_decide_eq_true_2 by set_solver. by rewrite <- IHl.
Qed.

(** A strategic constitution with two principles, and a feature
    constitution with a link to the first of them. *)
Definition principle_1 : Principle :=
  {| principle_id := U "principle-1"; title := U "Trust";
     rule := U "MUST verify hosts"; source_link := None;
     test_criteria := None |}.

Definition principle_2 : Principle :=
  {| principle_id := U "principle-2"; title := U "Speed";
     rule := U "MUST book fast"; source_link := None;
     test_criteria := None |}.

Definition company : Constitution :=
  {| file_path := U ".specify/memory/company-constitution.md";
     constitution_type := STRATEGIC; name := U "company-constitution";
     version := U "1.0.0";
     principles := [principle_1; principle_2];
     upstream_links := []; downstream_links := [] |}.

Definition feature_c : Constitution :=
  {| file_path := U ".specify/features/003-c.md";
     constitution_type := FEATURE; name := U "003-c";
     version := U "1.0.0"; principles := [];
     upstream_links :=
       [{| link_text := U "Trust";
           url := U "../memory/company-constitution.md#principle-1";
           line_number := 12 |}];
     downstream_links := [] |}.

(** C5: the function does not get as far as comparing keys.  A constitution
    holds [MarkdownLink] objects, which have no [target_section]: on the
    strategic constitution with principles 1 and 2 and the feature that
    links to principle 1 the call raises [AttributeError], and so it does
    whenever a constitution of the input has an upstream link.  When no
    constitution has one, every principle of every strategic constitution is
    reported. *)
Theorem get_orphaned_principles_attribute_error :
  get_orphaned_principles [company; feature_c]
  = Raise (U "'MarkdownLink' object has no attribute 'target_section'") /\
  (forall constitutions,
      Exists (fun c => upstream_links c <> []) constitutions ->
      get_orphaned_principles constitutions
      = Raise (U "'MarkdownLink' object has no attribute 'target_section'")) /\
  (forall constitutions,
      Forall (fun c => upstream_links c = []) constitutions ->
      get_orphaned_principles constitutions
      = Ok (strategic_principles constitutions)).
Proof.
  split; [reflexivity|]. split.
  - intros constitutions H. unfold get_orphaned_principles, referenced_principles.
    by rewrite referenced_principles_go_linked.
  - intros constitutions H. unfold get_orphaned_principles, referenced_principles.
    rewrite referenced_principles_go_unlinked by done.
    by rewrite unreferenced_empty.
Qed.

End OrphanProofs.

(** ** Circular dependencies *)

Section CycleProofs.
Import markdown_parser constitution conflict_detector.

Lemma str_eqb_refl (a : str) : str_eqb a a = true.
Proof. unfold str_eqb. by apply bool_decide_eq_true_2. Qed.

Lemma str_eqb_ne (a b : str) : a <> b -> str_eqb a b = false.
Proof. intros H. unfold str_eqb. by apply bool_decide_eq_false_2. Qed.

Lemma str_eqb_eq (a b : str) : str_eqb a b = true <-> a = b.
Proof. unfold str_eqb. apply bool_decide_eq_true. Qed.

Lemma build_graph_go_linked (constitutions : list Constitution)
    (graph : dict (gset str)) :
  Exists (fun c => upstream_links c <> []) constitutions ->
  build_graph_go constitutions graph = Raise (AttributeError "target_file").
Proof.
  intros H. revert graph.
  induction H as [c rest Hc|c rest _ IH]; intros graph;
    cbn [build_graph_go]; unfold deps_of.
  - by destruct (upstream_links c).
  - destruct (upstream_links c); [apply IH|reflexivity].
Qed.

(** Two feature constitutions that link to each other's files. *)
Definition link_to (target : string) : MarkdownLink :=
  {| link_text := U "depends on"; url := U target; line_number := 7 |}.

Definition feature_constitution (file stem_ : string)
    (links : list MarkdownLink) : Constitution :=
  {| file_path := U file; constitution_type := FEATURE; name := U stem_;
     version := U "1.0.0"; principles := []; upstream_links := links;
     downstream_links := [] |}.

Definition feature_a : Constitution :=
  feature_constitution ".specify/features/001-a.md" "001-a"
    [link_to "../features/002-b.md"].

Definition feature_b : Constitution :=
  feature_constitution ".specify/features/002-b.md" "002-b"
    [link_to "../features/001-a.md"].

(** The same two constitutions with the upstream links that
    [Constitution.parse] selects from these links. *)
Definition kept_by_parse (c : Constitution) : Constitution :=
  {| file_path := file_path c; constitution_type := constitution_type c;
     name := name c; version := version c; principles := principles c;
     upstream_links := select_upstream (upstream_links c);
     downstream_links := [] |}.

(** C4: on two feature constitutions A and B whose upstream links point to
    each other's files the function reports no cycle.  A constitution holds
    [MarkdownLink] objects, which have no [target_file]: the call raises
    [AttributeError], as it does whenever a constitution of the input has an
    upstream link.  [Constitution.parse] does not keep links into the
    features directory among the upstream links; on what it keeps of A and B
    the function returns no cycle. *)
Theorem detect_circular_dependencies_attribute_error :
  (forall iter_order,
      detect_circular_dependencies iter_order [feature_a; feature_b]
      = Raise (U "'MarkdownLink' object has no attribute 'target_file'")) /\
  (forall iter_order constitutions,
      Exists (fun c => upstream_links c <> []) constitutions ->
      detect_circular_dependencies iter_order constitutions
      = Raise (U "'MarkdownLink' object has no attribute 'target_file'")) /\
  upstream_links (kept_by_parse feature_a) = [] /\
  upstream_links (kept_by_parse feature_b) = [] /\
  detect_circular_dependencies elements [kept_by_parse feature_a; kept_by_parse feature_b]
  = Ok (Some []).
Proof.
  split; [reflexivity|]. split.
  - intros iter_order constitutions H.
    unfold detect_circular_dependencies, build_graph.
    by rewrite build_graph_go_linked.
  - split; [by vm_compute|]. split; [by vm_compute|]. by vm_compute.
Qed.

End CycleProofs.

(** ** Link validation *)

Section ValidateProofs.
Import markdown_parser traceability.
Context {UD : Unicode} {MD : MarkdownIt}.

Lemma dict_mem_keys {V} (k : str) (d : dict V) :
  dict_mem k d = true <-> k ∈ dict_keys d.
Proof.
  unfold dict_mem, dict_keys. rewrite existsb_exists, list_elem_of_In, in_map_iff.
  split.
  - intros (kv & Hin & Heq). apply str_eqb_eq in Heq. eauto.
  - intros (kv & Heq & Hin). exists kv. split; [done|]. by apply str_eqb_eq.
Qed.

Lemma parse_file_exists (fs : filesystem) (p : path) :
  path_exists fs p = true ->
  parse_file fs p =
    match read_text fs p with
    | Ok text => Ok text
    | Raise e => Raise (U "Failed to read markdown file " ++ p ++ U ": " ++ e)
    end.
Proof. intros H. unfold parse_file. by rewrite H. Qed.

(** What the link's target offers when the link names a section: the text
    of the target, if it can be read. *)
Definition target_text (fs : filesystem) (l : TraceabilityLink) : option str :=
  match read_text fs (target_file l) with
  | Ok content => Some content
  | Raise _ => None
  end.

(** C1, as the code has it.  Validation returns exactly one of the four
    states, decided in a fixed order: [MISSING_SOURCE] when the source file
    does not exist; otherwise [BROKEN_FILE] when the target does not exist;
    otherwise, when a (non-empty) target section is given, [BROKEN_FILE]
    again when the target cannot be read, and [BROKEN_SECTION] when it can
    but the section is not among the heading ids parsed from it; otherwise
    [VALID]. *)
Theorem validate_precedence (fs : filesystem) (l : TraceabilityLink) :
  let st := state (validate fs l) in
  let src := path_exists fs (source_file l) in
  let tgt := path_exists fs (target_file l) in
  (st = MISSING_SOURCE <-> src = false) /\
  (st = BROKEN_FILE <->
     src = true /\
     (tgt = false \/
      (tgt = true /\ exists section,
          specified_section l = Some section /\ target_text fs l = None))) /\
  (st = BROKEN_SECTION <->
     src = true /\ tgt = true /\
     exists section content,
       specified_section l = Some section /\
       target_text fs l = Some content /\
       section ∉ dict_keys (extract_heading_ids content)) /\
  (st = VALID <->
     src = true /\ tgt = true /\
     (specified_section l = None \/
      exists section content,
        specified_section l = Some section /\
        target_text fs l = Some content /\
        section ∈ dict_keys (extract_heading_ids content))).
Proof.
  cbv zeta. unfold validate, target_text.
  destruct (path_exists fs (source_file l)) eqn:Hs; cbn [negb].
  2: { cbn. repeat split; try discriminate; intuition discriminate. }
  destruct (path_exists fs (target_file l)) eqn:Ht; cbn [negb].
  2: { cbn. repeat split; try discriminate; intuition (try discriminate; auto). }
  destruct (specified_section l) as [section|] eqn:Hsec.
  2: { cbn. repeat split; try discriminate; auto.
       - intros [_ [H|(_ & s & H & _)]]; discriminate.
       - intros (_ & _ & s & c & H & _). discriminate. }
  rewrite parse_file_exists by done.
  destruct (read_text fs (target_file l)) as [content|e] eqn:Hr.
  2: { cbn. repeat split; try discriminate; eauto 8.
       - intros (_ & _ & s & c & _ & H & _). discriminate.
       - intros (_ & _ & [H|(s & c & _ & H & _)]); discriminate. }
  destruct (dict_mem section (extract_heading_ids content)) eqn:Hm; cbn.
  - apply dict_mem_keys in Hm.
    repeat split; try discriminate; eauto 8.
    + intros [_ [H|(_ & s & _ & H)]]; discriminate.
    + intros (_ & _ & s & c & [= <-] & [= <-] & Hn). contradiction.
  - assert (Hn : section ∉ dict_keys (extract_heading_ids content)).
    { rewrite <- dict_mem_keys. by rewrite Hm. }
    repeat split; try discriminate; eauto 8.
    + intros [_ [H|(_ & s & _ & H)]]; discriminate.
    + intros (_ & _ & [H|(s & c & [= <-] & [= <-] & Hin)]);
        [discriminate | contradiction].
Qed.

End ValidateProofs.

Section ValidateExample.
Import markdown_parser traceability commonmark.

(** A link from an existing file to an existing directory, with an anchor. *)
Definition fs_directory_target : filesystem :=
  {| nodes := {[ U "features/001.md" := File (U "[m](../memory/#principle-1)");
                 U "memory" := Dir ]};
     protected := ∅ |}.

Definition link_to_directory : TraceabilityLink :=
  {| source_file := U "features/001.md"; source_line := 0;
     target_file := U "memory"; target_section := Some (U "principle-1");
     link_text := Some (U "m"); link_type := Some FEATURE_TO_STRATEGIC;
     _validation_result := None |}.

(** C1 as stated fails: with the source and the target both existing, the
    claim leaves only [BROKEN_SECTION] and [VALID]; a target that exists but
    cannot be read gives [BROKEN_FILE]. *)
Lemma validate_existing_target_broken_file :
  ~ (forall (fs : filesystem) (l : TraceabilityLink),
        path_exists fs (source_file l) = true ->
        path_exists fs (target_file l) = true ->
        state (validate fs l) = BROKEN_SECTION \/ state (validate fs l) = VALID).
Proof.
  intros H.
  destruct (H fs_directory_target link_to_directory) as [E|E];
    [vm_compute; reflexivity | vm_compute; reflexivity | |];
    vm_compute in E; discriminate.
Qed.

End ValidateExample.

(** ** The validation fan-out *)

Section FanOutProofs.
Import markdown_parser traceability link_validator.
Context {UD : Unicode} {MD : MarkdownIt}.
Variable fs : filesystem.

(** What validating a link object does to it.  Validation does not read
    the cached result, so doing it twice changes nothing more. *)
Definition settle (link : TraceabilityLink) : TraceabilityLink :=
  cache_result (validate fs link) link.

Lemma settle_idemp (link : TraceabilityLink) : settle (settle link) = settle link.
Proof. reflexivity. Qed.

Lemma validate_settle (link : TraceabilityLink) :
  validate fs (settle link) = validate fs link.
Proof. reflexivity. Qed.

Lemma validate_link_alter (l : loc) (h : heap) (link : TraceabilityLink) :
  h !! l = Some link ->
  validate_link fs l h = Some (validate fs link, alter settle l h).
Proof.
  intros Hl. unfold validate_link. rewrite Hl.
  assert (E : <[l:=cache_result (validate fs link) link]> h = alter settle l h).
  { apply map_eq. intros l'. rewrite lookup_alter, lookup_insert.
    destruct (decide (l = l')) as [<-|]; [by rewrite Hl|done]. }
  by rewrite E.
Qed.

(** The heap after the objects at [ls] have been validated, in any order
    and any number of times. *)
Definition settle_all (ls : list loc) (h : heap) : heap :=
  foldl (fun acc l => alter settle l acc) h ls.

Lemma settle_all_lookup (ls : list loc) (h : heap) (l : loc) :
  settle_all ls h !! l =
    if bool_decide (l ∈ ls) then settle <$> h !! l else h !! l.
Proof.
  revert h. induction ls as [|a ls IH]; intros h; [done|].
  cbn [settle_all foldl]. fold (settle_all ls (alter settle a h)).
  rewrite IH, lookup_alter.
  destruct (decide (a = l)) as [->|Hne].
  - rewrite (bool_decide_eq_true_2 (l ∈ l :: ls)) by set_solver.
    destruct (h !! l) as [link|]; cbn; [|by case_bool_decide].
    by case_bool_decide.
  - case_bool_decide; case_bool_decide; set_solver.
Qed.

(** A heap that differs from [h] only by cached results. *)
Definition settled_from (h h' : heap) : Prop :=
  forall l, h' !! l = h !! l \/ h' !! l = settle <$> h !! l.

Lemma settled_from_refl (h : heap) : settled_from h h.
Proof. intros l. by left. Qed.

Lemma settled_from_alter (h h' : heap) (a : loc) :
  settled_from h h' -> settled_from h (alter settle a h').
Proof.
  intros H l. rewrite lookup_alter.
  destruct (decide (a = l)) as [->|]; [|apply H].
  right. destruct (H l) as [-> | ->]; [done|].
  by destruct (h !! l).
Qed.

Lemma settled_from_validate (h h' : heap) (l : loc) (link' : TraceabilityLink) :
  settled_from h h' -> h' !! l = Some link' ->
  exists link, h !! l = Some link /\ validate fs link' = validate fs link.
Proof.
  intros H Hl. destruct (H l) as [E|E]; rewrite Hl in E.
  - eauto.
  - destruct (h !! l) as [link|]; [|discriminate].
    injection E as ->. eauto.
Qed.

Lemma settled_from_lookup (h h' : heap) (l : loc) (link : TraceabilityLink) :
  settled_from h h' -> h !! l = Some link ->
  exists link', h' !! l = Some link' /\ validate fs link' = validate fs link.
Proof.
  intros H Hl. destruct (H l) as [E|E]; rewrite Hl in E; eauto.
Qed.

(** The sequential run. *)
Lemma validate_sequentially_spec (h : heap) (links : list loc) (h' : heap) :
  settled_from h h' ->
  (forall l, l ∈ links -> is_Some (h !! l)) ->
  exists rs,
    validate_sequentially fs links h' = Some (rs, settle_all links h') /\
    length rs = length links /\
    forall i l, links !! i = Some l ->
      exists link, h !! l = Some link /\ rs !! i = Some (l, validate fs link).
Proof.
  revert h'. induction links as [|a links IH]; intros h' Hrel Hdom.
  - exists []. repeat split. intros i l Hi. rewrite lookup_nil in Hi. discriminate.
  - destruct (Hdom a) as [link Ha]; [set_solver|].
    destruct (settled_from_lookup h h' a link Hrel Ha) as (link' & Ha' & Hv).
    destruct (IH (alter settle a h')) as (rs & Hrun & Hlen & Hrs).
    { by apply settled_from_alter. }
    { intros l Hl. apply Hdom. set_solver. }
    exists ((a, validate fs link') :: rs).
    cbn [validate_sequentially]. rewrite (validate_link_alter a h' link' Ha').
    rewrite Hrun. repeat split; [cbn; lia|].
    intros [|i] l Hi; cbn in Hi.
    + injection Hi as <-. exists link. split; [done|]. cbn. by rewrite Hv.
    + apply Hrs, Hi.
Qed.

(** One task. *)
Lemma run_task_spec (h : heap) (links : list loc) (st : gather_state)
    (j : nat) (l : loc) (link : TraceabilityLink) :
  settled_from h (g_heap st) ->
  links !! j = Some l -> h !! l = Some link ->
  run_task fs links st j =
    {| g_heap := alter settle l (g_heap st);
       g_slots := <[j := Some (l, validate fs link)]> (g_slots st) |}.
Proof.
  intros Hrel Hj Hl.
  destruct (settled_from_lookup h _ l link Hrel Hl) as (link' & Hl' & Hv).
  unfold run_task. rewrite Hj, (validate_link_alter l _ link' Hl'). by rewrite Hv.
Qed.

(** The concurrent run, for any sequence of task completions. *)
Lemma run_tasks_spec (h : heap) (links : list loc) (sched : list nat)
    (st : gather_state) :
  settled_from h (g_heap st) ->
  (forall l, l ∈ links -> is_Some (h !! l)) ->
  (forall j, j ∈ sched -> j < length links) ->
  length (g_slots st) = length links ->
  let st' := foldl (run_task fs links) st sched in
  g_heap st' = settle_all (omap (fun i => links !! i) sched) (g_heap st) /\
  length (g_slots st') = length links /\
  (forall i, i ∉ sched -> g_slots st' !! i = g_slots st !! i) /\
  (forall i l link, i ∈ sched -> links !! i = Some l -> h !! l = Some link ->
     g_slots st' !! i = Some (Some (l, validate fs link))).
Proof.
  revert st. induction sched as [|j sched IH]; intros st Hrel Hdom Hlt Hlen; cbn zeta.
  - repeat split; [done|]. intros i l link Hi. set_solver.
  - cbn [foldl].
    destruct (lookup_lt_is_Some_2 links j) as [l Hj]; [apply Hlt; set_solver|].
    destruct (Hdom l) as [link Hl]; [by eapply list_elem_of_lookup_2|].
    rewrite (run_task_spec h links st j l link Hrel Hj Hl).
    match goal with |- context [foldl _ ?s sched] => destruct (IH s) as (H1 & H2 & H3 & H4) end.
    { by apply settled_from_alter. }
    { done. }
    { intros k Hk. apply Hlt. set_solver. }
    { cbn. by rewrite length_insert. }
    cbn [g_heap g_slots] in *.
    repeat split; [by cbn; rewrite Hj|done| |].
    + intros i Hi. rewrite H3 by set_solver.
      apply list_lookup_insert_ne. set_solver.
    + intros i l' link' Hi Hl' Hh'.
      destruct (decide (i ∈ sched)) as [Hin|Hnin]; [by eapply H4|].
      assert (i = j) as -> by set_solver.
      rewrite H3 by done.
      rewrite Hj in Hl'. injection Hl' as <-. rewrite Hl in Hh'. injection Hh' as <-.
      apply list_lookup_insert_eq. rewrite Hlen. by eapply lookup_lt_Some.
Qed.

(** C7: whatever order the executor completes the tasks in,
    [validate_all_links] returns what validating the links one after the
    other in list order returns: a list as long as the input whose i-th
    element pairs the i-th link with the result of validating it -- and
    leaves the same results cached in the link objects. *)
Theorem validate_all_links_sequential
    (links : list loc) (schedule : list nat) (h : heap) :
  Permutation schedule (seq 0 (length links)) ->
  (forall l, l ∈ links -> is_Some (h !! l)) ->
  exists results h',
    validate_all_links fs links schedule h = Some (results, h') /\
    validate_sequentially fs links h = Some (results, h') /\
    length results = length links /\
    forall i l, links !! i = Some l ->
      exists link, h !! l = Some link /\
                   results !! i = Some (l, validate fs link).
Proof.
  intros Hperm Hdom.
  destruct (validate_sequentially_spec h links h (settled_from_refl h) Hdom)
    as (rs & Hseq & Hlen & Hrs).
  exists rs, (settle_all links h).
  split; [|by repeat split].
  assert (Hsched : forall j, j ∈ schedule <-> j < length links).
  { intros j. rewrite Hperm, list_elem_of_In, in_seq. lia. }
  unfold validate_all_links, validate_all_links_async.
  set (st0 := {| g_heap := h; g_slots := replicate (length links) None |}).
  destruct (run_tasks_spec h links schedule st0) as (Hheap & Hslen & _ & Hslots).
  { apply settled_from_refl. }
  { done. }
  { intros j. apply Hsched. }
  { cbn. apply length_replicate. }
  set (st := foldl (run_task fs links) st0 schedule) in *.
  cbn [g_heap g_slots st0] in *.
  assert (Hs : g_slots st = Some <$> rs).
  { apply list_eq. intros i. rewrite list_lookup_fmap.
    destruct (decide (i < length links)) as [Hlt|Hge].
    - destruct (lookup_lt_is_Some_2 links i Hlt) as [l Hl].
      destruct (Hrs i l Hl) as (link & Hh & Hr). rewrite Hr. cbn.
      apply (Hslots i l link); [by apply Hsched|done|done].
    - rewrite (lookup_ge_None_2 rs) by lia.
      apply lookup_ge_None_2. lia. }
  assert (Hm : mapM id (g_slots st) = Some rs).
  { rewrite Hs. apply mapM_Some. apply Forall2_fmap_l, Forall_Forall2_diag.
    by apply Forall_forall. }
  rewrite Hm. do 2 f_equal.
  rewrite Hheap. apply map_eq. intros l. rewrite !settle_all_lookup.
  assert (Hiff : l ∈ omap (fun i => links !! i) schedule <-> l ∈ links).
  { rewrite list_elem_of_omap. split.
    - intros (i & _ & Hi). by eapply list_elem_of_lookup_2.
    - intros Hin. apply list_elem_of_lookup_1 in Hin as [i Hi].
      exists i. split; [|done]. apply Hsched. by eapply lookup_lt_Some. }
  case_bool_decide; case_bool_decide; tauto.
Qed.

End FanOutProofs.

Section FanOutExample.
Import markdown_parser traceability link_validator commonmark.

Definition fanout_fs : filesystem :=
  {| nodes := {[ U "a.md" := File (U "# Intro");
                 U "b.md" := File (U "[a](a.md#intro) [c](c.md)") ]};
     protected := ∅ |}.

Definition fanout_link (target : string) (section : option string)
    : TraceabilityLink :=
  {| source_file := U "b.md"; source_line := 0; target_file := U target;
     target_section := U <$> section; link_text := None; link_type := None;
     _validation_result := None |}.

Definition fanout_heap : gmap nat TraceabilityLink :=
  {[ 0 := fanout_link "a.md" (Some "intro"); 1 := fanout_link "c.md" None ]}.

(** Three tasks over two link objects (the first is listed twice),
    completing in the order third, first, second. *)
Lemma validate_all_links_sequential_witness :
  exists results h',
    validate_all_links fanout_fs [0; 1; 0] [2; 0; 1] fanout_heap
      = Some (results, h') /\
    validate_sequentially fanout_fs [0; 1; 0] fanout_heap = Some (results, h') /\
    length results = 3 /\
    forall i l, [0; 1; 0] !! i = Some l ->
      exists link, fanout_heap !! l = Some link /\
                   results !! i = Some (l, validate fanout_fs link).
Proof.
  apply (validate_all_links_sequential fanout_fs [0; 1; 0] [2; 0; 1] fanout_heap).
  - cbn. apply (Permutation_cons_app [0; 1] [] 2). reflexivity.
  - intros l Hl. apply list_elem_of_In in Hl. cbn in Hl.
    destruct Hl as [<-|[<-|[<-|[]]]]; vm_compute; eexists; reflexivity.
Defined.

End FanOutExample.

(** ** Rollback *)

Section RollbackProofs.
Import installer.

Lemma elem_of_rev {A} (x : A) (l : list A) : x ∈ rev l <-> x ∈ l.
Proof. by rewrite !list_elem_of_In, <- in_rev. Qed.

(** A step of [rollback] either leaves the filesystem alone or removes the
    path it was given. *)
Definition step_ok (step : filesystem -> path -> filesystem * event) : Prop :=
  forall fs p,
    event_path (snd (step fs p)) = p /\
    (fst (step fs p) = fs \/ fst (step fs p) = remove_node fs p).

Lemma rollback_file_ok : step_ok rollback_file.
Proof.
  intros fs p. unfold rollback_file, unlink.
  destruct (path_exists fs p); [|by split; [|left]].
  destruct (nodes fs !! p) as [[]|]; cbn; try (by split; [|left]);
    case_bool_decide; cbn; split; auto.
Qed.

Lemma rollback_dir_ok : step_ok rollback_dir.
Proof.
  intros fs p. unfold rollback_dir, rmdir.
  destruct (path_exists fs p); [|by split; [|left]].
  destruct (nodes fs !! p) as [[]|]; cbn; try (by split; [|left]).
  destruct (has_entries fs p); cbn; [by split; [|left]|].
  case_bool_decide; cbn; split; auto.
Qed.

Lemma run_steps_paths step fs paths :
  step_ok step ->
  List.map (fun x => event_path (snd x)) (snd (run_steps step fs paths)) = paths.
Proof.
  intros Hok. revert fs. induction paths as [|p paths IH]; intros fs; [done|].
  cbn [run_steps]. destruct (step fs p) as [fs' e] eqn:E.
  specialize (IH fs'). destruct (run_steps step fs' paths) as [fs'' log].
  cbn in *. f_equal; [|done].
  destruct (Hok fs p) as [H _]. by rewrite E in H.
Qed.

(** Every entry of the log records a step taken from the filesystem it
    names. *)
Lemma run_steps_entry step fs paths fs_i e :
  (fs_i, e) ∈ snd (run_steps step fs paths) ->
  exists p, p ∈ paths /\ e = snd (step fs_i p).
Proof.
  revert fs. induction paths as [|p paths IH]; intros fs; cbn [run_steps].
  - set_solver.
  - destruct (step fs p) as [fs' e'] eqn:E.
    specialize (IH fs'). destruct (run_steps step fs' paths) as [fs'' log].
    cbn in *. intros [[= -> ->]|Hin]%elem_of_cons.
    + exists p. split; [set_solver|]. by rewrite E.
    + destruct (IH Hin) as (q & Hq & ->). exists q. split; [set_solver|done].
Qed.

Lemma run_steps_untouched step fs paths q :
  step_ok step -> q ∉ paths ->
  nodes (fst (run_steps step fs paths)) !! q = nodes fs !! q.
Proof.
  intros Hok. revert fs. induction paths as [|p paths IH]; intros fs Hq; [done|].
  cbn [run_steps]. destruct (step fs p) as [fs' e] eqn:E.
  specialize (IH fs'). destruct (run_steps step fs' paths) as [fs'' log].
  cbn in *. rewrite IH by set_solver.
  destruct (Hok fs p) as [_ [H|H]]; rewrite E in H; cbn in H; subst fs'; [done|].
  cbn. apply lookup_delete_ne. set_solver.
Qed.

Lemma rollback_dir_deleted fs p q :
  snd (rollback_dir fs p) = DeletedDir q ->
  q = p /\ nodes fs !! p = Some Dir /\ has_entries fs p = false.
Proof.
  unfold rollback_dir, rmdir.
  destruct (path_exists fs p); [|discriminate].
  destruct (nodes fs !! p) as [[]|]; try discriminate.
  destruct (has_entries fs p); cbn; [discriminate|].
  case_bool_decide; cbn; [discriminate|]. by intros [= ->].
Qed.

Lemma rollback_file_not_dir fs p q :
  snd (rollback_file fs p) <> DeletedDir q.
Proof.
  unfold rollback_file, unlink.
  destruct (path_exists fs p); [|discriminate].
  destruct (nodes fs !! p) as [[]|]; cbn; try discriminate;
    case_bool_decide; discriminate.
Qed.

Lemma rollback_unfold fs t :
  rollback fs t =
    let r1 := run_steps rollback_file fs (rev (created_files t)) in
    let r2 := run_steps rollback_dir (fst r1) (rev (created_dirs t)) in
    (fst r2, snd r1 ++ snd r2).
Proof.
  unfold rollback.
  destruct (run_steps rollback_file fs (rev (created_files t))) as [fs1 log1].
  cbn. by destruct (run_steps rollback_dir fs1 (rev (created_dirs t))).
Qed.

Lemma track_file_existing fs t p :
  path_exists fs p = true -> track_file fs t p = t.
Proof. intros H. unfold track_file. by rewrite H. Qed.

Lemma track_dir_existing fs t p :
  path_exists fs p = true -> track_dir fs t p = t.
Proof. intros H. unfold track_dir. by rewrite H. Qed.

(** The filesystem an operation of an installation leaves. *)
Definition fs_after (fs : filesystem) (op : install_op) : filesystem :=
  match op with
  | Change f => f fs
  | _ => fs
  end.

(** [p] existed every time the installation offered it for tracking. *)
Fixpoint existed_when_offered (p : path) (fs : filesystem)
    (ops : list install_op) : Prop :=
  match ops with
  | [] => True
  | op :: rest =>
      match op with
      | TrackFile q | TrackDir q => q = p -> path_exists fs p = true
      | Change _ => True
      end /\ existed_when_offered p (fs_after fs op) rest
  end.

Definition tracked (t : InstallationRollback) : list path :=
  created_files t ++ created_dirs t.

Lemma install_not_tracked (p : path) (ops : list install_op)
    (fs : filesystem) (t : InstallationRollback) :
  existed_when_offered p fs ops -> p ∉ tracked t ->
  p ∉ tracked (snd (foldl install_step (fs, t) ops)).
Proof.
  revert fs t. induction ops as [|op ops IH]; intros fs t Hex Hp; [done|].
  cbn [foldl]. destruct Hex as [Hop Hrest].
  destruct op as [q|q|f]; cbn [install_step fs_after] in *.
  - apply IH; [done|]. unfold track_file.
    destruct (path_exists fs q) eqn:E; cbn; [done|].
    unfold tracked in *. cbn. intros Hin.
    assert (q = p) as -> by set_solver.
    rewrite Hop in E by done. discriminate.
  - apply IH; [done|]. unfold track_dir.
    destruct (path_exists fs q) eqn:E; cbn; [done|].
    unfold tracked in *. cbn. intros Hin.
    assert (q = p) as -> by set_solver.
    rewrite Hop in E by done. discriminate.
  - by apply IH.
Qed.

(** Steps only remove: a path is afterwards as it was, or gone. *)
Lemma step_ok_shrinks step (fs : filesystem) (p q : path) :
  step_ok step ->
  protected (fst (step fs p)) = protected fs /\
  (nodes (fst (step fs p)) !! q = nodes fs !! q \/
   nodes (fst (step fs p)) !! q = None).
Proof.
  intros Hok. destruct (Hok fs p) as [_ [-> | ->]]; [by auto|].
  cbn. split; [done|]. destruct (decide (q = p)) as [->|Hne].
  - right. apply lookup_delete_eq.
  - left. by apply lookup_delete_ne.
Qed.

Lemma step_ok_other step (fs : filesystem) (p q : path) :
  step_ok step -> q <> p -> nodes (fst (step fs p)) !! q = nodes fs !! q.
Proof.
  intros Hok Hne. destruct (Hok fs p) as [_ [-> | ->]]; [done|].
  cbn. by apply lookup_delete_ne.
Qed.

Lemma run_steps_cons step (fs : filesystem) (p : path) (rest : list path) :
  run_steps step fs (p :: rest)
  = (fst (run_steps step (fst (step fs p)) rest),
     (fs, snd (step fs p)) :: snd (run_steps step (fst (step fs p)) rest)).
Proof.
  cbn [run_steps]. destruct (step fs p) as [fs' e]. cbn [fst snd].
  by destruct (run_steps step fs' rest).
Qed.

Lemma run_steps_shrinks step (fs : filesystem) (paths : list path) (q : path) :
  step_ok step ->
  protected (fst (run_steps step fs paths)) = protected fs /\
  (nodes (fst (run_steps step fs paths)) !! q = nodes fs !! q \/
   nodes (fst (run_steps step fs paths)) !! q = None).
Proof.
  intros Hok. revert fs. induction paths as [|p paths IH]; intros fs.
  { cbn. auto. }
  rewrite run_steps_cons. cbn [fst].
  destruct (IH (fst (step fs p))) as [Hp Hn].
  destruct (step_ok_shrinks step fs p q Hok) as [Hp' Hn'].
  split; [congruence|].
  destruct Hn as [Hn|Hn]; [|by right].
  rewrite Hn. exact Hn'.
Qed.

Lemma run_steps_stays_gone step (fs : filesystem) (paths : list path) (q : path) :
  step_ok step -> nodes fs !! q = None ->
  nodes (fst (run_steps step fs paths)) !! q = None.
Proof.
  intros Hok Hq. destruct (run_steps_shrinks step fs paths q Hok) as [_ [H|H]];
    congruence.
Qed.

(** What a step removes is gone at the end of the loop. *)
Lemma run_steps_deleted step (fs : filesystem) (paths : list path)
    (fs_i : filesystem) (e : event) :
  step_ok step ->
  (fs_i, e) ∈ snd (run_steps step fs paths) ->
  nodes (fst (step fs_i (event_path e))) !! event_path e = None ->
  nodes (fst (run_steps step fs paths)) !! event_path e = None.
Proof.
  intros Hok. revert fs. induction paths as [|p paths IH]; intros fs.
  { cbn. by intros ?%elem_of_nil. }
  rewrite run_steps_cons. cbn [fst snd].
  intros [[= -> ->]|Hin]%elem_of_cons Hgone; [|by apply IH].
  destruct (Hok fs p) as [Hp _]. rewrite Hp in Hgone |- *.
  by apply run_steps_stays_gone.
Qed.

(** A regular file that the system lets go. *)
Definition deletable_file (fs : filesystem) (p : path) : Prop :=
  (exists n, nodes fs !! p = Some n /\ n <> Dir) /\ (p ∉ protected fs).

Lemma rollback_file_deletes (fs : filesystem) (p : path) :
  deletable_file fs p ->
  rollback_file fs p = (remove_node fs p, DeletedFile p).
Proof.
  intros [(n & Hn & Hd) Hp]. unfold rollback_file, path_exists, unlink.
  rewrite bool_decide_eq_true_2 by (by rewrite Hn). rewrite Hn.
  destruct n; [done| |]; by rewrite bool_decide_eq_false_2.
Qed.

Lemma rollback_dir_deletes (fs : filesystem) (p : path) :
  nodes fs !! p = Some Dir -> has_entries fs p = false -> (p ∉ protected fs) ->
  rollback_dir fs p = (remove_node fs p, DeletedDir p).
Proof.
  intros Hn He Hp. unfold rollback_dir, path_exists, rmdir.
  rewrite bool_decide_eq_true_2 by (by rewrite Hn). rewrite Hn, He. cbn [negb].
  by rewrite bool_decide_eq_false_2.
Qed.

Lemma files_deleted (paths : list path) (fs : filesystem) (p : path) :
  p ∈ paths -> deletable_file fs p ->
  nodes (fst (run_steps rollback_file fs paths)) !! p = None /\
  exists fs_i, (fs_i, DeletedFile p) ∈ snd (run_steps rollback_file fs paths).
Proof.
  revert fs. induction paths as [|q paths IH]; intros fs Hin Hdel.
  { by apply elem_of_nil in Hin. }
  rewrite run_steps_cons. cbn [fst snd].
  destruct (decide (q = p)) as [->|Hne].
  - rewrite (rollback_file_deletes fs p Hdel). cbn [fst snd]. split.
    + apply run_steps_stays_gone; [apply rollback_file_ok|].
      cbn. apply lookup_delete_eq.
    + exists fs. apply list_elem_of_here.
  - apply elem_of_cons in Hin as [->|Hin]; [done|].
    destruct (IH (fst (rollback_file fs q)) Hin) as [Hgone [fs_i Hlog]].
    + destruct Hdel as [(n & Hn & Hd) Hp]. split.
      * exists n. split; [|done].
        rewrite step_ok_other; [done|apply rollback_file_ok|congruence].
      * by destruct (step_ok_shrinks rollback_file fs q p rollback_file_ok)
          as [-> _].
    + split; [done|]. exists fs_i. by apply list_elem_of_further.
Qed.

Lemma no_entries (fs : filesystem) (d : path) :
  (forall q, q <> d -> parent q = d -> nodes fs !! q = None) ->
  has_entries fs d = false.
Proof.
  intros H. unfold has_entries. apply bool_decide_eq_false_2.
  intros (q & n & Hq & Hne & Hpar)%map_Exists_lookup.
  rewrite (H q Hne Hpar) in Hq. discriminate.
Qed.

Lemma dirs_deleted (paths : list path) (fs : filesystem) (d : path) :
  d ∈ paths ->
  (nodes fs !! d = Some Dir \/ nodes fs !! d = None) ->
  (d ∉ protected fs) ->
  (forall q, q <> d -> parent q = d -> nodes fs !! q = None) ->
  nodes (fst (run_steps rollback_dir fs paths)) !! d = None.
Proof.
  revert fs. induction paths as [|q paths IH]; intros fs Hin Hd Hp Hempty.
  { by apply elem_of_nil in Hin. }
  destruct Hd as [Hd|Hd];
    [|by apply run_steps_stays_gone; [apply rollback_dir_ok|]].
  rewrite run_steps_cons. cbn [fst].
  destruct (decide (q = d)) as [->|Hne].
  - rewrite (rollback_dir_deletes fs d Hd (no_entries fs d Hempty) Hp).
    cbn [fst]. apply run_steps_stays_gone; [apply rollback_dir_ok|].
    cbn. apply lookup_delete_eq.
  - apply elem_of_cons in Hin as [->|Hin]; [done|].
    apply IH; [done| | |].
    + left. rewrite step_ok_other; [done|apply rollback_dir_ok|congruence].
    + by destruct (step_ok_shrinks rollback_dir fs q d rollback_dir_ok)
        as [-> _].
    + intros q' Hq' Hpar.
      destruct (step_ok_shrinks rollback_dir fs q q' rollback_dir_ok)
        as [_ [H|H]]; [|done].
      rewrite H. by apply Hempty.
Qed.

(** A directory with an entry that no step is given stays. *)
Lemma run_steps_keeps_dir step (paths : list path) (fs : filesystem)
    (d q : path) :
  step_ok step ->
  (forall fs, nodes fs !! d = Some Dir -> is_Some (nodes fs !! q) ->
              nodes (fst (step fs d)) !! d = Some Dir) ->
  (q ∉ paths) ->
  nodes fs !! d = Some Dir -> is_Some (nodes fs !! q) ->
  nodes (fst (run_steps step fs paths)) !! d = Some Dir /\
  is_Some (nodes (fst (run_steps step fs paths)) !! q).
Proof.
  intros Hok Hstep. revert fs.
  induction paths as [|p paths IH]; intros fs Hq Hd Hsome; [done|].
  apply not_elem_of_cons in Hq as [Hne Hq].
  rewrite run_steps_cons. cbn [fst]. apply IH; [done| |].
  - destruct (decide (p = d)) as [->|Hpd]; [by apply Hstep|].
    rewrite step_ok_other; [done|done|congruence].
  - rewrite step_ok_other; [done|done|congruence].
Qed.

Lemma rollback_file_keeps_dir (fs : filesystem) (d : path) :
  nodes fs !! d = Some Dir -> nodes (fst (rollback_file fs d)) !! d = Some Dir.
Proof.
  intros Hd. unfold rollback_file, path_exists, unlink.
  rewrite bool_decide_eq_true_2 by (by rewrite Hd). by rewrite Hd.
Qed.

Lemma rollback_dir_keeps_dir (fs : filesystem) (d q : path) :
  q <> d -> parent q = d ->
  nodes fs !! d = Some Dir -> is_Some (nodes fs !! q) ->
  nodes (fst (rollback_dir fs d)) !! d = Some Dir.
Proof.
  intros Hne Hpar Hd [n Hq]. unfold rollback_dir, path_exists.
  rewrite bool_decide_eq_true_2 by (by rewrite Hd). rewrite Hd.
  assert (He : has_entries fs d = true).
  { unfold has_entries. apply bool_decide_eq_true_2.
    apply map_Exists_lookup. by exists q, n. }
  by rewrite He.
Qed.

(** C8.  [rollback] goes through the tracked files in reverse order of
    creation and then through the tracked directories in reverse order of
    creation.  It deletes every tracked file (a regular file that the system
    lets go), every tracked directory that is empty when its turn comes, and
    so every tracked directory that holds nothing but tracked files.  It
    deletes a directory only if that directory is empty when its turn comes;
    a directory that holds a path the installation did not track when the
    rollback starts is still there afterwards; and it removes nothing but
    tracked paths.  Offering a path that exists
    does not track it; so a path that existed every time an installation
    offered it is still there, unchanged, after the rollback. *)
Theorem rollback_spec (fs : filesystem) (t : InstallationRollback) :
  (* files first, then directories, each in reverse order of creation *)
  (exists log1 log2,
      snd (rollback fs t) = log1 ++ log2 /\
      List.map (fun x => event_path (snd x)) log1 = rev (created_files t) /\
      List.map (fun x => event_path (snd x)) log2 = rev (created_dirs t) /\
      (forall x p, x ∈ log1 -> snd x <> DeletedDir p) /\
      (* a tracked directory that is empty when its turn comes is deleted *)
      (forall fs_i e,
          (fs_i, e) ∈ log2 ->
          nodes fs_i !! event_path e = Some Dir ->
          has_entries fs_i (event_path e) = false ->
          (event_path e ∉ protected fs_i) ->
          e = DeletedDir (event_path e) /\
          nodes (fst (rollback fs t)) !! event_path e = None)) /\
  (* every tracked file is deleted *)
  (forall p, p ∈ created_files t -> deletable_file fs p ->
      nodes (fst (rollback fs t)) !! p = None /\
      exists fs_i, (fs_i, DeletedFile p) ∈ snd (rollback fs t)) /\
  (* and so is a tracked directory that holds nothing but tracked files *)
  (forall d, d ∈ created_dirs t ->
      nodes fs !! d = Some Dir -> (d ∉ protected fs) ->
      (forall q, q <> d -> parent q = d -> is_Some (nodes fs !! q) ->
                 q ∈ created_files t /\ deletable_file fs q) ->
      nodes (fst (rollback fs t)) !! d = None) /\
  (* a directory is deleted only when it is empty at that moment *)
  (forall fs_i p,
      (fs_i, DeletedDir p) ∈ snd (rollback fs t) ->
      nodes fs_i !! p = Some Dir /\ has_entries fs_i p = false) /\
  (* a directory that holds an untracked path at the start is kept *)
  (forall d q,
      nodes fs !! d = Some Dir -> q <> d -> parent q = d ->
      is_Some (nodes fs !! q) -> q ∉ tracked t ->
      nodes (fst (rollback fs t)) !! d = Some Dir) /\
  (* nothing but tracked paths is touched *)
  (forall p, p ∉ tracked t ->
      nodes (fst (rollback fs t)) !! p = nodes fs !! p) /\
  (* a path that exists is not tracked *)
  (forall p, path_exists fs p = true ->
      track_file fs t p = t /\ track_dir fs t p = t) /\
  (* hence a path that existed whenever it was offered survives *)
  (forall fs0 ops p,
      existed_when_offered p fs0 ops ->
      let st := install fs0 ops in
      (p ∉ tracked (snd st)) /\
      nodes (fst (rollback (fst st) (snd st))) !! p = nodes (fst st) !! p).
Proof.
  assert (Huntouched : forall fs t p, p ∉ tracked t ->
             nodes (fst (rollback fs t)) !! p = nodes fs !! p).
  { clear. intros fs t p Hp. rewrite rollback_unfold. cbn.
    unfold tracked in Hp. apply not_elem_of_app in Hp as [Hf Hd].
    rewrite run_steps_untouched; [|apply rollback_dir_ok|by rewrite elem_of_rev].
    rewrite run_steps_untouched; [done|apply rollback_file_ok|by rewrite elem_of_rev]. }
  rewrite rollback_unfold. cbn zeta. cbn [fst snd].
  set (r1 := run_steps rollback_file fs (rev (created_files t))).
  set (r2 := run_steps rollback_dir (fst r1) (rev (created_dirs t))).
  assert (Hfiles : forall p, p ∈ created_files t -> deletable_file fs p ->
             nodes (fst r1) !! p = None /\
             exists fs_i, (fs_i, DeletedFile p) ∈ snd r1).
  { intros p Hp Hdel. apply files_deleted; [by rewrite elem_of_rev|done]. }
  split; [|split; [|split; [|split; [|split; [|split; [|split]]]]]].
  - exists (snd r1), (snd r2). split; [reflexivity|].
    split; [apply run_steps_paths, rollback_file_ok|].
    split; [apply run_steps_paths, rollback_dir_ok|]. split.
    + intros [fs_i e] p Hin. cbn.
      apply run_steps_entry in Hin as (q & _ & ->).
      apply rollback_file_not_dir.
    + intros fs_i e Hin Hd He Hp.
      pose proof Hin as Hin'.
      apply run_steps_entry in Hin' as (q & _ & Hq).
      assert (Hpath : event_path e = q).
      { rewrite Hq. apply rollback_dir_ok. }
      rewrite Hpath in Hd, He, Hp |- *.
      pose proof (rollback_dir_deletes fs_i q Hd He Hp) as Hstep.
      split; [by rewrite Hq, Hstep|].
      rewrite <- Hpath.
      apply (run_steps_deleted rollback_dir _ _ fs_i e);
        [apply rollback_dir_ok|done|].
      rewrite Hpath, Hstep. cbn. apply lookup_delete_eq.
  - intros p Hp Hdel. destruct (Hfiles p Hp Hdel) as [Hgone [fs_i Hlog]]. split.
    + by apply run_steps_stays_gone; [apply rollback_dir_ok|].
    + exists fs_i. apply elem_of_app. by left.
  - intros d Hd Hdir Hprot Hinside.
    destruct (run_steps_shrinks rollback_file fs (rev (created_files t)) d
                rollback_file_ok) as [Hp1 Hd1].
    apply dirs_deleted; [by rewrite elem_of_rev| | |].
    + fold r1 in Hd1. destruct Hd1 as [Hd1|Hd1]; [left; congruence|by right].
    + fold r1 in Hp1. by rewrite Hp1.
    + intros q Hq Hpar.
      destruct (nodes fs !! q) as [n|] eqn:E.
      * destruct (Hinside q Hq Hpar) as [Hqf Hqd]; [by rewrite E|].
        by destruct (Hfiles q Hqf Hqd).
      * by apply run_steps_stays_gone; [apply rollback_file_ok|].
  - intros fs_i p Hin.
    apply elem_of_app in Hin as [Hin|Hin];
      apply run_steps_entry in Hin as (q & _ & Hq); symmetry in Hq.
    + by apply rollback_file_not_dir in Hq.
    + apply rollback_dir_deleted in Hq as (-> & Hd & He). done.
  - intros d q Hd Hne Hpar Hq Hnot.
    unfold tracked in Hnot. apply not_elem_of_app in Hnot as [Hqf Hqd].
    destruct (run_steps_keeps_dir rollback_file (rev (created_files t)) fs d q)
      as [Hd1 Hq1]; try done.
    { apply rollback_file_ok. }
    { intros fs' Hd' _. by apply rollback_file_keeps_dir. }
    { by rewrite elem_of_rev. }
    destruct (run_steps_keeps_dir rollback_dir (rev (created_dirs t)) (fst r1) d q)
      as [Hd2 _]; try done.
    { apply rollback_dir_ok. }
    { intros fs' Hd' Hq'. by apply (rollback_dir_keeps_dir fs' d q). }
    { by rewrite elem_of_rev. }
  - intros p Hp. specialize (Huntouched fs t p Hp).
    by rewrite rollback_unfold in Huntouched.
  - intros p Hp. split; [by apply track_file_existing|by apply track_dir_existing].
  - intros fs0 ops p Hex. cbn zeta. split.
    + apply install_not_tracked; [done|]. unfold tracked. cbn. set_solver.
    + apply Huntouched. apply install_not_tracked; [done|].
      unfold tracked. cbn. set_solver.
Qed.

End RollbackProofs.

(** ** The matcher on one-character patterns and their repetitions *)

Section EngineProofs.
Context {UD : Unicode}.
Variable fl : flags.

(** [r] matches exactly one character, one that satisfies [P]. *)
Definition char_regex (r : regex) (P : char -> bool) : Prop :=
  forall st k, rmatch fl r st k = step_char P st k.

Lemma char_regex_set negated items :
  char_regex (RSet negated items) (set_match fl negated items).
Proof. intros st k. reflexivity. Qed.

Lemma char_regex_lit c : char_regex (RLit c) (lit_match fl c).
Proof. intros st k. reflexivity. Qed.

Lemma length_cons_neqb {A} (x : A) (l : list A) :
  (length l =? length (x :: l))%nat = false.
Proof. apply Nat.eqb_neq. cbn. lia. Qed.

Lemma match_at_char r P bef aft adv :
  char_regex r P ->
  match_at fl r bef aft adv =
    match aft with
    | x :: rest =>
        if P x then Some {| before := x :: bef; after := rest; groups := [] |}
        else None
    | [] => None
    end.
Proof.
  intros Hr. unfold match_at. rewrite Hr. unfold step_char. cbn.
  destruct aft as [|x rest]; [done|]. destruct (P x); [|done].
  cbn [after]. by rewrite length_cons_neqb, andb_false_r.
Qed.

(** The substitution of a one-character pattern rewrites every character
    on its own. *)
Lemma scan_char r P repl bef aft pos :
  char_regex r P ->
  flat_map (sub_token repl) (scan_go fl r bef aft 0 pos) =
  flat_map (fun c => if P c then repl else [c]) aft.
Proof.
  intros Hr. revert bef pos. induction aft as [|x rest IH]; intros bef pos.
  - cbn [scan_go]. by rewrite (match_at_char r P) by done.
  - cbn [scan_go]. rewrite (match_at_char r P) by done.
    destruct (P x) eqn:Px.
    + cbn [mk_match m_end after length].
      replace (pos + (S (length rest) - length rest) - pos) with 1 by lia.
      cbn [flat_map sub_token app]. rewrite Px. by rewrite IH.
    + cbn [flat_map sub_token app]. rewrite Px. cbn. by rewrite IH.
Qed.

Lemma re_sub_char r P repl s :
  char_regex r P ->
  re_sub fl r repl s = flat_map (fun c => if P c then repl else [c]) s.
Proof. intros Hr. unfold re_sub, scan. by apply scan_char. Qed.

Lemma flat_map_delete (P : char -> bool) (s : str) :
  flat_map (fun c => if P c then [] else [c]) s
  = List.filter (fun c => negb (P c)) s.
Proof.
  induction s as [|c s IH]; [done|]. cbn. destruct (P c); cbn; by rewrite IH.
Qed.

(** The longest prefix of characters satisfying [P]. *)
Fixpoint run_of (P : char -> bool) (s : str) : str :=
  match s with
  | [] => []
  | c :: s' => if P c then c :: run_of P s' else []
  end.

Lemma run_of_lstrip P s : run_of P s ++ lstrip_by P s = s.
Proof. induction s as [|c s IH]; [done|]. cbn. destruct (P c); [cbn; by rewrite IH|done]. Qed.

Lemma run_of_forall P s : forallb P (run_of P s) = true.
Proof. induction s as [|c s IH]; [done|]. cbn. destruct (P c) eqn:E; [cbn; by rewrite E|done]. Qed.

Lemma lstrip_by_head P s :
  match lstrip_by P s with [] => True | c :: _ => P c = false end.
Proof. induction s as [|c s IH]; [done|]. cbn. by destruct (P c) eqn:E. Qed.

Lemma length_run_of P s : length (run_of P s) + length (lstrip_by P s) = length s.
Proof. rewrite <- length_app. by rewrite run_of_lstrip. Qed.

(** A greedy loop over a one-character pattern runs to the end of the run
    when what follows succeeds there. *)
Lemma star_loop_run r P k m :
  char_regex r P ->
  forall run rest bef g n,
    forallb P run = true ->
    match rest with [] => True | c :: _ => P c = false end ->
    length (run ++ rest) <= n ->
    k {| before := rev run ++ bef; after := rest; groups := g |} = Some m ->
    star_loop (rmatch fl r) k n
      {| before := bef; after := run ++ rest; groups := g |} = Some m.
Proof.
  intros Hr run. induction run as [|c run IH]; intros rest bef g n Hrun Hrest Hn Hk.
  - cbn in *. destruct n as [|n]; [done|]. cbn [star_loop].
    rewrite Hr. unfold step_char. cbn [after].
    destruct rest as [|c rest]; [done|]. by rewrite Hrest.
  - cbn in Hrun. apply andb_true_iff in Hrun as [Pc Hrun].
    destruct n as [|n]; [cbn in Hn; lia|]. cbn [star_loop].
    rewrite Hr. unfold step_char. cbn [after before groups app].
    rewrite Pc. cbn [after].
    replace (length (run ++ rest) <? length (c :: run ++ rest)) with true
      by (symmetry; apply Nat.ltb_lt; cbn; lia).
    rewrite (IH rest (c :: bef) g n); [done|done|done|cbn in Hn; lia|].
    cbn [rev] in Hk. by rewrite <- app_assoc in Hk.
Qed.

Lemma match_at_plus r P bef aft adv :
  char_regex r P ->
  match_at fl (RPlus r) bef aft adv =
    match aft with
    | x :: rest =>
        if P x
        then Some {| before := rev (run_of P rest) ++ x :: bef;
                     after := lstrip_by P rest; groups := [] |}
        else None
    | [] => None
    end.
Proof.
  intros Hr. unfold match_at, RPlus. cbn [rmatch]. rewrite Hr.
  unfold step_char. cbn [after before groups].
  destruct aft as [|x rest]; [done|]. destruct (P x); [|done].
  cbn [after].
  rewrite <- (run_of_lstrip P rest) at 1 2.
  apply (star_loop_run r P); [done|apply run_of_forall|apply lstrip_by_head| |].
  - by rewrite run_of_lstrip.
  - cbn [after].
    replace (length (lstrip_by P rest) =? length (x :: rest)) with false;
      [by rewrite andb_false_r|].
    symmetry. apply Nat.eqb_neq. pose proof (length_run_of P rest). cbn. lia.
Qed.

(** Passing the characters of a match. *)
Lemma scan_go_skip r bef aft k pos :
  k <= length aft ->
  scan_go fl r bef aft k pos =
  scan_go fl r (rev (take k aft) ++ bef) (drop k aft) 0 (pos + k).
Proof.
  revert bef aft pos. induction k as [|k IH]; intros bef aft pos Hk.
  - cbn. by rewrite Nat.add_0_r.
  - destruct aft as [|c aft]; [cbn in Hk; lia|].
    cbn [scan_go take drop rev]. rewrite IH by (cbn in Hk; lia).
    rewrite <- app_assoc. cbn. f_equal. lia.
Qed.

(** Replacing runs: every maximal run of characters satisfying [P] becomes
    one [repl]. *)
Fixpoint collapse_go (P : char -> bool) (repl : str) (inrun : bool) (s : str)
    : str :=
  match s with
  | [] => []
  | c :: s' =>
      if P c then (if inrun then [] else repl) ++ collapse_go P repl true s'
      else c :: collapse_go P repl false s'
  end.

Lemma collapse_go_true P repl s :
  collapse_go P repl true s = collapse_go P repl false (lstrip_by P s).
Proof.
  induction s as [|c s IH]; [done|]. cbn.
  destruct (P c) eqn:E; [done|]. cbn. by rewrite E.
Qed.

Lemma drop_run_of P s : drop (length (run_of P s)) s = lstrip_by P s.
Proof.
  rewrite <- (run_of_lstrip P s) at 2. by rewrite drop_app_length.
Qed.

Lemma scan_plus r P repl :
  char_regex r P ->
  forall n aft bef pos,
    length aft <= n ->
    flat_map (sub_token repl) (scan_go fl (RPlus r) bef aft 0 pos) =
    collapse_go P repl false aft.
Proof.
  intros Hr n. induction n as [|n IH]; intros aft bef pos Hn.
  - destruct aft; [|cbn in Hn; lia]. cbn [scan_go].
    by rewrite (match_at_plus r P) by done.
  - destruct aft as [|x rest].
    { cbn [scan_go]. by rewrite (match_at_plus r P) by done. }
    cbn [scan_go]. rewrite (match_at_plus r P) by done.
    cbn [collapse_go]. destruct (P x) eqn:Px.
    + cbn [mk_match m_end after].
      pose proof (length_run_of P rest) as Hlen.
      replace (pos + (length (x :: rest) - length (lstrip_by P rest)) - pos)
        with (S (length (run_of P rest))) by (cbn; lia).
      cbn [flat_map sub_token app].
      rewrite scan_go_skip by lia. rewrite drop_run_of.
      rewrite IH.
      * by rewrite collapse_go_true.
      * cbn in Hn. lia.
    + cbn [flat_map sub_token app].
      rewrite IH; [done|cbn in Hn; lia].
Qed.

Lemma re_sub_plus r P repl s :
  char_regex r P ->
  re_sub fl (RPlus r) repl s = collapse_go P repl false s.
Proof. intros Hr. unfold re_sub, scan. by apply (scan_plus r P repl Hr (length s)). Qed.

End EngineProofs.

(** ** Idempotence of the slugifier and of the kebab-case normaliser *)

Section StripCollapse.

Lemma lstrip_by_fixed (p : char -> bool) (s : str) :
  match s with [] => True | c :: _ => p c = false end ->
  lstrip_by p s = s.
Proof. destruct s as [|c s]; [done|]. cbn. by intros ->. Qed.

Lemma lstrip_by_suffix (p : char -> bool) (s : str) :
  exists l, s = l ++ lstrip_by p s.
Proof.
  induction s as [|c s [l IH]]; [by exists []|]. cbn.
  destruct (p c); [|by exists []]. exists (c :: l). cbn. by f_equal.
Qed.

Lemma rstrip_by_prefix (p : char -> bool) (s : str) :
  exists l, s = rstrip_by p s ++ l.
Proof.
  unfold rstrip_by. destruct (lstrip_by_suffix p (rev s)) as [l Hl].
  exists (rev l). rewrite <- rev_app_distr, <- Hl. by rewrite rev_involutive.
Qed.

Lemma rstrip_by_fixed (p : char -> bool) (s : str) :
  rstrip_by p (rstrip_by p s) = rstrip_by p s.
Proof.
  unfold rstrip_by. rewrite rev_involutive.
  rewrite lstrip_by_fixed; [done|apply lstrip_by_head].
Qed.

Lemma strip_by_infix (p : char -> bool) (s : str) :
  exists l1 l2, s = l1 ++ strip_by p s ++ l2.
Proof.
  unfold strip_by. destruct (lstrip_by_suffix p s) as [l1 H1].
  destruct (rstrip_by_prefix p (lstrip_by p s)) as [l2 H2].
  exists l1, l2. by rewrite <- H2.
Qed.

Lemma strip_by_idemp (p : char -> bool) (s : str) :
  strip_by p (strip_by p s) = strip_by p s.
Proof.
  unfold strip_by.
  assert (H : lstrip_by p (rstrip_by p (lstrip_by p s)) = rstrip_by p (lstrip_by p s)).
  { apply lstrip_by_fixed.
    destruct (rstrip_by_prefix p (lstrip_by p s)) as [l Hl].
    pose proof (lstrip_by_head p s) as Hh. rewrite Hl in Hh.
    by destruct (rstrip_by p (lstrip_by p s)). }
  rewrite H. apply rstrip_by_fixed.
Qed.

Lemma Forall_strip_by (Q : char -> Prop) (p : char -> bool) (s : str) :
  Forall Q s -> Forall Q (strip_by p s).
Proof.
  intros H. destruct (strip_by_infix p s) as (l1 & l2 & E). rewrite E in H.
  by apply Forall_app in H as [_ [H _]%Forall_app].
Qed.

(** Every character of [s] that satisfies [P] is [c0] and is not followed
    by another one: the fixed points of replacing runs by [c0]. *)
Fixpoint isolated (P : char -> bool) (c0 : char) (s : str) : Prop :=
  match s with
  | [] => True
  | c :: s' =>
      (P c = true ->
       c = c0 /\ match s' with [] => True | d :: _ => P d = false end)
      /\ isolated P c0 s'
  end.

Lemma collapse_isolated_fixed P c0 s :
  isolated P c0 s -> collapse_go P [c0] false s = s.
Proof.
  induction s as [|c s IH]; [done|]. intros [Hc Hs]. cbn [collapse_go].
  destruct (P c) eqn:Pc.
  - destruct (Hc eq_refl) as [-> Hnext]. cbn. f_equal.
    rewrite collapse_go_true, lstrip_by_fixed by done. by apply IH.
  - f_equal. by apply IH.
Qed.

Lemma collapse_go_head P c0 s :
  match collapse_go P [c0] true s with [] => True | d :: _ => P d = false end.
Proof.
  induction s as [|c s IH]; [done|]. cbn. by destruct (P c) eqn:E.
Qed.

Lemma collapse_go_isolated P c0 b s : isolated P c0 (collapse_go P [c0] b s).
Proof.
  revert b. induction s as [|c s IH]; intros b; [done|]. cbn [collapse_go].
  destruct (P c) eqn:Pc.
  - destruct b; cbn [app]; [apply IH|]. cbn [isolated]. split; [|apply IH].
    intros _. split; [done|apply collapse_go_head].
  - cbn [isolated]. split; [|apply IH]. intros E. congruence.
Qed.

Lemma isolated_app P c0 l1 l2 : isolated P c0 (l1 ++ l2) -> isolated P c0 l1 /\ isolated P c0 l2.
Proof.
  induction l1 as [|c l1 IH]; [cbn; auto|]. cbn [app isolated]. intros [Hc Hs].
  destruct (IH Hs) as [H1 H2]. split; [split|]; [|done|done].
  intros Pc. destruct (Hc Pc) as [-> Hn]. split; [done|].
  destruct l1; [done|]. exact Hn.
Qed.

Lemma isolated_strip_by P c0 p s : isolated P c0 s -> isolated P c0 (strip_by p s).
Proof.
  intros H. destruct (strip_by_infix p s) as (l1 & l2 & E). rewrite E in H.
  apply isolated_app in H as [_ H]. by apply isolated_app in H as [H _].
Qed.

Lemma collapse_go_none P repl b s :
  Forall (fun c => P c = false) s -> collapse_go P repl b s = s.
Proof.
  intros H. revert b. induction H as [|c s Hc Hs IH]; intros b; [done|].
  cbn. rewrite Hc. by rewrite IH.
Qed.

Lemma Forall_collapse_go (Q : char -> Prop) P c0 b s :
  Q c0 -> Forall Q s -> Forall Q (collapse_go P [c0] b s).
Proof.
  intros H0 H. revert b. induction H as [|c s Hc Hs IH]; intros b; [constructor|].
  cbn. destruct (P c); [destruct b; cbn; auto|]. by constructor.
Qed.

(** The characters a run replacement leaves: those outside the class, and
    the replacement character. *)
Lemma Forall_collapse_go_out (Q : char -> Prop) P c0 b s :
  Q c0 -> Forall (fun c => P c = false -> Q c) s ->
  Forall Q (collapse_go P [c0] b s).
Proof.
  intros H0 H. revert b. induction H as [|c s Hc Hs IH]; intros b; [constructor|].
  cbn. destruct (P c) eqn:E; [destruct b; cbn; auto|]. constructor; auto.
Qed.

Lemma filter_fixed (keep : char -> bool) (s : str) :
  Forall (fun c => keep c = true) s -> List.filter keep s = s.
Proof. induction 1 as [|c s Hc Hs IH]; [done|]. cbn. by rewrite Hc, IH. Qed.

Lemma Forall_filter_keep (keep : char -> bool) (s : str) :
  Forall (fun c => keep c = true) (List.filter keep s).
Proof.
  induction s as [|c s IH]; [constructor|]. cbn.
  destruct (keep c) eqn:E; [by constructor|done].
Qed.

Lemma Forall_filter_sub (Q : char -> Prop) (keep : char -> bool) (s : str) :
  Forall Q s -> Forall Q (List.filter keep s).
Proof.
  induction 1 as [|c s Hc Hs IH]; [constructor|]. cbn.
  destruct (keep c); [by constructor|done].
Qed.

End StripCollapse.

Section LowerProofs.
Context {UD : Unicode} {UL : UnicodeLaws UD}.

(** A character that [str.lower] leaves alone wherever it stands. *)
Definition lower_stable (c : char) : Prop :=
  lower_full c = [c] /\ c <> c_SIGMA.

Lemma do_lower_stable (bef t : str) :
  Forall lower_stable t -> do_lower bef t = t.
Proof.
  intros H. revert bef. induction H as [|c t [Hc Hne] Ht IH]; intros bef; [done|].
  cbn [do_lower]. unfold lower_ucs4.
  destruct (N.eqb_spec c c_SIGMA) as [->|_]; [done|].
  rewrite Hc. cbn. by rewrite IH.
Qed.

Lemma sigma_stable : lower_stable c_sigma /\ lower_stable c_final_sigma.
Proof.
  destruct lower_sigma_stable as [H1 H2]. repeat split; try done.
Qed.

Lemma handle_capital_sigma_stable bef aft :
  lower_stable (handle_capital_sigma bef aft).
Proof.
  unfold handle_capital_sigma. destruct sigma_stable.
  by destruct (_ && _).
Qed.

Lemma hyphen_stable : lower_stable c_hyphen.
Proof. split; [apply lower_hyphen|done]. Qed.

(** What [str.lower] can put in place of [c]. *)
Definition lower_outputs (c : char) : str :=
  if N.eqb c c_SIGMA then [c_sigma; c_final_sigma] else lower_full c.

Lemma lower_ucs4_outputs bef c aft d :
  In d (lower_ucs4 bef c aft) -> In d (lower_outputs c).
Proof.
  unfold lower_ucs4, lower_outputs.
  destruct (N.eqb c c_SIGMA); [|done].
  unfold handle_capital_sigma. destruct (_ && _); cbn; tauto.
Qed.

Lemma do_lower_chars (Q : char -> Prop) (bef s : str) :
  Forall (fun c => forall d, In d (lower_outputs c) -> Q d) s ->
  Forall Q (do_lower bef s).
Proof.
  intros H. revert bef. induction H as [|c s Hc Hs IH]; intros bef; [constructor|].
  cbn [do_lower]. apply Forall_app. split; [|apply IH].
  apply Forall_forall. intros d Hd%list_elem_of_In.
  by apply Hc, (lower_ucs4_outputs bef c s).
Qed.

Lemma lower_outputs_stable c d : In d (lower_outputs c) -> lower_stable d.
Proof.
  unfold lower_outputs. destruct (N.eqb c c_SIGMA).
  - destruct sigma_stable. cbn. intros [<-|[<-|[]]]; done.
  - apply lower_full_stable.
Qed.

Lemma lower_all_stable (bef s : str) : Forall lower_stable (do_lower bef s).
Proof.
  apply do_lower_chars, Forall_forall. intros c _ d. apply lower_outputs_stable.
Qed.

(** The three character classes of the two normalisers, without flags. *)
Definition keep (c : char) : bool := isword c || isspace c || (c =? c_hyphen)%N.
Definition hyphen_or_space (c : char) : bool := (c =? c_hyphen)%N || isspace c.
Definition is_hyphen (c : char) : bool := (c =? c_hyphen)%N.

Lemma set_match_keep c :
  negb (set_match no_flags true [CWord; CSpace; CChar c_hyphen] c) = keep c.
Proof.
  unfold set_match, item_match, keep. cbn.
  rewrite !orb_false_r. by destruct (isword c), (isspace c), (c =? c_hyphen)%N.
Qed.

Lemma set_match_hyphen_or_space c :
  set_match no_flags false [CChar c_hyphen; CSpace] c = hyphen_or_space c.
Proof.
  unfold set_match, item_match, hyphen_or_space. cbn.
  by rewrite !orb_false_r.
Qed.

Lemma set_match_space c : set_match no_flags false [CSpace] c = isspace c.
Proof. unfold set_match, item_match. cbn. by rewrite !orb_false_r. Qed.

Lemma lit_match_hyphen c : lit_match no_flags c_hyphen c = is_hyphen c.
Proof. unfold lit_match, is_hyphen. cbn. by rewrite orb_false_r. Qed.

Lemma strip_chars_hyphen s : strip_chars (U "-") s = strip_by is_hyphen s.
Proof.
  unfold strip_chars, strip_by, rstrip_by.
  change (U "-") with [c_hyphen].
  assert (E : forall t, lstrip_by (fun c => existsb (N.eqb c) [c_hyphen]) t
                        = lstrip_by is_hyphen t).
  { induction t as [|c t IH]; [done|]. cbn [lstrip_by existsb]. unfold is_hyphen.
    rewrite orb_false_r.
    destruct (c =? c_hyphen)%N; [apply IH|done]. }
  by rewrite !E.
Qed.

(** The two functions as plain list functions. *)
Lemma heading_to_id_unfold (s : str) :
  _heading_to_id s =
    strip_by is_hyphen
      (collapse_go hyphen_or_space [c_hyphen] false
         (List.filter keep (lower s))).
Proof.
  unfold _heading_to_id. rewrite strip_chars_hyphen. f_equal.
  rewrite (re_sub_plus no_flags _ _ _ _ (char_regex_set no_flags _ _)).
  rewrite (re_sub_char no_flags _ _ _ _ (char_regex_set no_flags _ _)).
  rewrite flat_map_delete.
  change (U "-") with [c_hyphen].
  assert (E1 : forall t b, collapse_go (set_match no_flags false [CChar c_hyphen; CSpace]) [c_hyphen] b t
                           = collapse_go hyphen_or_space [c_hyphen] b t).
  { induction t as [|c t IH]; intros b; [done|].
    cbn [collapse_go]. rewrite set_match_hyphen_or_space. by rewrite !IH. }
  rewrite E1. f_equal.
  induction (lower s) as [|c t IH]; [done|]. cbn [List.filter].
  rewrite set_match_keep. by rewrite IH.
Qed.

Lemma to_kebab_case_unfold (s : str) :
  _to_kebab_case s =
    strip_by is_hyphen
      (collapse_go is_hyphen [c_hyphen] false
         (lower (collapse_go isspace [c_hyphen] false (List.filter keep s)))).
Proof.
  unfold _to_kebab_case. rewrite strip_chars_hyphen. f_equal.
  rewrite (re_sub_plus no_flags _ _ _ _ (char_regex_lit no_flags _)).
  unfold r_space.
  rewrite (re_sub_plus no_flags _ _ _ _ (char_regex_set no_flags _ _)).
  rewrite (re_sub_char no_flags _ _ _ _ (char_regex_set no_flags _ _)).
  rewrite flat_map_delete.
  change (U "-") with [c_hyphen].
  assert (E1 : forall t b, collapse_go (lit_match no_flags c_hyphen) [c_hyphen] b t
                           = collapse_go is_hyphen [c_hyphen] b t).
  { induction t as [|c t IH]; intros b; [done|].
    cbn [collapse_go]. rewrite lit_match_hyphen. by rewrite !IH. }
  assert (E2 : forall t b, collapse_go (set_match no_flags false [CSpace]) [c_hyphen] b t
                           = collapse_go isspace [c_hyphen] b t).
  { induction t as [|c t IH]; intros b; [done|].
    cbn [collapse_go]. rewrite set_match_space. by rewrite !IH. }
  rewrite E1, E2. do 3 f_equal.
  induction s as [|c t IH]; [done|]. cbn [List.filter].
  rewrite set_match_keep. by rewrite IH.
Qed.

Lemma keep_hyphen : keep c_hyphen = true.
Proof. unfold keep. by rewrite N.eqb_refl, orb_true_r. Qed.

Lemma heading_to_id_idempotent (s : str) :
  _heading_to_id (_heading_to_id s) = _heading_to_id s.
Proof.
  pose proof (heading_to_id_unfold s) as Et.
  set (t := _heading_to_id s) in *.
  assert (Hst : Forall lower_stable t).
  { rewrite Et. apply Forall_strip_by, Forall_collapse_go; [apply hyphen_stable|].
    apply Forall_filter_sub, lower_all_stable. }
  assert (Hkeep : Forall (fun c => keep c = true) t).
  { rewrite Et. apply Forall_strip_by, Forall_collapse_go; [apply keep_hyphen|].
    apply Forall_filter_keep. }
  assert (Hiso : isolated hyphen_or_space c_hyphen t).
  { rewrite Et. apply isolated_strip_by, collapse_go_isolated. }
  rewrite (heading_to_id_unfold t).
  unfold lower. rewrite (do_lower_stable [] t Hst).
  rewrite (filter_fixed keep t Hkeep).
  rewrite (collapse_isolated_fixed _ _ t Hiso).
  rewrite Et. apply strip_by_idemp.
Qed.

(** A word character whose lower-case form consists of word characters. *)
Definition lowers_to_words (c : char) : bool :=
  implb (isword c) (forallb isword (lower_outputs c)).

Lemma isword_not_space c : isword c = true -> isspace c = false.
Proof.
  unfold isword. intros [H|H%N.eqb_eq]%orb_true_iff.
  - destruct (isspace c) eqn:E; [|done].
    apply space_not_alnum in E. congruence.
  - subst. apply underscore_not_space.
Qed.

Lemma to_kebab_case_idempotent (s : str) :
  forallb lowers_to_words s = true ->
  _to_kebab_case (_to_kebab_case s) = _to_kebab_case s.
Proof.
  intros Hs.
  pose proof (to_kebab_case_unfold s) as Et.
  set (t := _to_kebab_case s) in *.
  set (u := collapse_go isspace [c_hyphen] false (List.filter keep s)) in *.
  pose (good := fun c : char => isword c = true \/ c = c_hyphen).
  assert (Hu : Forall (fun c => forall d, In d (lower_outputs c) -> good d) u).
  { apply Forall_collapse_go_out.
    - intros d. unfold lower_outputs. cbn. rewrite lower_hyphen.
      intros [<-|[]]. by right.
    - apply Forall_forall. intros c Hc%list_elem_of_In%filter_In Hsp d Hd.
      destruct Hc as [Hin Hk].
      unfold keep in Hk. rewrite Hsp, orb_false_r in Hk.
      apply orb_true_iff in Hk as [Hw|Hh%N.eqb_eq].
      + left. rewrite forallb_forall in Hs.
        specialize (Hs c Hin).
        unfold lowers_to_words in Hs. rewrite Hw in Hs. cbn in Hs.
        rewrite forallb_forall in Hs. by apply Hs.
      + subst c. unfold lower_outputs in Hd. cbn in Hd.
        rewrite lower_hyphen in Hd. destruct Hd as [<-|[]]. by right. }
  assert (Hgood : Forall good t).
  { rewrite Et. apply Forall_strip_by, Forall_collapse_go; [by right|].
    by apply do_lower_chars. }
  assert (Hst : Forall lower_stable t).
  { rewrite Et. apply Forall_strip_by, Forall_collapse_go; [apply hyphen_stable|].
    apply lower_all_stable. }
  assert (Hkeep : Forall (fun c => keep c = true) t).
  { eapply Forall_impl; [exact Hgood|]. intros c [Hw| ->].
    - unfold keep. by rewrite Hw.
    - apply keep_hyphen. }
  assert (Hnosp : Forall (fun c => isspace c = false) t).
  { eapply Forall_impl; [exact Hgood|]. intros c [Hw| ->].
    - by apply isword_not_space.
    - apply hyphen_not_space. }
  assert (Hiso : isolated is_hyphen c_hyphen t).
  { rewrite Et. apply isolated_strip_by, collapse_go_isolated. }
  rewrite (to_kebab_case_unfold t).
  rewrite (filter_fixed keep t Hkeep).
  rewrite (collapse_go_none isspace _ _ t Hnosp).
  unfold lower at 1. rewrite (do_lower_stable [] t Hst).
  rewrite (collapse_isolated_fixed _ _ t Hiso).
  rewrite Et. apply strip_by_idemp.
Qed.

(** C10, as the code has it.  The heading slugifier is idempotent on every
    string.  The kebab-case normaliser is idempotent on every string whose
    word characters lower-case to word characters. *)
Theorem slug_and_kebab_idempotent (s : str) :
  _heading_to_id (_heading_to_id s) = _heading_to_id s /\
  (forallb lowers_to_words s = true ->
   _to_kebab_case (_to_kebab_case s) = _to_kebab_case s).
Proof.
  split; [apply heading_to_id_idempotent|apply to_kebab_case_idempotent].
Qed.

End LowerProofs.

(** ** The database excerpt satisfies the laws *)

Local Open Scope N_scope.

Lemma ucd_tolower_range (c : char) :
  c <> 304 ->
  ucd_tolower c <> 304 /\ (ucd_tolower c < 65 \/ 90 < ucd_tolower c)
  /\ ucd_tolower c <> 931.
Proof.
  intros Hc. unfold ucd_tolower, ascii_upper, in_range, c_SIGMA, c_sigma.
  destruct (N.leb_spec 65 c), (N.leb_spec c 90); cbn [andb]; try lia;
    destruct (N.eqb_spec c 304); try lia;
    destruct (N.eqb_spec c 931); lia.
Qed.

Lemma ucd_lower_full_fixed (d : char) :
  d <> 304 -> (d < 65 \/ 90 < d) -> d <> 931 -> ucd_lower_full d = [d].
Proof.
  intros H1 H2 H3. unfold ucd_lower_full, ucd_tolower, ascii_upper, in_range, c_SIGMA.
  destruct (N.eqb_spec d 304); [lia|].
  destruct (N.leb_spec 65 d), (N.leb_spec d 90); cbn [andb]; try lia;
    destruct (N.eqb_spec d 931); try lia; reflexivity.
Qed.

Lemma ucd_space_not_alnum (c : char) :
  ucd_isspace c = true -> ucd_isalnum c = false.
Proof.
  unfold ucd_isspace, ucd_isalnum, ascii_upper, ascii_lower, ascii_digit,
    in_range, c_SIGMA, c_sigma, c_final_sigma.
  intros H.
  assert (Hc : c <= 32 \/ c = 133 \/ c = 160).
  { destruct (N.leb_spec c 32); [by left|]. right.
    destruct (N.eqb_spec c 133); [by left|].
    destruct (N.eqb_spec c 160); [by right|].
    exfalso. revert H.
    destruct (N.leb_spec 9 c), (N.leb_spec c 13), (N.leb_spec 28 c);
      cbn [andb orb]; try lia; discriminate. }
  destruct Hc as [Hle|[->| ->]]; [|reflexivity|reflexivity].
  destruct (N.leb_spec 65 c), (N.leb_spec 97 c), (N.leb_spec 48 c);
    cbn [andb orb]; try lia;
    destruct (N.eqb_spec c 304), (N.eqb_spec c 931), (N.eqb_spec c 963),
      (N.eqb_spec c 962); try lia; reflexivity.
Qed.

Local Close Scope N_scope.

#[export] Instance ucd_laws : UnicodeLaws ucd.
Proof.
  split.
  - intros c d Hd. cbn [lower_full ucd] in *. unfold ucd_lower_full in Hd.
    destruct (N.eqb_spec c 304) as [->|Hc].
    + destruct Hd as [<-|[<-|[]]]; split; [reflexivity|done|reflexivity|done].
    + destruct Hd as [<-|[]].
      destruct (ucd_tolower_range c Hc) as (H1 & H2 & H3).
      split; [by apply ucd_lower_full_fixed|exact H3].
  - split; reflexivity.
  - reflexivity.
  - apply ucd_space_not_alnum.
  - reflexivity.
  - reflexivity.
  - reflexivity.
Qed.

Section IdempotenceExamples.

(** "User Management": every character lower-cases to a word character. *)
Lemma slug_and_kebab_idempotent_witness :
  _heading_to_id (_heading_to_id (U "User Management"))
    = _heading_to_id (U "User Management") /\
  (forallb lowers_to_words (U "User Management") = true ->
   _to_kebab_case (_to_kebab_case (U "User Management"))
     = _to_kebab_case (U "User Management")).
Proof. apply (slug_and_kebab_idempotent (U "User Management")). Defined.

(** The kebab-case normaliser lower-cases after it has removed the
    characters that are not word characters.  U+0130 is a letter; its
    lower-case form is "i" followed by U+0307, a combining mark, which only
    the second application removes. *)
Lemma to_kebab_case_not_idempotent :
  ~ (forall s : str,
        _heading_to_id (_heading_to_id s) = _heading_to_id s /\
        _to_kebab_case (_to_kebab_case s) = _to_kebab_case s).
Proof.
  intros H. destruct (H [304%N]) as [_ E]. vm_compute in E. discriminate.
Qed.

End IdempotenceExamples.

(** ** Feature detection *)

Section SortProofs.
Context {A : Type} (key : A -> Q).

(** Adjacent elements in descending order of key. *)
Fixpoint descending (l : list A) : Prop :=
  match l with
  | [] => True
  | x :: l' =>
      match l' with
      | [] => True
      | y :: _ => Qle_bool (key y) (key x) = true
      end /\ descending l'
  end.

Lemma Qle_bool_total (a b : Q) : Qle_bool a b = false -> Qle_bool b a = true.
Proof.
  intros H. apply Qle_bool_iff. apply Qlt_le_weak, Qnot_le_lt.
  intros Hle. apply Qle_bool_iff in Hle. congruence.
Qed.

Lemma insert_desc_descending (x : A) (l : list A) :
  descending l -> descending (feature_detector.insert_desc key x l).
Proof.
  induction l as [|y l IH]; [done|]. intros [Hy Hl].
  cbn [feature_detector.insert_desc].
  destruct (Qle_bool (key y) (key x)) eqn:E.
  - cbn [descending]. repeat split; done.
  - specialize (IH Hl). cbn [descending]. split; [|done].
    destruct l as [|z l]; cbn [feature_detector.insert_desc].
    + by apply Qle_bool_total.
    + destruct (Qle_bool (key z) (key x)); [by apply Qle_bool_total|done].
Qed.

Lemma sorted_desc_descending (l : list A) :
  descending (feature_detector.sorted_desc key l).
Proof.
  induction l as [|x l IH]; [done|]. cbn. by apply insert_desc_descending.
Qed.

(** Sorting a list that is already in order changes nothing. *)
Lemma sorted_desc_fixed (l : list A) :
  descending l -> feature_detector.sorted_desc key l = l.
Proof.
  induction l as [|x l IH]; [done|]. intros [Hx Hl].
  unfold feature_detector.sorted_desc in *. cbn [foldr]. rewrite IH by done.
  destruct l as [|y l]; [done|]. cbn. by rewrite Hx.
Qed.

Lemma descending_take (n : nat) (l : list A) :
  descending l -> descending (take n l).
Proof.
  revert n. induction l as [|x l IH]; intros n; [by destruct n|].
  destruct n as [|n]; [done|]. intros [Hx Hl]. cbn [take descending].
  split; [|by apply IH]. destruct l as [|y l]; [by destruct n|].
  by destruct n.
Qed.

Lemma length_insert_desc (x : A) (l : list A) :
  length (feature_detector.insert_desc key x l) = S (length l).
Proof.
  induction l as [|y l IH]; [done|]. cbn.
  destruct (Qle_bool _ _); cbn; by rewrite ?IH.
Qed.

Lemma length_sorted_desc (l : list A) :
  length (feature_detector.sorted_desc key l) = length l.
Proof.
  induction l as [|x l IH]; [done|]. cbn.
  rewrite length_insert_desc. by f_equal.
Qed.

(** Order only depends on the keys. *)
Lemma descending_imap (g : nat -> A -> A) (l : list A) :
  (forall i x, key (g i x) = key x) ->
  descending l -> descending (imap g l).
Proof.
  revert g. induction l as [|x l IH]; intros g Hg; [done|].
  intros [Hx Hl]. cbn [imap descending]. split.
  - destruct l as [|y l]; [done|]. cbn. by rewrite !Hg.
  - apply IH; [|done]. intros i y. apply Hg.
Qed.

(** In a descending list no element has a key above that of an earlier one. *)
Lemma descending_lookup (l : list A) :
  descending l ->
  forall i j x y, l !! i = Some x -> l !! j = Some y -> i <= j ->
                  (key y <= key x)%Q.
Proof.
  induction l as [|a l IH]; [done|]. intros [Ha Hl].
  assert (Hhead : forall j y, l !! j = Some y -> (key y <= key a)%Q).
  { clear IH. revert a Ha Hl. induction l as [|b l IH]; [done|].
    intros a Ha [Hb Hl] j y Hy. apply Qle_bool_iff in Ha.
    destruct j as [|j].
    - injection Hy as <-. done.
    - apply Qle_trans with (key b); [|done]. by apply (IH b Hb Hl j). }
  intros i j x y Hx Hy Hij. destruct i as [|i].
  - injection Hx as <-. destruct j as [|j].
    + injection Hy as <-. apply Qle_refl.
    + by apply (Hhead j).
  - destruct j as [|j]; [lia|]. apply (IH Hl i j); [done|done|lia].
Qed.

End SortProofs.

Section SortStable.
Context {A : Type} (key : A -> Q).

(** [sorted_desc] rearranges its argument... *)
Lemma insert_desc_permutation (x : A) (l : list A) :
  Permutation (feature_detector.insert_desc key x l) (x :: l).
Proof.
  induction l as [|y l IH]; [done|]. cbn.
  destruct (Qle_bool _ _); [done|]. rewrite IH. apply Permutation_swap.
Qed.

Lemma sorted_desc_permutation (l : list A) :
  Permutation (feature_detector.sorted_desc key l) l.
Proof.
  induction l as [|x l IH]; [done|]. cbn.
  rewrite insert_desc_permutation. by constructor.
Qed.

(** ... and keeps the elements of equal key in their original order. *)
Definition same_key (k : Q) (x : A) : bool := Qeq_bool (key x) k.

Lemma insert_desc_stable (k : Q) (x : A) (l : list A) :
  List.filter (same_key k) (feature_detector.insert_desc key x l)
  = List.filter (same_key k) (x :: l).
Proof.
  induction l as [|y l IH]; [done|]. cbn [feature_detector.insert_desc].
  destruct (Qle_bool (key y) (key x)) eqn:E; [done|].
  cbn [List.filter] in *. rewrite IH.
  destruct (same_key k x) eqn:Ex, (same_key k y) eqn:Ey; try done.
  exfalso. unfold same_key in *.
  apply Qeq_bool_iff in Ex, Ey.
  assert (Hle : (key y <= key x)%Q) by (rewrite Ex, Ey; apply Qle_refl).
  apply Qle_bool_iff in Hle. congruence.
Qed.

Lemma sorted_desc_stable (k : Q) (l : list A) :
  List.filter (same_key k) (feature_detector.sorted_desc key l)
  = List.filter (same_key k) l.
Proof.
  induction l as [|x l IH]; [done|].
  unfold feature_detector.sorted_desc in *. cbn [foldr].
  rewrite insert_desc_stable. cbn. by rewrite IH.
Qed.

End SortStable.

Lemma take_imap {A B} (g : nat -> A -> B) (n : nat) (l : list A) :
  take n (imap g l) = imap g (take n l).
Proof.
  revert g n. induction l as [|x l IH]; intros g n; [by destruct n|].
  destruct n as [|n]; [done|]. cbn. by rewrite IH.
Qed.

Section DetectorProofs.
Import feature_detector.
Context {UD : Unicode} {UL : UnicodeLaws UD}.

(** A kebab-case name is its own lower-case form. *)
Lemma to_kebab_case_lower (s : str) :
  lower (_to_kebab_case s) = _to_kebab_case s.
Proof.
  unfold lower. apply do_lower_stable. rewrite to_kebab_case_unfold.
  apply Forall_strip_by, Forall_collapse_go; [apply hyphen_stable|].
  apply lower_all_stable.
Qed.

(** The name of a candidate is a kebab-case name. *)
Definition kebab_named (f : DetectedFeature) : Prop :=
  exists s, name f = _to_kebab_case s.

Lemma bullets_kebab_named text section_id :
  Forall kebab_named (_extract_from_bullets text section_id).
Proof.
  unfold _extract_from_bullets. apply Forall_forall.
  intros f Hf%list_elem_of_In%in_flat_map. destruct Hf as (line & _ & Hf).
  unfold bullet_line in Hf. destruct (re_match_ _ _ _); [|done].
  destruct (_ <? _)%nat; [|done].
  destruct (_extract_feature_name _) as [n|]; [|done].
  destruct Hf as [<-|[]]. by exists n.
Qed.

Lemma actions_kebab_named text section_id :
  Forall kebab_named (_extract_from_action_verbs text section_id).
Proof.
  unfold _extract_from_action_verbs. apply Forall_forall.
  intros f Hf%list_elem_of_In%in_flat_map. destruct Hf as (verb & _ & Hf).
  apply in_map_iff in Hf as (m & <- & _). by eexists.
Qed.

Lemma keywords_kebab_named text section_id :
  Forall kebab_named (_extract_from_keywords text section_id).
Proof.
  unfold _extract_from_keywords. apply Forall_forall.
  intros f Hf%list_elem_of_In%in_flat_map. destruct Hf as (kw & _ & Hf).
  destruct (re_search _ _ _); [|done]. destruct Hf as [<-|[]]. by eexists.
Qed.

Lemma candidates_kebab_named product_text solution_text :
  Forall kebab_named (candidates product_text solution_text).
Proof.
  unfold candidates. rewrite !Forall_app.
  auto using bullets_kebab_named, actions_kebab_named, keywords_kebab_named.
Qed.

(** The confidence each pass assigns. *)
Lemma bullets_confidence text section_id :
  Forall (fun f => confidence f = 85 # 100)
         (_extract_from_bullets text section_id).
Proof.
  unfold _extract_from_bullets. apply Forall_forall.
  intros f Hf%list_elem_of_In%in_flat_map. destruct Hf as (line & _ & Hf).
  unfold bullet_line in Hf. destruct (re_match_ _ _ _); [|done].
  destruct (_ <? _)%nat; [|done].
  destruct (_extract_feature_name _) as [n|]; [|done].
  by destruct Hf as [<-|[]].
Qed.

Lemma actions_confidence text section_id :
  Forall (fun f => confidence f = 70 # 100)
         (_extract_from_action_verbs text section_id).
Proof.
  unfold _extract_from_action_verbs. apply Forall_forall.
  intros f Hf%list_elem_of_In%in_flat_map. destruct Hf as (verb & _ & Hf).
  by apply in_map_iff in Hf as (m & <- & _).
Qed.

Lemma keywords_confidence text section_id :
  Forall (fun f => confidence f = 60 # 100)
         (_extract_from_keywords text section_id).
Proof.
  unfold _extract_from_keywords. apply Forall_forall.
  intros f Hf%list_elem_of_In%in_flat_map. destruct Hf as (kw & _ & Hf).
  destruct (re_search _ _ _); [|done]. by destruct Hf as [<-|[]].
Qed.

(** Deduplicating by the lower-cased name is deduplicating by the name. *)
Lemma dedup_go_first_by_name (seen : list str) (features : list DetectedFeature) :
  Forall kebab_named features ->
  dedup_go (list_to_set seen) features = first_by_name seen features.
Proof.
  intros H. revert seen. induction H as [|f rest [s Hf] Hrest IH]; intros seen; [done|].
  cbn [dedup_go first_by_name].
  rewrite Hf, to_kebab_case_lower.
  assert (E : bool_decide (_to_kebab_case s ∈ (list_to_set seen : gset str))
              = bool_decide (_to_kebab_case s ∈ seen)).
  { apply bool_decide_ext. apply elem_of_list_to_set. }
  rewrite E. destruct (bool_decide (_to_kebab_case s ∈ seen)); [apply IH|].
  f_equal. rewrite <- IH. reflexivity.
Qed.

Lemma deduplicate_first_by_name (features : list DetectedFeature) :
  Forall kebab_named features ->
  _deduplicate_features features = first_by_name [] features.
Proof. intros H. unfold _deduplicate_features. by rewrite <- dedup_go_first_by_name. Qed.

Lemma confidence_set_priority p f : confidence (set_priority p f) = confidence f.
Proof. reflexivity. Qed.

(** Capping before or after the priorities are given comes to the same. *)
Lemma cap_then_rank (l : list DetectedFeature) :
  (let features := _assign_priorities l in
   if (10 <? length features)%nat
   then take 10 (sorted_desc confidence features) else features)
  = imap (fun idx f => set_priority (priority_of_rank idx) f)
         (sorted_desc confidence (keep_ten_best l)).
Proof.
  cbv zeta. unfold _assign_priorities, keep_ten_best.
  rewrite length_imap, length_sorted_desc.
  destruct (10 <? length l)%nat.
  - rewrite (sorted_desc_fixed confidence (imap _ _)).
    2: { apply descending_imap; [done|apply sorted_desc_descending]. }
    rewrite take_imap. f_equal. symmetry. apply sorted_desc_fixed.
    apply descending_take, sorted_desc_descending.
  - reflexivity.
Qed.

Lemma assign_ids_imap (l : list DetectedFeature) :
  assign_ids l = imap (fun idx f => set_id (format_03d (N.of_nat (idx + 1))) f) l.
Proof.
  unfold assign_ids. apply imap_ext. intros i f _.
  by replace (i + 1) with (S i) by lia.
Qed.

(** Sorting what the cap keeps gives the first 10 of the sorted list. *)
Lemma sorted_desc_cap (l : list DetectedFeature) :
  sorted_desc confidence (keep_ten_best l) = take 10 (sorted_desc confidence l).
Proof.
  unfold keep_ten_best. destruct (10 <? length l)%nat eqn:E.
  - apply sorted_desc_fixed, descending_take, sorted_desc_descending.
  - apply Nat.ltb_ge in E. rewrite take_ge; [done|].
    rewrite length_sorted_desc. lia.
Qed.

Lemma sorted_desc_sorted_by_confidence (l : list DetectedFeature) :
  sorted_by_confidence l (sorted_desc confidence l).
Proof.
  split; [apply sorted_desc_permutation|]. split.
  - apply descending_lookup, sorted_desc_descending.
  - intros k. apply (sorted_desc_stable confidence k).
Qed.

Lemma format_03d_three_digits (i : nat) :
  i < 10 -> format_03d (N.of_nat (S i)) = three_digits (S i).
Proof. intros H. do 10 (destruct i as [|i]; [reflexivity|]). lia. Qed.

(** The list [detect_features] returns, position by position. *)
Lemma detect_features_lookup (product_text solution_text : str)
    (i : nat) (f : DetectedFeature) :
  detect_features product_text solution_text !! i = Some f ->
  exists c,
    sorted_desc confidence
      (_deduplicate_features (candidates product_text solution_text)) !! i
    = Some c /\
    i < 10 /\
    f = set_id (format_03d (N.of_nat (S i)))
               (set_priority (priority_of_rank i) c).
Proof.
  unfold detect_features, assign_ids. rewrite cap_then_rank, sorted_desc_cap.
  rewrite !list_lookup_imap.
  destruct (take 10 _ !! i) as [c|] eqn:E; [|done].
  intros [= <-]. apply lookup_take_Some in E as [E Hi]. by exists c.
Qed.

Lemma length_detect_features (product_text solution_text : str) :
  length (detect_features product_text solution_text)
  = Nat.min 10
      (length (_deduplicate_features (candidates product_text solution_text))).
Proof.
  unfold detect_features, assign_ids. rewrite cap_then_rank, sorted_desc_cap.
  by rewrite !length_imap, length_take, length_sorted_desc.
Qed.

(** C2: [detect_features] returns at most 10 features, and they are what
    the pipeline of the specification gives.  The candidates are those of
    the passes in pass order, a bullet item with confidence 0.85, an
    action-verb phrase with 0.70, a keyword match with 0.60.  Of the
    candidates the first of every name is kept; the kept ones are sorted by
    confidence, descending, ties in their original order; the result is the
    first 10 of that list, or all of it; the feature at position [i] has the
    priority P1 for [i] = 0..2, P2 for 3..6 and P3 after that, and the
    identifier [i + 1] on three digits, and is otherwise the candidate at
    that position. *)
Theorem detect_features_pipeline (product_text solution_text : str) :
  let features := detect_features product_text solution_text in
  let all_candidates :=
    _extract_from_bullets product_text (U "product")
      ++ _extract_from_bullets solution_text (U "solution")
      ++ _extract_from_action_verbs product_text (U "product")
      ++ _extract_from_keywords solution_text (U "solution") in
  (forall text section_id,
      Forall (fun f => confidence f = 85 # 100)
             (_extract_from_bullets text section_id) /\
      Forall (fun f => confidence f = 70 # 100)
             (_extract_from_action_verbs text section_id) /\
      Forall (fun f => confidence f = 60 # 100)
             (_extract_from_keywords text section_id)) /\
  length features <= 10 /\
  exists ranked,
    sorted_by_confidence (first_by_name [] all_candidates) ranked /\
    length features = Nat.min 10 (length ranked) /\
    forall i f, features !! i = Some f ->
      exists c,
        ranked !! i = Some c /\
        id f = three_digits (i + 1) /\
        priority f
        = (if (i <? 3)%nat then P1 else if (i <? 7)%nat then P2 else P3) /\
        name f = name c /\ title f = title c /\
        description f = description c /\
        source_section_id f = source_section_id c /\
        confidence f = confidence c /\ keywords f = keywords c.
Proof.
  cbv zeta. fold (candidates product_text solution_text).
  split.
  { intros text section_id.
    auto using bullets_confidence, actions_confidence, keywords_confidence. }
  split.
  { rewrite length_detect_features. lia. }
  rewrite <- deduplicate_first_by_name by apply candidates_kebab_named.
  exists (sorted_desc confidence
            (_deduplicate_features (candidates product_text solution_text))).
  split; [apply sorted_desc_sorted_by_confidence|].
  split; [by rewrite length_detect_features, length_sorted_desc|].
  intros i f Hf.
  apply detect_features_lookup in Hf as (c & Hc & Hi & ->).
  exists c. split; [done|].
  replace (i + 1) with (S i) by lia.
  rewrite format_03d_three_digits by done. by repeat split.
Qed.

End DetectorProofs.


Section DetectorExample.
Import feature_detector.

Lemma detect_features_pipeline_witness :
  let features := detect_features (U "- User registration") (U "Secure payments") in
  let all_candidates :=
    _extract_from_bullets (U "- User registration") (U "product")
      ++ _extract_from_bullets (U "Secure payments") (U "solution")
      ++ _extract_from_action_verbs (U "- User registration") (U "product")
      ++ _extract_from_keywords (U "Secure payments") (U "solution") in
  (forall text section_id,
      Forall (fun f => confidence f = 85 # 100)
             (_extract_from_bullets text section_id) /\
      Forall (fun f => confidence f = 70 # 100)
             (_extract_from_action_verbs text section_id) /\
      Forall (fun f => confidence f = 60 # 100)
             (_extract_from_keywords text section_id)) /\
  length features <= 10 /\
  exists ranked,
    sorted_by_confidence (first_by_name [] all_candidates) ranked /\
    length features = Nat.min 10 (length ranked) /\
    forall i f, features !! i = Some f ->
      exists c,
        ranked !! i = Some c /\
        id f = three_digits (i + 1) /\
        priority f
        = (if (i <? 3)%nat then P1 else if (i <? 7)%nat then P2 else P3) /\
        name f = name c /\ title f = title c /\
        description f = description c /\
        source_section_id f = source_section_id c /\
        confidence f = confidence c /\ keywords f = keywords c.
Proof.
  apply (detect_features_pipeline (U "- User registration") (U "Secure payments")).
Defined.

(** The two features of that example. *)
Example detect_features_example :
  List.map (fun f => (id f, name f, priority f, confidence f))
    (detect_features (U "- User registration") (U "Secure payments"))
  = [(U "001", U "user-registration", P1, 85 # 100);
     (U "002", U "payment-management", P1, 60 # 100)].
Proof. vm_compute. reflexivity. Qed.

End DetectorExample.

(** ** Principle extraction *)

Section ExtractorExample.
Import principle_extractor.

(** Upper-case letters and white space only. *)
Definition all_caps (s : str) : bool :=
  forallb (fun c => ascii_upper c || isspace c) s.

(** C3 fails on the code: the patterns are all applied with
    [re.IGNORECASE], under which [A-Z] matches lower-case letters too.  On
    the sentence "save money when traveling" the emphasis pattern matches
    the whole lower-case sentence, and [extract_principles] returns it as a
    principle of confidence 0.85. *)
Theorem extract_principles_lower_case_emphasis :
  from_family VALUE_PROP (U "save money when traveling")
    = [(VALUE_PROP_PATTERN, U "save money when traveling")] /\
  List.map (fun p => (id p, text p, confidence p))
    (extract_principles (U "save money when traveling") (U "solution") strategic)
    = [(U "principle-001", U "save money when traveling", 85 # 100)] /\
  all_caps (U "save money when traveling") = false.
Proof. vm_compute. repeat split. Qed.

(** Without the flag the same pattern finds nothing in that sentence, and
    finds the emphasised words in an upper-case one. *)
Example value_prop_case_sensitive :
  finditer no_flags (pregex VALUE_PROP_PATTERN) (U "save money when traveling") = []
  /\ List.map m_group0
       (finditer no_flags (pregex VALUE_PROP_PATTERN) (U "SAVE MONEY when traveling"))
     = [U "SAVE MONEY"].
Proof. vm_compute. repeat split. Qed.

End ExtractorExample.

(** ** The pitch-deck round trip *)

Section RoundTripExample.
Import markdown_parser version_tracker pitch_deck commonmark plain_yaml.

(** A deck with the frontmatter the program writes and one section. *)
Definition deck_text : str :=
  join [c_newline]
    [U "---"; U "version: 1.0.0"; U "---"; U ""; U "# Problem"; U "";
     U "Travel is expensive."; U ""].

Definition deck_path : path := U ".specify/deck/pitch-deck.md".

Definition deck_fs : filesystem :=
  {| nodes := {[ deck_path := File deck_text ]}; protected := ∅ |}.

(** [PitchDeck.parse] hands the whole file to the markdown parser,
    frontmatter included.  Under CommonMark the closing [---] of the
    frontmatter is a setext underline, so the line above it becomes a
    heading and opens a section. *)
Example deck_tokens :
  List.map (fun t => (ttype t, markdown_parser.content t))
           (firstn 4 (md_parse deck_text))
  = [(U "hr", []); (U "heading_open", []);
     (U "inline", U "version: 1.0.0"); (U "heading_close", [])].
Proof. vm_compute. reflexivity. Qed.

(** C6 fails on the code: parsing this deck, bumping the patch number,
    saving and parsing again gives the bumped version, but the section that
    came from the frontmatter has changed its id and its title with it. *)
Theorem round_trip_changes_sections :
  exists deck deck'',
    round_trip deck_fs deck_path PATCH = Ok (U "1.0.1", deck, deck'') /\
    version deck = U "1.0.0" /\
    version deck'' = U "1.0.1" /\
    List.map (fun s => (section_id s, title s)) (sections deck)
      = [(U "version-100", U "version: 1.0.0"); (U "problem", U "Problem")] /\
    List.map (fun s => (section_id s, title s)) (sections deck'')
      = [(U "version-101", U "version: 1.0.1"); (U "problem", U "Problem")] /\
    List.map section_view (sections deck'')
      <> List.map section_view (sections deck).
Proof.
  eexists _, _. split; [vm_compute; reflexivity|].
  repeat split; try (vm_compute; reflexivity).
  vm_compute. discriminate.
Qed.

End RoundTripExample.

(** ** The theorems at concrete inputs *)

Section Witnesses.
Import markdown_parser traceability constitution conflict_detector installer
  commonmark.

(** Validation of the four kinds of link against one filesystem. *)
Definition docs_fs : filesystem :=
  {| nodes := {[ U "a.md" := File (U "# Intro");
                 U "b.md" := File (U "[a](a.md#intro)") ]};
     protected := ∅ |}.

Definition docs_link (source target : string) (section : option string)
    : TraceabilityLink :=
  {| source_file := U source; source_line := 0; target_file := U target;
     target_section := U <$> section; link_text := None; link_type := None;
     _validation_result := None |}.

Lemma validate_precedence_witness :
  state (validate docs_fs (docs_link "b.md" "a.md" (Some "intro"))) = VALID /\
  state (validate docs_fs (docs_link "b.md" "a.md" (Some "outro"))) = BROKEN_SECTION /\
  state (validate docs_fs (docs_link "b.md" "c.md" (Some "intro"))) = BROKEN_FILE /\
  state (validate docs_fs (docs_link "z.md" "a.md" None)) = MISSING_SOURCE.
Proof.
  split; [|split; [|split]].
  - apply (validate_precedence docs_fs (docs_link "b.md" "a.md" (Some "intro"))).
    split; [vm_compute; reflexivity|]. split; [vm_compute; reflexivity|]. right.
    exists (U "intro"), (U "# Intro").
    split; [vm_compute; reflexivity|]. split; [vm_compute; reflexivity|].
    vm_compute. apply list_elem_of_here.
  - apply (validate_precedence docs_fs (docs_link "b.md" "a.md" (Some "outro"))).
    split; [vm_compute; reflexivity|]. split; [vm_compute; reflexivity|].
    exists (U "outro"), (U "# Intro").
    split; [vm_compute; reflexivity|]. split; [vm_compute; reflexivity|].
    vm_compute. intros [E|E]%elem_of_cons; [discriminate|by apply elem_of_nil in E].
  - apply (validate_precedence docs_fs (docs_link "b.md" "c.md" (Some "intro"))).
    split; [vm_compute; reflexivity|]. left. vm_compute. reflexivity.
  - apply (validate_precedence docs_fs (docs_link "z.md" "a.md" None)).
    vm_compute. reflexivity.
Defined.

(** An installation that creates a directory and a file beside a file of
    the user's, and is rolled back. *)
Definition with_node (p : string) (n : node) (fs : filesystem) : filesystem :=
  {| nodes := <[U p := n]> (nodes fs); protected := protected fs |}.

Definition project_fs : filesystem :=
  {| nodes := {[ U "proj" := Dir; U "proj/notes.txt" := File (U "mine") ]};
     protected := ∅ |}.

Definition install_ops : list install_op :=
  [TrackDir (U "proj"); TrackFile (U "proj/notes.txt");
   TrackDir (U "proj/deck"); Change (with_node "proj/deck" Dir);
   TrackFile (U "proj/deck/README.md");
   Change (with_node "proj/deck/README.md" (File (U "# Deck")))].

Lemma rollback_spec_witness :
  let st := install project_fs install_ops in
  let after := fst (rollback (fst st) (snd st)) in
  (* the file and the directory that were created are gone *)
  nodes after !! U "proj/deck/README.md" = None /\
  nodes after !! U "proj/deck" = None /\
  (* the user's file was not tracked and is still there *)
  (U "proj/notes.txt" ∉ tracked (snd st)) /\
  nodes after !! U "proj/notes.txt" = Some (File (U "mine")).
Proof.
  cbv zeta.
  destruct (rollback_spec (fst (install project_fs install_ops))
                          (snd (install project_fs install_ops)))
    as (_ & Hfiles & Hdirs & _ & _ & _ & _ & Hkept).
  assert (Hreadme : deletable_file (fst (install project_fs install_ops))
                      (U "proj/deck/README.md")).
  { split; [|by vm_compute]. exists (File (U "# Deck")).
    split; [by vm_compute|discriminate]. }
  assert (Htracked : U "proj/deck/README.md"
                       ∈ created_files (snd (install project_fs install_ops))).
  { vm_compute. apply list_elem_of_here. }
  split; [by apply Hfiles|]. split.
  - apply Hdirs.
    + vm_compute. apply list_elem_of_here.
    + by vm_compute.
    + by vm_compute.
    + intros q Hne Hpar [n Hq].
      assert (H : map_Forall
                    (fun q _ => q = U "proj/deck" \/ parent q <> U "proj/deck"
                                \/ q = U "proj/deck/README.md")
                    (nodes (fst (install project_fs install_ops)))).
      { apply (bool_decide_unpack _). by vm_compute. }
      destruct (H q n Hq) as [Hq1|[Hq1|Hq1]]; [done|done|].
      by rewrite Hq1.
  - destruct (Hkept project_fs install_ops (U "proj/notes.txt")) as [Hnot Hsame].
    + cbn [existed_when_offered install_ops fs_after].
      split; [intros _; vm_compute; reflexivity|].
      split; [intros _; vm_compute; reflexivity|].
      split; [intros E; vm_compute in E; discriminate|].
      split; [exact I|].
      split; [intros E; vm_compute in E; discriminate|].
      split; [exact I|]. exact I.
    + split; [done|]. rewrite Hsame. by vm_compute.
Defined.

(** What that rollback does: the file, then the directory. *)
Example rollback_example :
  List.map snd (snd (rollback (fst (install project_fs install_ops))
                              (snd (install project_fs install_ops))))
  = [DeletedFile (U "proj/deck/README.md"); DeletedDir (U "proj/deck")].
Proof. vm_compute. reflexivity. Qed.

End Witnesses.

(** * Further properties of the code *)


Section CycleSearch.
Import conflict_detector.
Variable iter_order : gset str -> list str.
Variable graph : dict (gset str).

(** The loop over the neighbours of [dfs], with the recursive call as a
    parameter. *)
Fixpoint visit_with (call : str -> dfs_state -> option dfs_state)
    (path : list str) (neighbors : list str) (st : dfs_state)
    : option dfs_state :=
  match neighbors with
  | [] => Some st
  | neighbor :: rest =>
      let st' :=
        if bool_decide (neighbor ∉ visited st) then call neighbor st
        else if bool_decide (neighbor ∈ rec_stack st) then
          match index_of neighbor path with
          | Some cycle_start =>
              Some {| visited := visited st; rec_stack := rec_stack st;
                      cycles := cycles st ++ [drop cycle_start path ++ [neighbor]] |}
          | None => None
          end
        else Some st in
      match st' with
      | Some st' => visit_with call path rest st'
      | None => None
      end
  end.

Lemma dfs_unfold (fuel : nat) (node : str) (path : list str) (st : dfs_state) :
  dfs iter_order graph (S fuel) node path st =
    match visit_with (fun nb s => dfs iter_order graph fuel nb (path ++ [node]) s)
            (path ++ [node]) (iter_order (graph_get graph node))
            {| visited := {[node]} ∪ visited st;
               rec_stack := {[node]} ∪ rec_stack st;
               cycles := cycles st |} with
    | Some st' =>
        Some {| visited := visited st'; rec_stack := rec_stack st' ∖ {[node]};
                cycles := cycles st' |}
    | None => None
    end.
Proof.
  cbn [dfs].
  generalize ({| visited := {[node]} ∪ visited st;
                 rec_stack := {[node]} ∪ rec_stack st; cycles := cycles st |}).
  generalize (iter_order (graph_get graph node)).
  intros l. induction l as [|nb l IH]; intros s; [done|].
  cbn [visit_with].
  destruct (bool_decide (nb ∉ visited s)).
  - destruct (dfs iter_order graph fuel nb (path ++ [node]) s); [apply IH|done].
  - destruct (bool_decide (nb ∈ rec_stack s)); [|apply IH].
    destruct (index_of nb (path ++ [node])); [apply IH|done].
Qed.


(** [x] depends on [y]. *)
Definition edge (x y : str) : Prop := y ∈ graph_get graph x.

(** Every element depends on the next one. *)
Fixpoint is_walk (l : list str) : Prop :=
  match l with
  | [] => True
  | x :: l' => match l' with [] => True | y :: _ => edge x y end /\ is_walk l'
  end.

(** A path along dependencies that returns to where it started. *)
Definition closed_walk (c : list str) : Prop :=
  is_walk c /\ exists x mid, c = x :: mid ++ [x].

(** A node is finished when it has been visited and has left the stack. *)
Definition finished (st : dfs_state) (x : str) : Prop :=
  x ∈ visited st /\ x ∉ rec_stack st.

(** The finished nodes depend on finished nodes only and lie on no cycle. *)
Definition settled (st : dfs_state) : Prop :=
  forall x, finished st x ->
    (forall y, edge x y -> finished st y) /\ ~ tc edge x x.

Hypothesis iter_order_elem : forall s x, x ∈ iter_order s <-> x ∈ s.

Lemma dict_get_In {V} (k : str) (d : dict V) (v : V) :
  dict_get k d = Some v -> In (k, v) d.
Proof.
  induction d as [|[k' v'] d IH]; [done|]. cbn.
  destruct (str_eqb k k') eqn:E.
  - apply str_eqb_eq in E as ->. intros [= ->]. by left.
  - intros H. right. by apply IH.
Qed.

Lemma edge_nodes (x y : str) :
  edge x y -> x ∈ graph_nodes graph /\ y ∈ graph_nodes graph.
Proof.
  unfold edge, graph_get, graph_nodes. intros H.
  destruct (dict_get x graph) as [s|] eqn:E; [|set_solver].
  apply dict_get_In in E. cbn in H. split.
  - apply elem_of_union_l, elem_of_list_to_set, list_elem_of_In.
    unfold dict_keys. apply in_map_iff. by exists (x, s).
  - apply elem_of_union_r, elem_of_union_list. exists s. split; [|done].
    apply list_elem_of_In, in_map_iff. by exists (x, s).
Qed.

Lemma is_walk_app_edge (l : list str) (x y : str) :
  is_walk (l ++ [x]) -> edge x y -> is_walk ((l ++ [x]) ++ [y]).
Proof.
  induction l as [|a l IH]; cbn; [tauto|].
  intros [Ha Hl] Hxy. split; [|by apply IH].
  destruct l; cbn in *; done.
Qed.

Lemma is_walk_drop (n : nat) (l : list str) : is_walk l -> is_walk (drop n l).
Proof.
  revert l. induction n as [|n IH]; intros [|a l]; cbn; try done.
  intros [_ H]. by apply IH.
Qed.

Lemma index_of_spec (x : str) (l : list str) :
  x ∈ l -> exists i rest, index_of x l = Some i /\ drop i l = x :: rest.
Proof.
  induction l as [|a l IH]; [by intros ?%elem_of_nil|].
  intros Hx. cbn. destruct (str_eqb x a) eqn:E.
  - apply str_eqb_eq in E as ->. by exists 0, l.
  - apply elem_of_cons in Hx as [->|Hx]; [by rewrite str_eqb_refl in E|].
    destruct (IH Hx) as (i & rest & -> & Hd). by exists (S i), rest.
Qed.

Lemma last_drop_lt {A} (i : nat) (l : list A) :
  i < length l -> last (drop i l) = last l.
Proof.
  revert l. induction i as [|i IH]; intros [|a l] Hi; cbn in *; try lia; [done|].
  rewrite IH by lia. destruct l; [cbn in Hi; lia|done].
Qed.

(** The cycle the search emits when it meets a neighbour on the stack. *)
Lemma emitted_cycle (path : list str) (node nb : str) :
  is_walk (path ++ [node]) -> edge node nb -> nb ∈ path ++ [node] ->
  exists i, index_of nb (path ++ [node]) = Some i /\
            closed_walk (drop i (path ++ [node]) ++ [nb]).
Proof.
  intros Hw He Hin.
  destruct (index_of_spec nb _ Hin) as (i & rest & Hi & Hd).
  exists i. split; [done|].
  assert (Hlast : last (drop i (path ++ [node])) = Some node).
  { rewrite last_drop_lt; [by rewrite last_snoc|].
    apply (f_equal length) in Hd. rewrite length_drop in Hd. cbn in Hd. lia. }
  pose proof (is_walk_drop i _ Hw) as Hdw.
  apply last_Some in Hlast as [l El]. rewrite El in *.
  split.
  - by apply is_walk_app_edge.
  - destruct l as [|b l]; cbn in Hd.
    + injection Hd as ->. by exists nb, [].
    + injection Hd as -> _. by exists nb, (l ++ [node]).
Qed.


Lemma finished_rtc (st : dfs_state) (x y : str) :
  settled st -> rtc edge x y -> finished st x -> finished st y.
Proof.
  intros Hs. induction 1 as [|x y z Hxy _ IH]; [done|].
  intros Hx. apply IH. by apply (Hs x).
Qed.

(** What a part of the search does to the state: it only adds visited
    nodes, restores the stack, and appends cycles of the graph; and if it
    appends none, the finished nodes stay settled. *)
Definition searched (st st' : dfs_state) : Prop :=
  visited st ⊆ visited st' /\
  visited st' ⊆ graph_nodes graph /\
  rec_stack st' = rec_stack st /\
  exists new, cycles st' = cycles st ++ new /\ Forall closed_walk new /\
              (new = [] -> settled st -> settled st').

Lemma dfs_spec (fuel : nat) :
  forall (node : str) (path : list str) (st : dfs_state),
    node ∈ graph_nodes graph ->
    visited st ⊆ graph_nodes graph ->
    size (graph_nodes graph ∖ visited st) < fuel ->
    node ∉ visited st ->
    rec_stack st ⊆ visited st ->
    (forall x, x ∈ rec_stack st <-> x ∈ path) ->
    is_walk (path ++ [node]) ->
    exists st', dfs iter_order graph fuel node path st = Some st' /\
                node ∈ visited st' /\ searched st st'.
Proof.
  induction fuel as [|fuel IH]; intros node path st HnN HvN Hsize Hnv Hrv Hrp Hw;
    [lia|].
  rewrite dfs_unfold.
  set (st1 := {| visited := {[node]} ∪ visited st;
                 rec_stack := {[node]} ∪ rec_stack st; cycles := cycles st |}).
  assert (Hsize1 : forall s, visited st1 ⊆ visited s ->
                             size (graph_nodes graph ∖ visited s) < fuel).
  { intros s Hs.
    assert (graph_nodes graph ∖ visited s ⊂ graph_nodes graph ∖ visited st)
      as Hsub%subset_size; [|lia].
    cbn in Hs. set_solver. }
  assert (Hloop : forall nbs s,
             (forall y, y ∈ nbs -> edge node y) ->
             visited st1 ⊆ visited s -> visited s ⊆ graph_nodes graph ->
             rec_stack s = rec_stack st1 ->
             exists s',
               visit_with (fun nb s0 => dfs iter_order graph fuel nb (path ++ [node]) s0)
                          (path ++ [node]) nbs s = Some s' /\
               visited s ⊆ visited s' /\ visited s' ⊆ graph_nodes graph /\
               rec_stack s' = rec_stack s /\
               exists new, cycles s' = cycles s ++ new /\
                           Forall closed_walk new /\
                           (new = [] -> settled s ->
                            settled s' /\ forall y, y ∈ nbs -> finished s' y)).
  { induction nbs as [|nb nbs IHl]; intros s Hnbs Hvs HsN Hrs.
    { exists s. cbn. do 4 (split; [done|]).
      exists []. split; [by rewrite app_nil_r|]. split; [constructor|].
      intros _ Hs. split; [done|]. intros y Hy. by apply elem_of_nil in Hy. }
    assert (Henb : edge node nb) by (apply Hnbs; left).
    assert (Hrs' : forall x, x ∈ rec_stack s <-> x ∈ (path ++ [node])).
    { intros x. rewrite Hrs. cbn. rewrite elem_of_app, <- Hrp.
      set_solver. }
    cbn [visit_with]. case_bool_decide as Hv.
    - (* a neighbour not yet visited: the recursive call *)
      destruct (IH nb (path ++ [node]) s) as (s1 & -> & Hnb1 & Hv1 & H1N & Hr1 & new1 & Hc1 & Hw1 & Hk1).
      + by apply (edge_nodes node nb).
      + done.
      + by apply Hsize1.
      + done.
      + rewrite Hrs. cbn in *. set_solver.
      + done.
      + by apply is_walk_app_edge.
      + destruct (IHl s1) as (s2 & -> & Hv2 & H2N & Hr2 & new2 & Hc2 & Hw2 & Hk2).
        * intros y Hy. apply Hnbs. by right.
        * set_solver.
        * done.
        * congruence.
        * exists s2. split; [done|]. split; [set_solver|]. split; [done|].
          split; [congruence|].
          exists (new1 ++ new2). split; [by rewrite Hc2, Hc1, app_assoc|].
          split; [by apply Forall_app|].
          intros [-> ->]%app_eq_nil Hs.
          destruct (Hk2 eq_refl (Hk1 eq_refl Hs)) as [Hs2 Hf2].
          split; [done|]. intros y [->|Hy]%elem_of_cons; [|by apply Hf2].
          split; [set_solver|].
          rewrite Hr2, Hr1. intros Hin. apply Hv. cbn in *. set_solver.
    - case_bool_decide as Hr.
      + (* a neighbour on the stack: a cycle *)
        destruct (emitted_cycle path node nb Hw Henb) as (i & -> & Hcw);
          [by apply Hrs'|].
        set (s1 := {| visited := visited s; rec_stack := rec_stack s;
                      cycles := cycles s ++ _ |}).
        destruct (IHl s1) as (s2 & -> & Hv2 & H2N & Hr2 & new2 & Hc2 & Hw2 & Hk2).
        * intros y Hy. apply Hnbs. by right.
        * done.
        * done.
        * done.
        * exists s2. split; [done|]. split; [done|]. split; [done|].
          split; [done|].
          exists ((drop i (path ++ [node]) ++ [nb]) :: new2).
          split; [by rewrite Hc2; cbn; rewrite <- app_assoc|].
          split; [by constructor|]. done.
      + (* a neighbour already finished *)
        destruct (IHl s) as (s2 & -> & Hv2 & H2N & Hr2 & new2 & Hc2 & Hw2 & Hk2).
        * intros y Hy. apply Hnbs. by right.
        * done.
        * done.
        * done.
        * exists s2. split; [done|]. split; [done|]. split; [done|].
          split; [done|].
          exists new2. split; [done|]. split; [done|].
          intros -> Hs. destruct (Hk2 eq_refl Hs) as [Hs2 Hf2].
          split; [done|]. intros y [->|Hy]%elem_of_cons; [|by apply Hf2].
          split; [by apply Hv2|by rewrite Hr2]. }
  destruct (Hloop (iter_order (graph_get graph node)) st1)
    as (s' & -> & Hv' & H'N & Hr' & new & Hc & Hcw & Hk).
  - intros y Hy. by apply iter_order_elem in Hy.
  - done.
  - cbn. set_solver.
  - done.
  - eexists. split; [done|]. cbn [visited rec_stack cycles].
    split; [cbn in Hv'; set_solver|].
    split; [cbn in Hv'; set_solver|]. split; [done|].
    split; [rewrite Hr'; cbn; set_solver|].
    exists new. split; [done|]. split; [done|].
    intros -> Hs.
    assert (Hs1 : settled st1).
    { intros x [Hx1 Hx2]. cbn in Hx1, Hx2.
      assert (Hfx : finished st x) by (split; set_solver).
      destruct (Hs x Hfx) as [Hnx Hcx]. split; [|done].
      intros y Hy. destruct (Hnx y Hy) as [Hy1 Hy2].
      split; cbn; set_solver. }
    destruct (Hk eq_refl Hs1) as [Hs' Hf'].
    intros x [Hx1 Hx2]. cbn in Hx1, Hx2.
    destruct (decide (x = node)) as [->|Hne].
    + split.
      * intros y Hy. destruct (Hf' y) as [Hy1 Hy2]; [by apply iter_order_elem|].
        split; cbn; set_solver.
      * intros Htc.
        assert (Hfn : finished s' node).
        { inversion Htc as [? ? He|? y ? He Ht]; subst.
          - by apply Hf', iter_order_elem.
          - apply (finished_rtc s' y); [done|by apply tc_rtc|].
            by apply Hf', iter_order_elem. }
        destruct Hfn as [_ Hfn]. apply Hfn. rewrite Hr'. cbn. set_solver.
    + assert (Hfx : finished s' x).
      { split; [done|]. rewrite Hr'. cbn. set_solver. }
      destruct (Hs' x Hfx) as [Hnx Hcx]. split; [|done].
      intros y Hy. destruct (Hnx y Hy) as [Hy1 Hy2].
      split; cbn; set_solver.
Qed.


Lemma searched_refl (st : dfs_state) :
  visited st ⊆ graph_nodes graph -> searched st st.
Proof.
  intros H. split; [done|]. split; [done|]. split; [done|].
  exists []. by rewrite app_nil_r.
Qed.

Lemma searched_trans (st1 st2 st3 : dfs_state) :
  searched st1 st2 -> searched st2 st3 -> searched st1 st3.
Proof.
  intros (Hv1 & HN1 & Hr1 & new1 & Hc1 & Hw1 & Hk1)
         (Hv2 & HN2 & Hr2 & new2 & Hc2 & Hw2 & Hk2).
  split; [set_solver|]. split; [done|]. split; [congruence|].
  exists (new1 ++ new2). split; [by rewrite Hc2, Hc1, app_assoc|].
  split; [by apply Forall_app|].
  intros [-> ->]%app_eq_nil Hs. auto.
Qed.

Lemma dfs_all_spec (keys : list str) :
  forall st,
    (forall k, k ∈ keys -> k ∈ graph_nodes graph) ->
    visited st ⊆ graph_nodes graph ->
    rec_stack st = ∅ ->
    exists st',
      dfs_all iter_order graph (S (size (graph_nodes graph))) keys st = Some st' /\
      (forall k, k ∈ keys -> k ∈ visited st') /\ searched st st'.
Proof.
  induction keys as [|k keys IH]; intros st Hk HN Hr.
  { exists st. split; [done|]. split; [by intros k ?%elem_of_nil|].
    by apply searched_refl. }
  cbn [dfs_all]. case_bool_decide as Hv.
  - destruct (dfs_spec (S (size (graph_nodes graph))) k [] st)
      as (st1 & -> & Hk1 & Hs1).
    + apply Hk. by left.
    + done.
    + assert (size (graph_nodes graph ∖ visited st) <= size (graph_nodes graph));
        [apply subseteq_size; set_solver|lia].
    + done.
    + rewrite Hr. set_solver.
    + intros x. rewrite Hr. set_solver.
    + done.
    + destruct Hs1 as (Hv1 & HN1 & Hr1 & Hc1).
      destruct (IH st1) as (st2 & -> & Hk2 & Hs2).
      * intros k' Hk'. apply Hk. by right.
      * done.
      * congruence.
      * exists st2. split; [done|]. split.
        -- intros k' [->|Hk']%elem_of_cons; [|by apply Hk2].
           destruct Hs2 as (Hv2 & _). set_solver.
        -- by apply (searched_trans st st1 st2).
  - destruct (IH st) as (st2 & -> & Hk2 & Hs2).
    + intros k' Hk'. apply Hk. by right.
    + done.
    + done.
    + exists st2. split; [done|]. split; [|done].
      intros k' [->|Hk']%elem_of_cons; [|by apply Hk2].
      destruct Hs2 as (Hv2 & _). set_solver.
Qed.

Lemma is_walk_lookup (l : list str) (i : nat) (a b : str) :
  is_walk l -> l !! i = Some a -> l !! S i = Some b -> edge a b.
Proof.
  revert i. induction l as [|x l IH]; intros i Hw Ha Hb; [done|].
  destruct Hw as [Hx Hw]. destruct i as [|i].
  - cbn in Ha. injection Ha as ->. destruct l as [|y l]; [done|].
    cbn in Hb. by injection Hb as ->.
  - by apply (IH i).
Qed.

Lemma is_walk_tc (x y : str) (mid : list str) :
  is_walk (x :: mid ++ [y]) -> tc edge x y.
Proof.
  revert x. induction mid as [|a mid IH]; intros x; cbn.
  - intros [H _]. by apply tc_once.
  - intros [H Hw]. eapply tc_l; [exact H|]. by apply IH.
Qed.

Lemma closed_walk_tc (c : list str) : closed_walk c -> exists x, tc edge x x.
Proof.
  intros [Hw (x & mid & ->)]. exists x. by apply (is_walk_tc x x mid).
Qed.

Lemma edge_key (x y : str) : edge x y -> x ∈ dict_keys graph.
Proof.
  unfold edge, graph_get. intros H.
  destruct (dict_get x graph) as [s|] eqn:E; [|set_solver].
  apply dict_get_In in E. apply list_elem_of_In.
  unfold dict_keys. apply in_map_iff. by exists (x, s).
Qed.

(** The whole search, from the empty state. *)
Lemma search_spec :
  exists st,
    dfs_all iter_order graph (S (size (graph_nodes graph))) (dict_keys graph)
      {| visited := ∅; rec_stack := ∅; cycles := [] |} = Some st /\
    Forall closed_walk (cycles st) /\
    (cycles st = [] <-> forall x, ~ tc edge x x).
Proof.
  destruct (dfs_all_spec (dict_keys graph)
              {| visited := ∅; rec_stack := ∅; cycles := [] |})
    as (st & Hst & Hk & Hv & HN & Hr & new & Hc & Hw & Hs).
  - intros k Hk. unfold graph_nodes. set_solver.
  - cbn. set_solver.
  - done.
  - cbn in Hc, Hr. subst new. exists st. split; [done|]. split; [done|].
    split.
    + intros Hnil x Htc.
      assert (Hset : settled st).
      { apply Hs; [done|]. intros y [Hy _]. cbn in Hy. set_solver. }
      assert (Hx : x ∈ dict_keys graph).
      { inversion Htc; subst; by eapply edge_key. }
      destruct (Hset x) as [_ Hno]; [|done].
      split; [by apply Hk|]. rewrite Hr. set_solver.
    + intros Hacyclic. destruct (cycles st) as [|c l]; [done|].
      apply Forall_cons in Hw as [[x Hx]%closed_walk_tc _].
      by destruct (Hacyclic x).
Qed.

End CycleSearch.

Section CycleTheorems.
Import conflict_detector.

Lemma iter_order_elements (iter_order : gset str -> list str) :
  (forall s, Permutation (iter_order s) (elements s)) ->
  forall s x, x ∈ iter_order s <-> x ∈ s.
Proof.
  intros H s x. rewrite <- elem_of_elements.
  split; intros Hx; [by rewrite <- (H s)|by rewrite (H s)].
Qed.

(** On any dependency graph the search for cycles returns, and every cycle
    it reports is one of the graph: a list of names that starts and ends
    with the same name and in which every name has the next among its
    dependencies. *)
Theorem find_cycles_sound
    (iter_order : gset str -> list str) (graph : dict (gset str)) :
  (forall s, Permutation (iter_order s) (elements s)) ->
  exists reported,
    find_cycles iter_order graph = Some reported /\
    forall cycle, cycle ∈ reported ->
      (exists x mid, cycle = x :: mid ++ [x]) /\
      forall i a b, cycle !! i = Some a -> cycle !! S i = Some b ->
                    b ∈ graph_get graph a.
Proof.
  intros Hperm. unfold find_cycles.
  destruct (search_spec iter_order graph
              (iter_order_elements iter_order Hperm)) as (st & -> & Hw & _).
  exists (cycles st). split; [done|].
  intros cycle Hc. rewrite Forall_forall in Hw.
  destruct (Hw cycle Hc) as [Hwalk Hclosed]. split; [done|].
  intros i a b. by apply is_walk_lookup.
Qed.

(** The graph of two features that depend on each other. *)
Definition mutual_graph : dict (gset str) :=
  [(U "001-a", {[U "002-b"]}); (U "002-b", {[U "001-a"]})].

Lemma find_cycles_sound_witness :
  exists reported,
    find_cycles elements mutual_graph = Some reported /\
    forall cycle, cycle ∈ reported ->
      (exists x mid, cycle = x :: mid ++ [x]) /\
      forall i a b, cycle !! i = Some a -> cycle !! S i = Some b ->
                    b ∈ graph_get mutual_graph a.
Proof.
  apply (find_cycles_sound elements mutual_graph).
  reflexivity.
Defined.

(** The search reports no cycle exactly when no name of the graph reaches
    itself through a chain of dependencies. *)
Theorem find_cycles_complete
    (iter_order : gset str -> list str) (graph : dict (gset str)) :
  (forall s, Permutation (iter_order s) (elements s)) ->
  find_cycles iter_order graph = Some [] <->
  forall x, ~ tc (fun a b => b ∈ graph_get graph a) x x.
Proof.
  intros Hperm. unfold find_cycles.
  destruct (search_spec iter_order graph
              (iter_order_elements iter_order Hperm)) as (st & -> & _ & Hiff).
  cbn. rewrite <- Hiff. split; [by intros [= ->]|by intros ->].
Qed.

Lemma find_cycles_complete_witness :
  find_cycles elements mutual_graph = Some [] <->
  forall x, ~ tc (fun a b => b ∈ graph_get mutual_graph a) x x.
Proof.
  apply (find_cycles_complete elements mutual_graph).
  reflexivity.
Defined.

(** On that graph the search finds the one cycle. *)
Example find_cycles_mutual :
  find_cycles elements mutual_graph = Some [[U "001-a"; U "002-b"; U "001-a"]].
Proof. by vm_compute. Qed.

End CycleTheorems.


(** ** Versions *)

Section Digits.
Context {UD : Unicode} {DL : DecimalLaws UD}.
Import version_tracker.

Definition is_digit (c : char) : Prop := (48 <= c <= 57)%N.

Lemma mod10_digit (n : N) : (48 <= 48 + n mod 10 <= 57)%N.
Proof.
  pose proof (N.mod_upper_bound n 10 ltac:(lia)) as H.
  revert H. generalize (n mod 10)%N. intros x Hx. lia.
Qed.

Lemma digits_go_digits (fuel : nat) (n : N) (acc : str) :
  Forall is_digit acc -> Forall is_digit (digits_go fuel n acc).
Proof.
  revert n acc. induction fuel as [|fuel IH]; intros n acc Hacc; [done|].
  cbn [digits_go].
  assert (Hd : is_digit (48 + n mod 10)%N).
  { apply mod10_digit. }
  destruct (n <? 10)%N; [by constructor|]. apply IH. by constructor.
Qed.

Lemma digits_go_nonempty (fuel : nat) (n : N) (acc : str) :
  digits_go (S fuel) n acc <> [].
Proof.
  revert n acc. induction fuel as [|fuel IH]; intros n acc.
  - cbn. by destruct (n <? 10)%N.
  - change (digits_go (S (S fuel)) n acc)
      with (if (n <? 10)%N then (48 + n mod 10)%N :: acc
            else digits_go (S fuel) (n / 10) ((48 + n mod 10)%N :: acc)).
    destruct (n <? 10)%N; [done|apply IH].
Qed.

Definition digit_step (acc : N) (c : char) : N := (10 * acc + todecimal c)%N.

Lemma int_of_fold (s : str) : int_of s = fold_left digit_step s 0%N.
Proof. reflexivity. Qed.

Lemma digits_go_value (fuel : nat) (n : N) (acc : str) :
  (n < 2 ^ N.of_nat fuel)%N ->
  fold_left digit_step (digits_go fuel n acc) 0%N = fold_left digit_step acc n.
Proof.
  revert n acc. induction fuel as [|fuel IH]; intros n acc Hn.
  - cbn in *. by replace n with 0%N by lia.
  - cbn [digits_go].
    assert (Hd : todecimal (48 + n mod 10)%N = (n mod 10)%N).
    { rewrite digit_todecimal by apply mod10_digit.
      generalize (n mod 10)%N. intros x. lia. }
    destruct (N.ltb_spec n 10) as [Hlt|Hge].
    + cbn [fold_left]. unfold digit_step at 2. rewrite Hd.
      by rewrite N.mod_small by done.
    + rewrite IH.
      * cbn [fold_left]. unfold digit_step at 2. rewrite Hd.
        f_equal. rewrite (N.div_mod n 10) at 3 by lia. lia.
      * rewrite Nat2N.inj_succ, N.pow_succ_r' in Hn.
        apply N.Div0.div_lt_upper_bound. lia.
Qed.

Lemma str_of_N_digits (n : N) : Forall is_digit (str_of_N n).
Proof. by apply digits_go_digits. Qed.

Lemma str_of_N_nonempty (n : N) : str_of_N n <> [].
Proof. apply digits_go_nonempty. Qed.

Lemma int_of_str_of_N (n : N) : int_of (str_of_N n) = n.
Proof.
  rewrite int_of_fold. unfold str_of_N. rewrite digits_go_value; [done|].
  rewrite Nat2N.inj_succ, N2Nat.id.
  destruct n as [|p]; [done|].
  apply N.log2_lt_pow2; lia.
Qed.

End Digits.

(** ** What a successful match consumed *)

Section EngineSound.
Context {UD : Unicode}.
Variable fl : flags.

Definition advance (st : mstate) (x : char) (rest : str) : mstate :=
  {| before := x :: before st; after := rest; groups := groups st |}.

Definition with_group (n : nat) (st st' : mstate) : mstate :=
  {| before := before st'; after := after st';
     groups := (n, consumed st st') :: groups st' |}.

(** [matches r st st']: from position [st] the pattern [r] can take the
    matcher to position [st']. *)
Inductive matches : regex -> mstate -> mstate -> Prop :=
| matches_eps st : matches REps st st
| matches_lit c st x rest :
    after st = x :: rest -> lit_match fl c x = true ->
    matches (RLit c) st (advance st x rest)
| matches_set negated items st x rest :
    after st = x :: rest -> set_match fl negated items x = true ->
    matches (RSet negated items) st (advance st x rest)
| matches_any st x rest :
    after st = x :: rest -> (x =? c_newline)%N = false ->
    matches RAny st (advance st x rest)
| matches_seq r1 r2 st st1 st2 :
    matches r1 st st1 -> matches r2 st1 st2 -> matches (RSeq r1 r2) st st2
| matches_alt_l r1 r2 st st' : matches r1 st st' -> matches (RAlt r1 r2) st st'
| matches_alt_r r1 r2 st st' : matches r2 st st' -> matches (RAlt r1 r2) st st'
| matches_star_stop r st : matches (RStar r) st st
| matches_star_more r st st1 st2 :
    matches r st st1 -> matches (RStar r) st1 st2 -> matches (RStar r) st st2
| matches_group n r st st' :
    matches r st st' -> matches (RGroup n r) st (with_group n st st')
| matches_bol st : at_bol fl st = true -> matches RBol st st
| matches_eol st : at_eol fl st = true -> matches REol st st
| matches_wordb st : at_word_boundary st = true -> matches RWordB st st.

Lemma step_char_sound (p : char -> bool) (st : mstate)
    (k : mstate -> option mstate) (m : mstate) :
  step_char p st k = Some m ->
  exists x rest, after st = x :: rest /\ p x = true /\
                 k (advance st x rest) = Some m.
Proof.
  unfold step_char. destruct (after st) as [|x rest]; [done|].
  destruct (p x) eqn:E; [|done]. intros H. by exists x, rest.
Qed.

Lemma star_loop_sound (r : regex) :
  (forall st k m, rmatch fl r st k = Some m ->
                  exists st', matches r st st' /\ k st' = Some m) ->
  forall n st k m,
    star_loop (rmatch fl r) k n st = Some m ->
    exists st', matches (RStar r) st st' /\ k st' = Some m.
Proof.
  intros IHr n. induction n as [|n IHn]; intros st k m H.
  - exists st. split; [constructor|done].
  - cbn [star_loop] in H.
    destruct (rmatch fl r st _) as [m'|] eqn:E.
    + injection H as ->. apply IHr in E as (st1 & H1 & Hk).
      destruct (_ <? _); [|done].
      apply IHn in Hk as (st2 & H2 & Hk). exists st2.
      split; [by econstructor|done].
    + exists st. split; [constructor|done].
Qed.

(** Whatever the matcher accepts, the pattern matches: the continuation
    was called at a position the pattern leads to. *)
Lemma rmatch_sound (r : regex) :
  forall st k m,
    rmatch fl r st k = Some m ->
    exists st', matches r st st' /\ k st' = Some m.
Proof.
  induction r as [|c|negated items| |r1 IH1 r2 IH2|r1 IH1 r2 IH2|r IH|n r IH| | |];
    intros st k m H; cbn [rmatch] in H.
  - exists st. split; [constructor|done].
  - apply step_char_sound in H as (x & rest & Ha & Hp & Hk).
    eexists. split; [by econstructor|done].
  - apply step_char_sound in H as (x & rest & Ha & Hp & Hk).
    eexists. split; [by econstructor|done].
  - apply step_char_sound in H as (x & rest & Ha & Hp & Hk).
    eexists. split; [econstructor; [done|]|done].
    by apply negb_true_iff.
  - apply IH1 in H as (st1 & H1 & H). apply IH2 in H as (st2 & H2 & H).
    exists st2. split; [by econstructor|done].
  - destruct (rmatch fl r1 st k) as [m'|] eqn:E.
    + injection H as ->. apply IH1 in E as (st' & H1 & Hk).
      exists st'. split; [by apply matches_alt_l|done].
    + apply IH2 in H as (st' & H2 & Hk).
      exists st'. split; [by apply matches_alt_r|done].
  - by apply (star_loop_sound r IH) in H.
  - apply IH in H as (st' & H1 & Hk).
    eexists. split; [by econstructor|done].
  - destruct (at_bol fl st) eqn:E; [|done].
    exists st. split; [by constructor|done].
  - destruct (at_eol fl st) eqn:E; [|done].
    exists st. split; [by constructor|done].
  - destruct (at_word_boundary st) eqn:E; [|done].
    exists st. split; [by constructor|done].
Qed.

(** A match moves forward in one subject: the text it consumed goes from
    [after] to [before], and the groups it captured are added in front. *)
Lemma matches_subject (r : regex) (st st' : mstate) :
  matches r st st' ->
  exists w new,
    after st = w ++ after st' /\ before st' = rev w ++ before st /\
    groups st' = new ++ groups st.
Proof.
  induction 1 as [st|c st x rest Ha _|negated items st x rest Ha _
                  |st x rest Ha _
                  |r1 r2 st st1 st2 _ IH1 _ IH2|r1 r2 st st' _ IH
                  |r1 r2 st st' _ IH|r st|r st st1 st2 _ IH1 _ IH2
                  |n r st st' _ IH|st _|st _|st _];
    try (by exists [], []).
  - exists [x], []. by rewrite Ha.
  - exists [x], []. by rewrite Ha.
  - exists [x], []. by rewrite Ha.
  - destruct IH1 as (w1 & n1 & Ha1 & Hb1 & Hg1).
    destruct IH2 as (w2 & n2 & Ha2 & Hb2 & Hg2).
    exists (w1 ++ w2), (n2 ++ n1).
    rewrite Ha1, Ha2, Hb2, Hb1, Hg2, Hg1, rev_app_distr, !app_assoc. done.
  - done.
  - done.
  - destruct IH1 as (w1 & n1 & Ha1 & Hb1 & Hg1).
    destruct IH2 as (w2 & n2 & Ha2 & Hb2 & Hg2).
    exists (w1 ++ w2), (n2 ++ n1).
    rewrite Ha1, Ha2, Hb2, Hb1, Hg2, Hg1, rev_app_distr, !app_assoc. done.
  - destruct IH as (w & new & Ha & Hb & Hg).
    exists w, ((n, consumed st st') :: new). cbn. by rewrite Hg.
Qed.

End EngineSound.

Section VersionProofs.
Context {UD : Unicode}.
Import version_tracker.

Lemma set_match_digit (c : char) :
  set_match no_flags false [CDigit] c = isdecimal c.
Proof. unfold set_match, item_match. cbn. by rewrite !orb_false_r. Qed.

Lemma char_regex_digit : char_regex no_flags r_digit isdecimal.
Proof.
  intros st k. cbn [rmatch r_digit]. unfold step_char.
  destruct (after st) as [|x rest]; [done|]. by rewrite set_match_digit.
Qed.

Lemma lit_match_plain (c x : char) : lit_match no_flags c x = (x =? c)%N.
Proof. unfold lit_match. cbn. by rewrite orb_false_r. Qed.

Lemma consumed_app (st st' : mstate) (w : str) :
  after st = w ++ after st' -> consumed st st' = w.
Proof.
  intros H. unfold consumed. rewrite H, length_app.
  replace (length w + length (after st') - length (after st')) with (length w)
    by lia.
  by rewrite take_app_length.
Qed.

(** A group of one or more digits, followed by something that is not a
    digit, takes all the digits. *)
Lemma rmatch_digits (n : nat) (c : char) (run rest bef : str)
    (g : list (nat * str)) (k : mstate -> option mstate) (m : mstate) :
  isdecimal c = true -> forallb isdecimal run = true ->
  match rest with [] => True | d :: _ => isdecimal d = false end ->
  k {| before := rev run ++ c :: bef; after := rest;
       groups := (n, c :: run) :: g |} = Some m ->
  rmatch no_flags (RGroup n (RPlus r_digit))
    {| before := bef; after := c :: run ++ rest; groups := g |} k = Some m.
Proof.
  intros Hc Hrun Hrest Hk. cbn [rmatch RPlus].
  rewrite char_regex_digit. unfold step_char. cbn [after before groups].
  rewrite Hc.
  apply (star_loop_run no_flags r_digit isdecimal _ m char_regex_digit);
    [done|done|done|].
  cbn [before after groups].
  rewrite (consumed_app _ _ (c :: run)); [done|]. done.
Qed.

Definition dot : str := [46%N].

(** The strings of the shape digits.digits.digits, with the newline that
    [$] tolerates at the end. *)
Definition well_formed (s d1 d2 d3 : str) : Prop :=
  (s = d1 ++ dot ++ d2 ++ dot ++ d3 \/
   s = d1 ++ dot ++ d2 ++ dot ++ d3 ++ [c_newline]) /\
  d1 <> [] /\ d2 <> [] /\ d3 <> [] /\
  forallb isdecimal d1 = true /\ forallb isdecimal d2 = true /\
  forallb isdecimal d3 = true.

Lemma version_pattern_accepts `{!DecimalLaws UD} (s d1 d2 d3 : str) :
  well_formed s d1 d2 d3 ->
  exists m, re_match_ no_flags VERSION_PATTERN s = Some m /\
            m_groups m = [(3, d3); (2, d2); (1, d1)].
Proof.
  intros (Hs & H1 & H2 & H3 & Hd1 & Hd2 & Hd3).
  destruct d1 as [|c1 d1]; [done|]. destruct d2 as [|c2 d2]; [done|].
  destruct d3 as [|c3 d3]; [done|].
  cbn in Hd1, Hd2, Hd3.
  apply andb_true_iff in Hd1 as [Hc1 Hd1].
  apply andb_true_iff in Hd2 as [Hc2 Hd2].
  apply andb_true_iff in Hd3 as [Hc3 Hd3].
  assert (Hgen : forall tail,
             (tail = [] \/ tail = [c_newline]) ->
             exists m,
               re_match_ no_flags VERSION_PATTERN
                 ((c1 :: d1) ++ dot ++ (c2 :: d2) ++ dot ++ (c3 :: d3) ++ tail)
               = Some m /\
               m_groups m = [(3, c3 :: d3); (2, c2 :: d2); (1, c1 :: d1)]).
  { intros tail Htail.
    assert (Hseq : forall r1 r2 st k,
               rmatch no_flags (RSeq r1 r2) st k
               = rmatch no_flags r1 st (fun st' => rmatch no_flags r2 st' k))
      by reflexivity.
    assert (Hlit : forall bef aft g k,
               rmatch no_flags (RLit 46) {| before := bef; after := 46%N :: aft; groups := g |} k
               = k {| before := 46%N :: bef; after := aft; groups := g |}).
    { intros. cbn [rmatch]. unfold step_char. cbn [after before groups].
      by rewrite lit_match_plain. }
    assert (Hm : exists bef,
               match_at no_flags VERSION_PATTERN []
                 ((c1 :: d1) ++ dot ++ (c2 :: d2) ++ dot ++ (c3 :: d3) ++ tail)
                 false
               = Some {| before := bef; after := tail;
                         groups := [(3, c3 :: d3); (2, c2 :: d2); (1, c1 :: d1)] |}).
    { eexists. unfold match_at, VERSION_PATTERN, dot. cbn [RSeqs app].
      rewrite Hseq. change (rmatch no_flags RBol ?st ?k) with (k st). cbv beta.
      rewrite Hseq.
      apply rmatch_digits; [done|done|exact dot_not_decimal|].
      cbv beta. unfold dot. cbn [app]. rewrite Hseq, Hlit, Hseq.
      apply rmatch_digits; [done|done|exact dot_not_decimal|].
      cbv beta. unfold dot. cbn [app]. rewrite Hseq, Hlit, Hseq.
      apply rmatch_digits; [done|done| |].
      { destruct Htail as [->| ->]; [done|exact newline_not_decimal]. }
      cbn [rmatch]. unfold at_eol. cbn [after andb].
      destruct Htail as [->| ->]; reflexivity. }
    destruct Hm as [bef Hm]. unfold re_match_. rewrite Hm.
    eexists. split; reflexivity. }
  destruct Hs as [->| ->].
  - specialize (Hgen [] (or_introl eq_refl)). by rewrite app_nil_r in Hgen.
  - apply (Hgen [c_newline]). by right.
Qed.


Lemma matches_star_digits (st st' : mstate) :
  matches no_flags (RStar r_digit) st st' ->
  exists run, forallb isdecimal run = true /\
              after st = run ++ after st' /\
              before st' = rev run ++ before st /\
              groups st' = groups st.
Proof.
  remember (RStar r_digit) as r eqn:Er. intros H.
  induction H as [| | | | | | |r0 st|r0 st st1 st2 H1 _ H2 IH2| | | |];
    try discriminate.
  - by exists [].
  - injection Er as ->. destruct (IH2 eq_refl) as (run & Hrun & Ha & Hb & Hg).
    inversion H1 as [| |negated items st0 x rest Hx Hp| | | | | | | | | |]; subst.
    rewrite set_match_digit in Hp.
    exists (x :: run). cbn in *. rewrite Hp, Hrun, Hx, Ha, Hb, Hg.
    by rewrite <- app_assoc.
Qed.

Lemma matches_digits (n : nat) (st st' : mstate) :
  matches no_flags (RGroup n (RPlus r_digit)) st st' ->
  exists c run, isdecimal c = true /\ forallb isdecimal run = true /\
                after st = c :: run ++ after st' /\
                before st' = rev run ++ c :: before st /\
                groups st' = (n, c :: run) :: groups st.
Proof.
  intros H. inversion H as [| | | | | | | | |n0 r0 st0 st1 Hp| | |]; subst.
  inversion Hp as [| | | |r1 r2 st0 sa sb Hd Hs| | | | | | | |]; subst.
  apply matches_star_digits in Hs as (run & Hrun & Ha & Hb & Hg).
  inversion Hd as [| |negated items st0 x rest Hx Hpx| | | | | | | | | |]; subst.
  rewrite set_match_digit in Hpx. cbn in Ha, Hb, Hg.
  exists x, run. cbn [with_group after before groups].
  rewrite (consumed_app st st1 (x :: run)) by (rewrite Hx, Ha; done).
  rewrite Hx, Ha, Hb, Hg. done.
Qed.

Lemma matches_dot (st st' : mstate) :
  matches no_flags (RLit 46) st st' ->
  after st = 46%N :: after st' /\ before st' = 46%N :: before st /\
  groups st' = groups st.
Proof.
  intros H. inversion H as [|c st0 x rest Hx Hp| | | | | | | | | | |]; subst.
  rewrite lit_match_plain in Hp. apply N.eqb_eq in Hp as ->. by cbn.
Qed.

Lemma forallb_cons_true {A} (p : A -> bool) (x : A) (l : list A) :
  p x = true -> forallb p l = true -> forallb p (x :: l) = true.
Proof. intros H1 H2. cbn. by rewrite H1, H2. Qed.

Lemma version_pattern_accepted (s : str) (m : re_match) :
  re_match_ no_flags VERSION_PATTERN s = Some m ->
  exists d1 d2 d3, well_formed s d1 d2 d3 /\
                   m_groups m = [(3, d3); (2, d2); (1, d1)].
Proof.
  unfold re_match_, match_at. cbn [andb].
  destruct (rmatch _ _ _ _) as [st'|] eqn:E; [|done].
  intros [= <-].
  apply rmatch_sound in E as (st & Hm & [= ->]).
  unfold VERSION_PATTERN in Hm. cbn [RSeqs] in Hm.
  inversion Hm as [| | | |? ? ? s0 ? Hbol H1| | | | | | | |]; subst. clear Hm.
  inversion Hbol; subst. clear Hbol.
  inversion H1 as [| | | |? ? ? s1 ? Hg1 H2| | | | | | | |]; subst. clear H1.
  inversion H2 as [| | | |? ? ? s2 ? Hdot1 H3| | | | | | | |]; subst. clear H2.
  inversion H3 as [| | | |? ? ? s3 ? Hg2 H4| | | | | | | |]; subst. clear H3.
  inversion H4 as [| | | |? ? ? s4 ? Hdot2 H5| | | | | | | |]; subst. clear H4.
  inversion H5 as [| | | |? ? ? s5 ? Hg3 Heol| | | | | | | |]; subst. clear H5.
  inversion Heol as [| | | | | | | | | | |? Hend|]; subst. clear Heol.
  apply matches_digits in Hg1 as (c1 & r1 & Hc1 & Hr1 & Ha1 & Hb1 & Hgr1).
  apply matches_dot in Hdot1 as (Ha2 & Hb2 & Hgr2).
  apply matches_digits in Hg2 as (c2 & r2 & Hc2 & Hr2 & Ha3 & Hb3 & Hgr3).
  apply matches_dot in Hdot2 as (Ha4 & Hb4 & Hgr4).
  apply matches_digits in Hg3 as (c3 & r3 & Hc3 & Hr3 & Ha5 & Hb5 & Hgr5).
  cbn [after before groups] in *.
  exists (c1 :: r1), (c2 :: r2), (c3 :: r3).
  split.
  - split; [|by repeat split; try done; apply forallb_cons_true].
    rewrite Ha1, Ha2, Ha3, Ha4, Ha5. unfold dot.
    unfold at_eol in Hend. cbn in Hend.
    destruct (after st') as [|x [|y rest]]; cbn in Hend.
    + left. by rewrite app_nil_r.
    + right. apply andb_true_iff in Hend as [->%N.eqb_eq _]. done.
    + by rewrite andb_false_r in Hend.
  - cbn. by rewrite Hgr5, Hgr4, Hgr3, Hgr2, Hgr1.
Qed.

End VersionProofs.

Section VersionTheorems.
Context {UD : Unicode} {DL : DecimalLaws UD}.
Import version_tracker.

Lemma group_strs (m : re_match) (d1 d2 d3 : str) :
  m_groups m = [(3, d3); (2, d2); (1, d1)] ->
  group_str 1 m = d1 /\ group_str 2 m = d2 /\ group_str 3 m = d3.
Proof. unfold group_str, group. by intros ->. Qed.

Lemma parse_version_accepts (s d1 d2 d3 : str) :
  well_formed s d1 d2 d3 ->
  parse_version s = Ok (int_of d1, int_of d2, int_of d3).
Proof.
  intros H. destruct (version_pattern_accepts s d1 d2 d3 H) as (m & Hm & Hg).
  unfold parse_version. rewrite Hm.
  by destruct (group_strs m d1 d2 d3 Hg) as (-> & -> & ->).
Qed.

(** [parse_version] accepts exactly the strings made of three non-empty
    runs of decimal digits separated by full stops, optionally followed by
    one line feed, and returns the values of the three runs. *)
Theorem parse_version_spec (s : str) (t : N * N * N) :
  parse_version s = Ok t <->
  exists d1 d2 d3,
    well_formed s d1 d2 d3 /\ t = (int_of d1, int_of d2, int_of d3).
Proof.
  split.
  - unfold parse_version.
    destruct (re_match_ no_flags VERSION_PATTERN s) as [m|] eqn:E; [|done].
    intros [= <-].
    destruct (version_pattern_accepted s m E) as (d1 & d2 & d3 & Hw & Hg).
    exists d1, d2, d3. split; [done|].
    by destruct (group_strs m d1 d2 d3 Hg) as (-> & -> & ->).
  - intros (d1 & d2 & d3 & Hw & ->). by apply parse_version_accepts.
Qed.

Lemma str_of_N_decimal (n : N) : forallb isdecimal (str_of_N n) = true.
Proof.
  apply forallb_forall. intros c Hc.
  pose proof (str_of_N_digits n) as H. rewrite Forall_forall in H.
  apply digit_isdecimal, H. by apply list_elem_of_In.
Qed.

(** [f"{a}.{b}.{c}"] *)
Definition format_version (a b c : N) : str :=
  str_of_N a ++ dot ++ str_of_N b ++ dot ++ str_of_N c.

Lemma parse_format_version (a b c : N) :
  parse_version (format_version a b c) = Ok (a, b, c).
Proof.
  rewrite (parse_version_accepts _ (str_of_N a) (str_of_N b) (str_of_N c)).
  - by rewrite !int_of_str_of_N.
  - split; [by left|].
    repeat split; try apply str_of_N_nonempty; apply str_of_N_decimal.
Qed.

Lemma bump_version_format (v : str) (bump_type : BumpType) (a b c : N) :
  parse_version v = Ok (a, b, c) ->
  bump_version v bump_type =
    Ok match bump_type with
       | MAJOR => format_version (a + 1) 0 0
       | MINOR => format_version a (b + 1) 0
       | PATCH => format_version a b (c + 1)
       end.
Proof.
  intros H. unfold bump_version. rewrite H. by destruct bump_type.
Qed.

(** Bumping a version the tracker accepts gives a version it accepts, with
    the components the bump type prescribes, and one that
    [compare_versions] ranks strictly above the old one. *)
Theorem bump_version_increases (v : str) (bump_type : BumpType)
    (major minor patch : N) :
  parse_version v = Ok (major, minor, patch) ->
  exists v',
    bump_version v bump_type = Ok v' /\
    parse_version v' =
      Ok match bump_type with
         | MAJOR => (major + 1, 0, 0)
         | MINOR => (major, minor + 1, 0)
         | PATCH => (major, minor, patch + 1)
         end%N /\
    compare_versions v v' = Ok (-1)%Z /\
    compare_versions v' v = Ok 1%Z.
Proof.
  intros H. eexists. split; [by apply bump_version_format|].
  assert (Hp : parse_version
                 match bump_type with
                 | MAJOR => format_version (major + 1) 0 0
                 | MINOR => format_version major (minor + 1) 0
                 | PATCH => format_version major minor (patch + 1)
                 end
               = Ok match bump_type with
                    | MAJOR => (major + 1, 0, 0)
                    | MINOR => (major, minor + 1, 0)
                    | PATCH => (major, minor, patch + 1)
                    end%N).
  { destruct bump_type; apply parse_format_version. }
  split; [done|].
  unfold compare_versions. rewrite H, Hp.
  destruct bump_type; unfold tuple_ltb.
  - rewrite (proj2 (N.ltb_lt major (major + 1))) by lia. cbn [orb].
    rewrite (proj2 (N.ltb_ge (major + 1) major)) by lia.
    rewrite (proj2 (N.eqb_neq (major + 1) major)) by lia. done.
  - rewrite N.ltb_irrefl, N.eqb_refl.
    rewrite (proj2 (N.ltb_lt minor (minor + 1))) by lia. cbn [orb andb].
    rewrite (proj2 (N.ltb_ge (minor + 1) minor)) by lia.
    rewrite (proj2 (N.eqb_neq (minor + 1) minor)) by lia. done.
  - rewrite !N.ltb_irrefl, !N.eqb_refl.
    rewrite (proj2 (N.ltb_lt patch (patch + 1))) by lia. cbn [orb andb].
    rewrite (proj2 (N.ltb_ge (patch + 1) patch)) by lia. done.
Qed.

End VersionTheorems.

Section VersionExamples.
Import version_tracker.

#[export] Instance ucd_decimal : DecimalLaws ucd.
Proof.
  split.
  - intros c [H1 H2]. cbn. unfold ascii_digit, in_range.
    apply andb_true_iff. split; by apply N.leb_le.
  - done.
  - done.
  - done.
Qed.

Lemma parse_version_spec_witness :
  parse_version (U "1.2.3") = Ok (1, 2, 3)%N <->
  exists d1 d2 d3,
    well_formed (U "1.2.3") d1 d2 d3 /\
    (1, 2, 3)%N = (int_of d1, int_of d2, int_of d3).
Proof. apply (parse_version_spec (U "1.2.3") (1, 2, 3)%N). Defined.

Lemma bump_version_increases_witness :
  exists v',
    bump_version (U "1.9.3") MINOR = Ok v' /\
    parse_version v' = Ok (1, 9 + 1, 0)%N /\
    compare_versions (U "1.9.3") v' = Ok (-1)%Z /\
    compare_versions v' (U "1.9.3") = Ok 1%Z.
Proof.
  apply (bump_version_increases (U "1.9.3") MINOR 1 9 3). reflexivity.
Defined.

End VersionExamples.


(** ** Frontmatter *)

Section FrontmatterProofs.
Import version_tracker.

Lemma startswith_app (p rest : str) : startswith p (p ++ rest) = true.
Proof. induction p as [|c p IH]; [done|]. cbn. by rewrite N.eqb_refl. Qed.

Lemma contains_cons_false (sub : str) (c : char) (s : str) :
  contains sub (c :: s) = false ->
  startswith sub (c :: s) = false /\ contains sub s = false.
Proof. cbn [contains]. by intros [? ?]%orb_false_iff. Qed.

Lemma find_go_eq (sub s : str) (i : nat) :
  find_go sub s i =
    if startswith sub s then Some i
    else match s with [] => None | _ :: s' => find_go sub s' (S i) end.
Proof. by destruct s. Qed.

(** The closing delimiter is found right after a text in which, once a
    line feed is added, it does not occur. *)
Lemma find_go_delimiter (a rest : str) (i : nat) :
  contains delimiter_nl (a ++ [c_newline]) = false ->
  find_go delimiter_nl (a ++ delimiter_nl ++ rest) i = Some (i + length a).
Proof.
  revert i. induction a as [|c a IH]; intros i Ha.
  - cbn [app length]. rewrite Nat.add_0_r.
    by rewrite find_go_eq, startswith_app.
  - cbn [app] in Ha. apply contains_cons_false in Ha as [Hs Ha].
    cbn [app]. rewrite find_go_eq.
    replace (startswith delimiter_nl (c :: a ++ delimiter_nl ++ rest)) with false.
    + rewrite IH by done. cbn [length]. f_equal. lia.
    + symmetry. revert Hs. unfold delimiter_nl, c_newline. cbn [U app].
      change (List.map N_of_ascii (list_ascii_of_string "---")) with [45; 45; 45]%N.
      cbn [app].
      destruct a as [|a1 [|a2 [|a3 [|a4 a]]]]; cbn [app startswith];
        repeat match goal with
               | |- context [(?x =? ?y)%N] =>
                   destruct (x =? y)%N; cbn [andb]
               end; done.
Qed.


Lemma ymap_get_set (k : str) (v : yaml_value)
    (entries : list (yaml_value * yaml_value)) :
  ymap_get k (ymap_set k v entries) = Some v.
Proof.
  unfold ymap_get. induction entries as [|kv rest IH]; cbn.
  - unfold is_key. cbn. by rewrite str_eqb_refl.
  - destruct (is_key k kv) eqn:E; cbn.
    + unfold is_key in *. cbn. by rewrite E.
    + by rewrite E.
Qed.

Lemma read_write_text (fs fs' : filesystem) (p : path) (text : str) :
  write_text fs p text = Ok fs' ->
  read_text fs' p = Ok text /\ path_exists fs' p = true /\
  forall q, q <> p -> nodes fs' !! q = nodes fs !! q.
Proof.
  unfold write_text.
  assert (H : forall fs0, fs0 = {| nodes := <[p:=File text]> (nodes fs);
                                  protected := protected fs |} ->
                          read_text fs0 p = Ok text /\ path_exists fs0 p = true /\
                          forall q, q <> p -> nodes fs0 !! q = nodes fs !! q).
  { intros fs0 ->. unfold read_text, path_exists. cbn.
    rewrite lookup_insert_eq. split; [done|]. split.
    - by apply bool_decide_eq_true_2.
    - intros q Hq. by rewrite lookup_insert_ne. }
  destruct (nodes fs !! p) as [[| |]|]; try done;
    case_bool_decide; try done; intros [= <-]; by apply H.
Qed.

Section Update.
Context {UD : Unicode} {Y : PyYAML}.

(** A successful [update_version_in_frontmatter] rewrites the file as the
    opening delimiter, the dumped frontmatter with the new version, the
    closing delimiter and the text that followed the old closing delimiter;
    it touches no other path; and when the dumped frontmatter ends with a
    line feed, has no line [---] and loads back, the version then
    extracted from the file is the new one. *)
Theorem update_version_then_extract (fs fs' : filesystem) (file_path : path)
    (new_version : str) :
  update_version_in_frontmatter fs file_path new_version = Ok fs' ->
  exists content end_delimiter frontmatter,
    read_text fs file_path = Ok content /\
    find_end_delimiter content = Some end_delimiter /\
    safe_load (slice content 4 end_delimiter) = Ok (YMap frontmatter) /\
    let updated := YMap (ymap_set (U "version") (YStr new_version) frontmatter) in
    read_text fs' file_path =
      Ok (opening ++ dump updated ++ opening
            ++ drop (end_delimiter + 5) content) /\
    (forall q, q <> file_path -> nodes fs' !! q = nodes fs !! q) /\
    (forall text,
        dump updated = text ++ [c_newline] ->
        contains delimiter_nl (dump updated) = false ->
        safe_load text = Ok updated ->
        extract_version_from_frontmatter fs' file_path = Some new_version).
Proof.
  unfold update_version_in_frontmatter.
  destruct (path_exists fs file_path) eqn:Hex; [|done]. cbn [negb].
  destruct (read_text fs file_path) as [content|] eqn:Hread; [|done].
  destruct (startswith opening content) eqn:Hstart; [|done]. cbn [negb].
  destruct (find_end_delimiter content) as [e|] eqn:Hfind; [|done].
  destruct (safe_load (slice content 4 e)) as [[|frontmatter]|] eqn:Hload;
    [done| |done].
  destruct (ymap_get (U "version") frontmatter) eqn:Hget; [|done].
  intros Hwrite.
  apply read_write_text in Hwrite as (Hread' & Hex' & Hother).
  exists content, e, frontmatter. do 3 (split; [done|]).
  cbn zeta. split; [done|]. split; [done|].
  intros text Hdump Hnone Hback.
  unfold extract_version_from_frontmatter.
  rewrite Hex', Hread'. cbn [negb].
  rewrite startswith_app. cbn [negb].
  set (rest := drop (e + 5) content).
  assert (Hfind' : find_end_delimiter
                     (opening ++ dump (YMap (ymap_set (U "version") (YStr new_version) frontmatter))
                        ++ opening ++ rest)
                   = Some (4 + length text)).
  { unfold find_end_delimiter, str_find. rewrite Hdump in *.
    replace (length _ <? 4) with false
      by (symmetry; apply Nat.ltb_ge; rewrite length_app; cbn; lia).
    change (drop 4 (opening ++ ?x)) with x.
    rewrite <- app_assoc.
    change ([c_newline] ++ opening ++ rest) with (delimiter_nl ++ rest).
    by rewrite find_go_delimiter. }
  rewrite Hfind'. unfold slice.
  change (drop 4 (opening ++ ?x)) with x.
  rewrite Hdump, <- app_assoc.
  replace (4 + length text - 4) with (length text) by lia.
  rewrite take_app_length, Hback, ymap_get_set. done.
Qed.

End Update.

End FrontmatterProofs.

Section FrontmatterExample.
Import version_tracker plain_yaml.

Definition updated_deck_fs : filesystem :=
  match update_version_in_frontmatter deck_fs deck_path (U "1.0.1") with
  | Ok fs' => fs'
  | Raise _ => deck_fs
  end.

Lemma update_version_then_extract_witness :
  (exists content end_delimiter frontmatter,
    read_text deck_fs deck_path = Ok content /\
    find_end_delimiter content = Some end_delimiter /\
    safe_load (slice content 4 end_delimiter) = Ok (YMap frontmatter) /\
    let updated := YMap (ymap_set (U "version") (YStr (U "1.0.1")) frontmatter) in
    read_text updated_deck_fs deck_path =
      Ok (opening ++ dump updated ++ opening
            ++ drop (end_delimiter + 5) content) /\
    (forall q, q <> deck_path ->
               nodes updated_deck_fs !! q = nodes deck_fs !! q) /\
    (forall text,
        dump updated = text ++ [c_newline] ->
        contains delimiter_nl (dump updated) = false ->
        safe_load text = Ok updated ->
        extract_version_from_frontmatter updated_deck_fs deck_path
        = Some (U "1.0.1"))) /\
  extract_version_from_frontmatter updated_deck_fs deck_path = Some (U "1.0.1").
Proof.
  pose proof (update_version_then_extract deck_fs updated_deck_fs deck_path
                (U "1.0.1") eq_refl) as H.
  split; [exact H|].
  destruct H as (content & e & frontmatter & Hread & Hfind & Hload & _ & _ & H).
  vm_compute in Hread. injection Hread as <-.
  vm_compute in Hfind. injection Hfind as <-.
  vm_compute in Hload. injection Hload as <-.
  apply (H (U "version: 1.0.1")); vm_compute; reflexivity.
Defined.

End FrontmatterExample.


(** ** Sections and heading ids *)

Section SectionProofs.
Import markdown_parser traceability.
Context {UD : Unicode} {MD : MarkdownIt}.

(** The headings of a token stream, in order: for every [heading_open]
    token its level and line, and the text and the slug of the inline token
    that follows it. *)
Fixpoint headings (tokens : list Token) : list heading_info :=
  match tokens with
  | [] => []
  | token :: rest =>
      if str_eqb (ttype token) (U "heading_open")
      then {| h_level := heading_level (tag token);
              h_title := next_inline rest;
              h_section_id := _heading_to_id (next_inline rest);
              h_line_start := map_start token |} :: headings rest
      else headings rest
  end.

(** The heading a section was built from. *)
Definition heading_of (s : MarkdownSection) : heading_info :=
  {| h_level := level s; h_title := title s; h_section_id := section_id s;
     h_line_start := line_start s |}.

Lemma heading_of_build (h : heading_info) (content_lines : list str) :
  heading_of (_build_section h content_lines) = h.
Proof. by destruct h. Qed.

Lemma sections_go_headings (lines : list str) (tokens : list Token) :
  forall current_heading current_content_lines,
    List.map heading_of
      (sections_go lines tokens current_heading current_content_lines)
    = match current_heading with Some h => [h] | None => [] end
        ++ headings tokens.
Proof.
  induction tokens as [|token rest IH]; intros cur cl; cbn [sections_go headings].
  - destruct cur; cbn; [by rewrite heading_of_build|done].
  - destruct (str_eqb (ttype token) (U "heading_open")).
    + destruct cur; cbn [List.map]; rewrite IH; [by rewrite heading_of_build|done].
    + destruct cur, (map token) as [[? ?]|]; by rewrite IH.
Qed.

Lemma dict_get_set_eq {V} (k : str) (v : V) (d : dict V) :
  dict_get k (dict_set k v d) = Some v.
Proof.
  induction d as [|[k' v'] d IH]; cbn; [by rewrite str_eqb_refl|].
  destruct (str_eqb k k') eqn:E; cbn; [by rewrite str_eqb_refl|by rewrite E].
Qed.

Lemma dict_get_set_ne {V} (k k' : str) (v : V) (d : dict V) :
  k <> k' -> dict_get k (dict_set k' v d) = dict_get k d.
Proof.
  intros Hne. induction d as [|[k0 v0] d IH]; cbn.
  - by rewrite str_eqb_ne.
  - destruct (str_eqb k' k0) eqn:E; cbn.
    + apply str_eqb_eq in E as <-. by rewrite !str_eqb_ne.
    + by rewrite IH.
Qed.

Definition has_id (section : str) (h : heading_info) : bool :=
  str_eqb (h_section_id h) section.

Lemma heading_ids_go_get (section : str) (tokens : list Token) :
  forall heading_ids,
    dict_get section (heading_ids_go tokens heading_ids)
    = match last (List.filter (has_id section) (headings tokens)) with
      | Some h => Some (h_line_start h)
      | None => dict_get section heading_ids
      end.
Proof.
  induction tokens as [|token rest IH]; intros ids; cbn [heading_ids_go headings];
    [done|].
  destruct (str_eqb (ttype token) (U "heading_open")); [|apply IH].
  rewrite IH. cbn [List.filter]. unfold has_id at 2. cbn [h_section_id].
  destruct (str_eqb (_heading_to_id (next_inline rest)) section) eqn:E.
  - apply str_eqb_eq in E as <-.
    destruct (List.filter _ (headings rest)) as [|h l] eqn:El.
    + cbn. by rewrite dict_get_set_eq.
    + rewrite last_cons_cons.
      destruct (last (h :: l)) eqn:E2; [done|]. by apply last_None in E2.
  - destruct (last _); [done|]. apply dict_get_set_ne.
    intros ->. by rewrite str_eqb_refl in E.
Qed.

Lemma dict_mem_get {V} (k : str) (d : dict V) :
  dict_mem k d = true <-> is_Some (dict_get k d).
Proof.
  induction d as [|[k' v'] d IH]; cbn.
  - split; [done|by intros [? ?]].
  - destruct (str_eqb k k'); cbn; [by split; eauto|done].
Qed.

Lemma last_filter_is_Some {A} (p : A -> bool) (l : list A) :
  is_Some (last (List.filter p l)) <-> is_Some (List.find p l).
Proof.
  induction l as [|x l IH]; cbn; [done|].
  destruct (p x); [|exact IH]. split; [by eauto|]. intros _.
  by apply last_is_Some.
Qed.

Lemma find_map_heading (section : str) (l : list MarkdownSection) :
  is_Some (List.find (fun s => str_eqb (section_id s) section) l)
  <-> is_Some (List.find (has_id section) (List.map heading_of l)).
Proof.
  induction l as [|s l IH]; cbn; [done|]. unfold has_id at 1. cbn.
  by destruct (str_eqb (section_id s) section).
Qed.

(** A slug is a key of the heading index exactly when some section carries
    it. *)
Lemma heading_id_iff_section (content section : str) :
  dict_mem section (extract_heading_ids content) = true <->
  is_Some (List.find (fun s => str_eqb (section_id s) section)
                     (extract_sections content)).
Proof.
  rewrite dict_mem_get. unfold extract_heading_ids, extract_sections.
  rewrite heading_ids_go_get, find_map_heading, sections_go_headings.
  cbn [app dict_get]. rewrite <- last_filter_is_Some.
  destruct (last _); split; try done; by eauto.
Qed.


(** [extract_sections] returns one section per heading of the token
    stream, in document order, with that heading's level, title, slug and
    line. *)
Theorem extract_sections_one_per_heading (content : str) :
  List.map heading_of (extract_sections content) = headings (md_parse content).
Proof. unfold extract_sections. by rewrite sections_go_headings. Qed.

(** The heading index has the slugs of the headings as its keys, and maps
    a slug that several headings share to the line of the last of them. *)
Theorem extract_heading_ids_last_wins (content section : str) :
  dict_get section (extract_heading_ids content)
  = h_line_start <$>
      last (List.filter (has_id section) (headings (md_parse content))) /\
  (section ∈ dict_keys (extract_heading_ids content) <->
   exists h, h ∈ headings (md_parse content) /\ h_section_id h = section).
Proof.
  assert (Hget : dict_get section (extract_heading_ids content)
                 = h_line_start <$>
                     last (List.filter (has_id section)
                                       (headings (md_parse content)))).
  { unfold extract_heading_ids. rewrite heading_ids_go_get.
    by destruct (last _). }
  split; [done|].
  rewrite <- dict_mem_keys, dict_mem_get, Hget, fmap_is_Some, last_is_Some.
  split.
  - intros Hne.
    destruct (List.filter _ _) as [|h l] eqn:E; [done|].
    assert (Hin : In h (List.filter (has_id section) (headings (md_parse content))))
      by (rewrite E; by left).
    apply filter_In in Hin as [Hin Hid]. exists h.
    split; [by apply list_elem_of_In|by apply str_eqb_eq].
  - intros (h & Hin & Hid) E.
    assert (Hf : In h (List.filter (has_id section) (headings (md_parse content)))).
    { apply filter_In. split; [by apply list_elem_of_In|by apply str_eqb_eq]. }
    by rewrite E in Hf.
Qed.

(** For a link that names a section and whose source file exists,
    [get_target] returns content exactly when [validate] finds the link
    valid. *)
Theorem get_target_iff_valid (fs : filesystem) (l : TraceabilityLink)
    (section : str) :
  specified_section l = Some section ->
  path_exists fs (source_file l) = true ->
  is_Some (get_target fs l) <-> state (validate fs l) = VALID.
Proof.
  intros Hsec Hsrc. unfold get_target, validate. rewrite Hsrc, Hsec. cbn [negb].
  destruct (path_exists fs (target_file l)); cbn [negb];
    [|split; [by intros [? ?]|done]].
  destruct (parse_file fs (target_file l)) as [content|e];
    [|split; [by intros [? ?]|done]].
  rewrite fmap_is_Some, <- heading_id_iff_section.
  destruct (dict_mem section (extract_heading_ids content)); cbn; by split.
Qed.

End SectionProofs.

Section SectionExamples.
Import markdown_parser traceability commonmark.

Lemma get_target_iff_valid_witness :
  is_Some (get_target docs_fs (docs_link "b.md" "a.md" (Some "intro"))) <->
  state (validate docs_fs (docs_link "b.md" "a.md" (Some "intro"))) = VALID.
Proof.
  apply (get_target_iff_valid docs_fs (docs_link "b.md" "a.md" (Some "intro"))
           (U "intro")); reflexivity.
Defined.

End SectionExamples.


(** ** The shape of slugs and kebab-case names *)

Section ShapeProofs.

Lemma strip_by_head (p : char -> bool) (s : str) :
  match strip_by p s with [] => True | c :: _ => p c = false end.
Proof.
  unfold strip_by.
  destruct (rstrip_by_prefix p (lstrip_by p s)) as [l Hl].
  pose proof (lstrip_by_head p s) as Hh. rewrite Hl in Hh.
  by destruct (rstrip_by p (lstrip_by p s)).
Qed.

Lemma last_rev_head {A} (l : list A) : last (rev l) = head l.
Proof. destruct l as [|x l]; [done|]. cbn. by rewrite last_snoc. Qed.

Lemma strip_by_last (p : char -> bool) (s : str) :
  match last (strip_by p s) with None => True | Some c => p c = false end.
Proof.
  unfold strip_by, rstrip_by. rewrite last_rev_head.
  pose proof (lstrip_by_head p (rev (lstrip_by p s))) as Hh.
  by destruct (lstrip_by p (rev (lstrip_by p s))).
Qed.

Lemma isolated_no_double (P : char -> bool) (c0 : char) (s : str) :
  P c0 = true -> isolated P c0 s -> contains [c0; c0] s = false.
Proof.
  intros H0. induction s as [|c s IH]; [done|]. intros [Hc Hs].
  cbn [contains]. rewrite (IH Hs), orb_false_r. cbn [startswith].
  destruct (N.eqb_spec c0 c) as [<-|]; [|done].
  destruct (Hc H0) as [_ Hn]. destruct s as [|d s]; [done|]. cbn.
  destruct (N.eqb_spec c0 d) as [<-|]; [congruence|done].
Qed.

Lemma isolated_forall (P : char -> bool) (c0 : char) (s : str) :
  isolated P c0 s -> Forall (fun c => P c = true -> c = c0) s.
Proof.
  induction s as [|c s IH]; [constructor|]. intros [Hc Hs].
  constructor; [|by apply IH]. intros Pc. by destruct (Hc Pc).
Qed.

Definition word_or_hyphen {UD : Unicode} (c : char) : Prop :=
  isword c = true \/ c = c_hyphen.

(** What both normalisers guarantee of their result. *)
Definition hyphenated (t : str) : Prop :=
  contains (U "--") t = false /\
  head t <> Some c_hyphen /\ last t <> Some c_hyphen.

Lemma hyphenated_strip (P : char -> bool) (u : str) :
  P c_hyphen = true -> isolated P c_hyphen u ->
  hyphenated (strip_by is_hyphen u).
Proof.
  intros HP Hiso. split; [|split].
  - apply (isolated_no_double P c_hyphen); [done|by apply isolated_strip_by].
  - pose proof (strip_by_head is_hyphen u) as H.
    destruct (strip_by is_hyphen u) as [|c t]; [done|]. cbn. intros [= ->].
    by unfold is_hyphen in H; rewrite N.eqb_refl in H.
  - pose proof (strip_by_last is_hyphen u) as H.
    destruct (last (strip_by is_hyphen u)) as [c|]; [|done]. intros [= ->].
    by unfold is_hyphen in H; rewrite N.eqb_refl in H.
Qed.

Context {UD : Unicode} {UL : UnicodeLaws UD}.

(** A slug consists of word characters and hyphens, with no white space,
    no two hyphens in a row and no hyphen at either end, and lower-casing
    leaves it as it is. *)
Theorem heading_to_id_shape (s : str) :
  let t := _heading_to_id s in
  Forall word_or_hyphen t /\
  Forall (fun c => isspace c = false) t /\
  hyphenated t /\
  lower t = t.
Proof.
  cbn zeta. rewrite (heading_to_id_unfold s).
  set (u := collapse_go hyphen_or_space [c_hyphen] false
              (List.filter keep (lower s))).
  assert (Hiso : isolated hyphen_or_space c_hyphen u)
    by apply collapse_go_isolated.
  assert (Hhyp : hyphen_or_space c_hyphen = true)
    by (unfold hyphen_or_space; by rewrite N.eqb_refl).
  assert (Hword : Forall word_or_hyphen (strip_by is_hyphen u)).
  { apply Forall_strip_by, Forall_collapse_go_out; [by right|].
    apply Forall_forall. intros c Hc%list_elem_of_In%filter_In Hout.
    destruct Hc as [_ Hk]. unfold keep in Hk. unfold hyphen_or_space in Hout.
    apply orb_false_iff in Hout as [Hh Hsp]. rewrite Hh, Hsp, !orb_false_r in Hk.
    by left. }
  split; [done|]. split; [|split].
  - apply isolated_strip_by with (p := is_hyphen) in Hiso.
    apply isolated_forall in Hiso.
    eapply Forall_impl; [exact Hiso|]. intros c Hc. cbn in Hc.
    destruct (isspace c) eqn:E; [|done].
    rewrite Hc in E; [by rewrite hyphen_not_space in E|].
    unfold hyphen_or_space. by rewrite E, orb_true_r.
  - by apply (hyphenated_strip hyphen_or_space).
  - unfold lower. apply do_lower_stable.
    apply Forall_strip_by, Forall_collapse_go; [apply hyphen_stable|].
    apply Forall_filter_sub, lower_all_stable.
Qed.

(** A kebab-case name has no two hyphens in a row and no hyphen at either
    end, and lower-casing leaves it as it is; when the word characters of
    the input lower-case to word characters, it consists of word characters
    and hyphens. *)
Theorem to_kebab_case_shape (s : str) :
  let t := _to_kebab_case s in
  hyphenated t /\
  lower t = t /\
  (forallb lowers_to_words s = true -> Forall word_or_hyphen t).
Proof.
  cbn zeta. rewrite (to_kebab_case_unfold s).
  set (u := collapse_go isspace [c_hyphen] false (List.filter keep s)).
  split; [|split].
  - apply (hyphenated_strip is_hyphen).
    + unfold is_hyphen. by rewrite N.eqb_refl.
    + apply collapse_go_isolated.
  - unfold lower at 1. apply do_lower_stable.
    apply Forall_strip_by, Forall_collapse_go; [apply hyphen_stable|].
    apply lower_all_stable.
  - intros Hs. apply Forall_strip_by, Forall_collapse_go; [by right|].
    apply do_lower_chars. apply Forall_collapse_go_out.
    + intros d. unfold lower_outputs. cbn. rewrite lower_hyphen.
      intros [<-|[]]. by right.
    + apply Forall_forall. intros c Hc%list_elem_of_In%filter_In Hsp d Hd.
      destruct Hc as [Hin Hk].
      unfold keep in Hk. rewrite Hsp, orb_false_r in Hk.
      apply orb_true_iff in Hk as [Hw|Hh%N.eqb_eq].
      * left. rewrite forallb_forall in Hs.
        specialize (Hs c Hin).
        unfold lowers_to_words in Hs. rewrite Hw in Hs. cbn in Hs.
        rewrite forallb_forall in Hs. by apply Hs.
      * subst c. unfold lower_outputs in Hd. cbn in Hd.
        rewrite lower_hyphen in Hd. destruct Hd as [<-|[]]. by right.
Qed.

End ShapeProofs.

Section ShapeExamples.

Lemma heading_to_id_shape_witness :
  let t := _heading_to_id (U "What's the  Problem?") in
  Forall word_or_hyphen t /\
  Forall (fun c => isspace c = false) t /\
  hyphenated t /\
  lower t = t.
Proof. apply (heading_to_id_shape (U "What's the  Problem?")). Defined.

Lemma to_kebab_case_shape_witness :
  let t := _to_kebab_case (U "User  Management --") in
  hyphenated t /\
  lower t = t /\
  (forallb lowers_to_words (U "User  Management --") = true ->
   Forall word_or_hyphen t).
Proof. apply (to_kebab_case_shape (U "User  Management --")). Defined.

End ShapeExamples.


(** ** Validation summaries *)

Section SummaryProofs.
Import traceability link_validator.
Context {L : Type}.

Definition in_state (s : LinkValidationState) (lr : L * LinkValidationResult)
    : bool :=
  match state (snd lr), s with
  | VALID, VALID | BROKEN_FILE, BROKEN_FILE
  | BROKEN_SECTION, BROKEN_SECTION | MISSING_SOURCE, MISSING_SOURCE => true
  | _, _ => false
  end.

(** The number of results in state [s]. *)
Definition count (s : LinkValidationState)
    (results : list (L * LinkValidationResult)) : nat :=
  length (List.filter (in_state s) results).

Definition summary_of (a b c d : nat) : dict nat :=
  [(U "valid", a); (U "broken_file", b); (U "broken_section", c);
   (U "missing_source", d)].

Lemma increment_summary (s : LinkValidationState) (a b c d : nat) :
  increment (state_key s) (summary_of a b c d) =
    Some match s with
         | VALID => summary_of (S a) b c d
         | BROKEN_FILE => summary_of a (S b) c d
         | BROKEN_SECTION => summary_of a b (S c) d
         | MISSING_SOURCE => summary_of a b c (S d)
         end.
Proof. destruct s; vm_compute; reflexivity. Qed.

Lemma count_states_summary (results : list (L * LinkValidationResult)) :
  forall a b c d,
    count_states results (summary_of a b c d) =
      Some (summary_of (a + count VALID results)
                       (b + count BROKEN_FILE results)
                       (c + count BROKEN_SECTION results)
                       (d + count MISSING_SOURCE results)).
Proof.
  induction results as [|[l r] results IH]; intros a b c d.
  - cbn. by rewrite !Nat.add_0_r.
  - cbn [count_states]. rewrite increment_summary.
    destruct r as [[] msg sug]; cbn [state]; rewrite IH; unfold count;
      cbn [List.filter in_state state snd length];
      by rewrite ?Nat.add_succ_r.
Qed.

Lemma count_total (results : list (L * LinkValidationResult)) :
  count VALID results + count BROKEN_FILE results
    + count BROKEN_SECTION results + count MISSING_SOURCE results
  = length results.
Proof.
  unfold count. induction results as [|[l [[] msg sug]] results IH]; [done| | | |];
    cbn [List.filter in_state state snd length]; lia.
Qed.

Lemma broken_count (results : list (L * LinkValidationResult)) :
  length (get_broken_links results) + count VALID results = length results.
Proof.
  unfold get_broken_links, count.
  induction results as [|[l [[] msg sug]] results IH]; [done| | | |];
    cbn [List.filter in_state state snd length]; lia.
Qed.

(** The summary never fails on a missing key; it has the four keys, in
    the order [valid], [broken_file], [broken_section], [missing_source],
    each with the number of results in that state; the four numbers add up
    to the number of results, and the broken links are the results that are
    not counted as valid. *)
Theorem get_validation_summary_counts
    (results : list (L * LinkValidationResult)) :
  get_validation_summary results =
    Some [(U "valid", count VALID results);
          (U "broken_file", count BROKEN_FILE results);
          (U "broken_section", count BROKEN_SECTION results);
          (U "missing_source", count MISSING_SOURCE results)] /\
  count VALID results + count BROKEN_FILE results
    + count BROKEN_SECTION results + count MISSING_SOURCE results
  = length results /\
  length (get_broken_links results) + count VALID results = length results /\
  get_broken_links (get_broken_links results) = get_broken_links results.
Proof.
  split; [|split; [apply count_total|split; [apply broken_count|]]].
  - unfold get_validation_summary.
    apply (count_states_summary results 0 0 0 0).
  - unfold get_broken_links.
    induction results as [|[l [[] msg sug]] results IH]; [done| | | |];
      cbn [List.filter state snd]; by rewrite ?IH.
Qed.

End SummaryProofs.


(** ** Checklists *)

Section CompletionProofs.
Import checklist.

Lemma percent_bounds (k n : Z) :
  (0 <= k <= n)%Z -> (0 < n)%Z ->
  let q := (inject_Z k / inject_Z n * 100)%Q in
  (0 <= q)%Q /\ (q <= 100)%Q /\ (q == 100 <-> k = n)%Q /\ (q == 0 <-> k = 0%Z)%Q.
Proof.
  intros Hk Hn. cbn zeta.
  destruct n as [|n|n]; try lia.
  unfold Qdiv, Qmult, Qinv, Qle, Qeq, inject_Z. cbn.
  repeat split; intros; nia.
Qed.

Lemma filter_length_all {A} (p : A -> bool) (l : list A) :
  length (List.filter p l) = length l <-> forallb p l = true.
Proof.
  induction l as [|x l IH]; cbn; [done|].
  pose proof (filter_length_le p l) as Hle.
  destruct (p x); cbn; [by rewrite <- IH; lia|]. split; [lia|done].
Qed.

Lemma filter_length_none {A} (p : A -> bool) (l : list A) :
  length (List.filter p l) = 0 <-> forallb (fun x => negb (p x)) l = true.
Proof.
  induction l as [|x l IH]; cbn; [done|].
  destruct (p x); cbn; [done|exact IH].
Qed.

(** The completion is a percentage: between 0 and 100; 100 exactly when
    the checklist has items and all of them are checked; 0 exactly when no
    item is checked. *)
Theorem calculate_completion_bounds (self : Checklist) :
  exists q,
    calculate_completion self = Some q /\
    (0 <= q)%Q /\ (q <= 100)%Q /\
    ((q == 100)%Q <->
       items self <> [] /\ forallb is_checked (items self) = true) /\
    ((q == 0)%Q <->
       forallb (fun item => negb (is_checked item)) (items self) = true).
Proof.
  unfold calculate_completion.
  destruct (items self) as [|item rest] eqn:E.
  { exists 0%Q. do 3 (split; [done|]). split.
    - split; [intros H; discriminate H|by intros [? _]].
    - by split. }
  rewrite <- E. rewrite truediv_nonzero by (rewrite E; cbn; lia).
  eexists. split; [done|].
  pose proof (filter_length_le is_checked (items self)) as Hle.
  destruct (percent_bounds (checked_count (items self))
              (Z.of_nat (length (items self)))) as (H0 & H100 & Hall & Hnone).
  - unfold checked_count. lia.
  - rewrite E. cbn. lia.
  - split; [done|]. split; [done|]. split.
    + rewrite Hall. unfold checked_count. rewrite <- filter_length_all.
      split; [intros H; split; [by rewrite E|lia]|intros [_ H]; lia].
    + rewrite Hnone. unfold checked_count. rewrite <- filter_length_none. lia.
Qed.

End CompletionProofs.

Section StringFacts.

Lemma lstrip_by_app_stop (p : char -> bool) (l r : str) (c : char) :
  p c = false -> lstrip_by p (l ++ c :: r) = lstrip_by p l ++ c :: r.
Proof.
  intros Hc. induction l as [|x l IH]; cbn; [by rewrite Hc|].
  by destruct (p x).
Qed.

Lemma rstrip_by_app_stop (p : char -> bool) (a b : str) (c : char) :
  p c = false -> rstrip_by p (a ++ c :: b) = a ++ c :: rstrip_by p b.
Proof.
  intros Hc. unfold rstrip_by. rewrite rev_app_distr. cbn [rev].
  rewrite <- app_assoc. cbn [app]. rewrite lstrip_by_app_stop by done.
  rewrite rev_app_distr. cbn [rev]. rewrite rev_involutive.
  by rewrite <- app_assoc.
Qed.

Lemma contains_app_l (sub a b : str) :
  contains sub a = true -> contains sub (a ++ b) = true.
Proof.
  assert (Hs : forall p s t, startswith p s = true -> startswith p (s ++ t) = true).
  { induction p as [|x p IH]; intros [|y s] t; cbn; try done.
    intros [-> H]%andb_true_iff. by rewrite (IH s t H). }
  induction a as [|x a IH]; cbn [contains app].
  - rewrite orb_false_r. intros H. destruct sub; [|done].
    by destruct b.
  - intros [H|H]%orb_true_iff.
    + change (x :: a ++ b) with ((x :: a) ++ b). by rewrite Hs.
    + rewrite (IH H). by rewrite orb_true_r.
Qed.

Lemma contains_needs (a b c : char) (s : str) :
  Forall (fun x => x <> b) s -> contains [a; b; c] s = false.
Proof.
  induction 1 as [|x s Hx Hs IH]; [done|].
  cbn [contains]. rewrite IH, orb_false_r. cbn [startswith].
  destruct s as [|y s]; [by rewrite andb_false_r|].
  apply Forall_cons in Hs as [Hy _].
  destruct (N.eqb_spec b y); [congruence|]. by rewrite andb_false_r.
Qed.

Lemma split_char_go_no_sep (sep : char) (cur_rev l : str) :
  Forall (fun x => x <> sep) l ->
  forall rest,
    split_char_go sep cur_rev (l ++ sep :: rest)
    = (rev cur_rev ++ l) :: split_char_go sep [] rest.
Proof.
  intros H. revert cur_rev. induction H as [|x l Hx Hl IH]; intros cur_rev rest.
  - cbn. by rewrite N.eqb_refl, app_nil_r.
  - cbn [app split_char_go]. destruct (N.eqb_spec x sep); [done|].
    rewrite IH. cbn [rev]. by rewrite <- app_assoc.
Qed.

Lemma split_char_go_last (sep : char) (cur_rev l : str) :
  Forall (fun x => x <> sep) l ->
  split_char_go sep cur_rev l = [rev cur_rev ++ l].
Proof.
  intros H. revert cur_rev. induction H as [|x l Hx Hl IH]; intros cur_rev.
  - cbn. by rewrite app_nil_r.
  - cbn [split_char_go]. destruct (N.eqb_spec x sep); [done|].
    rewrite IH. cbn [rev]. by rewrite <- app_assoc.
Qed.

(** Splitting what was joined gives the lines back. *)
Lemma split_char_join (sep : char) (lines : list str) :
  lines <> [] ->
  Forall (Forall (fun x => x <> sep)) lines ->
  split_char sep (join [sep] lines) = lines.
Proof.
  intros Hne H. unfold split_char.
  induction H as [|l lines Hl Hlines IH]; [done|].
  destruct lines as [|l' lines].
  - cbn [join]. by rewrite split_char_go_last.
  - change (join [sep] (l :: l' :: lines))
      with (l ++ sep :: join [sep] (l' :: lines)).
    rewrite split_char_go_no_sep by done. cbn [rev app]. f_equal. by apply IH.
Qed.

End StringFacts.

Section ParseProofs.
Import checklist.
Context {UD : Unicode} {UL : UnicodeLaws UD} {AL : AsciiLaws UD}.

Local Open Scope N_scope.

Lemma lower_ucs4_ascii (bef aft : str) (c : char) :
  c < 128 -> lower_ucs4 bef c aft = ucd_lower_full c.
Proof.
  intros Hc. unfold lower_ucs4.
  destruct (N.eqb_spec c c_SIGMA) as [->|_]; [unfold c_SIGMA in Hc; lia|].
  by apply ascii_lower_full.
Qed.

Lemma space_isspace : isspace 32 = true.
Proof. by rewrite ascii_isspace. Qed.

Lemma bracket_not_space : isspace 93 = false.
Proof. by rewrite ascii_isspace. Qed.

Lemma no_capital_x (bef s : str) : Forall (fun x => x <> 88) (do_lower bef s).
Proof.
  eapply Forall_impl; [apply lower_all_stable|].
  intros c [Hc _] ->. rewrite ascii_lower_full in Hc by done. done.
Qed.

Local Close Scope N_scope.

(** The line of an item, lower-cased. *)
Lemma lower_to_markdown (item : ChecklistItem) :
  exists rest,
    lower (to_markdown item)
    = U "- " ++ (if is_checked item then U "[x]" else U "[ ]") ++ U " " ++ rest.
Proof.
  unfold lower, to_markdown.
  destruct (is_checked item); cbn [U app List.map list_ascii_of_string do_lower];
    rewrite !lower_ucs4_ascii by done; eexists; reflexivity.
Qed.

Definition parsed (st : parse_state) (item : ChecklistItem) : ChecklistItem :=
  {| item_id := U "CHK" ++ format_03d (item_counter st);
     description := strip (description item);
     is_checked :=
       is_checked item || contains (U "[x]") (lower (to_markdown item));
     category := current_category st |}.

Lemma strip_space (s : str) : strip (U " " ++ s) = strip s.
Proof.
  unfold strip, strip_by. cbn [U app List.map list_ascii_of_string lstrip_by].
  change (N_of_ascii " ") with 32%N. by rewrite space_isspace.
Qed.

(** Reading back the line written for one item. *)
Lemma parse_line_to_markdown (st : parse_state) (item : ChecklistItem) :
  (is_checked item = true -> contains (U "- [ ]") (description item) = false) ->
  parse_line st (to_markdown item) =
    Some {| current_category := current_category st;
            parsed_items := parsed_items st ++ [parsed st item];
            item_counter := item_counter st + 1 |}.
Proof.
  intros Hbox. unfold parse_line.
  assert (Hhead : startswith (U "## ") (to_markdown item) = false)
    by (unfold to_markdown; by destruct (is_checked item)).
  rewrite Hhead.
  assert (Hitem : startswith (U "- [") (strip (to_markdown item)) = true).
  { unfold strip, strip_by, to_markdown.
    set (box := if is_checked item then U "[x]" else U "[ ]").
    assert (Hl : forall t, lstrip_by isspace (U "- " ++ t) = U "- " ++ t).
    { intros t. cbn [U app List.map list_ascii_of_string lstrip_by].
      change (N_of_ascii "-") with c_hyphen. by rewrite hyphen_not_space. }
    rewrite Hl.
    assert (Hbox' : exists b, U "- " ++ box ++ U " " ++ description item
                              = (U "- [" ++ [b]) ++ 93%N :: U " " ++ description item).
    { destruct (is_checked item); eexists; reflexivity. }
    destruct Hbox' as [b ->].
    rewrite rstrip_by_app_stop by apply bracket_not_space.
    reflexivity. }
  rewrite Hitem.
  destruct (lower_to_markdown item) as [rest Hlow].
  assert (HX : contains (U "[X]") (lower (to_markdown item)) = false)
    by apply contains_needs, no_capital_x.
  rewrite HX, orb_false_r.
  destruct (is_checked item) eqn:Hc.
  - (* a checked item *)
    assert (Hx : contains (U "[x]") (lower (to_markdown item)) = true)
      by (rewrite Hlow; reflexivity).
    assert (Hbox1 : contains (U "- [ ]") (to_markdown item) = false).
    { unfold to_markdown. rewrite Hc. specialize (Hbox eq_refl).
      revert Hbox. generalize (description item). intros d Hd.
      cbn [U app List.map list_ascii_of_string contains startswith N_of_ascii].
      cbn. apply Hd. }
    assert (Hbox2 : contains (U "- [x]") (lower (to_markdown item)) = true)
      by (rewrite Hlow; reflexivity).
    rewrite Hbox1, Hbox2.
    assert (Hafter : after_first (U "]") (to_markdown item)
                     = Some (U " " ++ description item))
      by (unfold to_markdown; rewrite Hc; reflexivity).
    rewrite Hafter. unfold parsed. rewrite Hc, Hx, strip_space. reflexivity.
  - (* an unchecked item *)
    assert (Hbox1 : contains (U "- [ ]") (to_markdown item) = true)
      by (unfold to_markdown; rewrite Hc; reflexivity).
    rewrite Hbox1.
    assert (Hafter : after_first (U "- [ ]") (to_markdown item)
                     = Some (U " " ++ description item))
      by (unfold to_markdown; rewrite Hc; reflexivity).
    rewrite Hafter. unfold parsed. rewrite Hc, strip_space. reflexivity.
Qed.


(** The item read back from the line of [item], when it is the [k]-th item
    line of the file (counting from 0) and no category heading precedes
    it. *)
Definition read_back (k : nat) (item : ChecklistItem) : ChecklistItem :=
  {| item_id := U "CHK" ++ format_03d (N.of_nat (S k));
     description := strip (description item);
     is_checked :=
       is_checked item || contains (U "[x]") (lower (to_markdown item));
     category := U "General" |}.

Definition writable (item : ChecklistItem) : Prop :=
  Forall (fun c => c <> c_newline) (description item) /\
  (is_checked item = true -> contains (U "- [ ]") (description item) = false).

Lemma parse_lines_to_markdown (items : list ChecklistItem) :
  Forall writable items ->
  forall (k : nat) (done : list ChecklistItem),
    parse_lines {| current_category := U "General"; parsed_items := done;
                   item_counter := N.of_nat (S k) |}
                (List.map to_markdown items)
    = Some {| current_category := U "General";
              parsed_items := done ++ imap (fun i => read_back (k + i)) items;
              item_counter := N.of_nat (S (k + length items)) |}.
Proof.
  induction 1 as [|item items [_ Hbox] _ IH]; intros k acc.
  - cbn. by rewrite app_nil_r, Nat.add_0_r.
  - cbn [List.map parse_lines]. rewrite parse_line_to_markdown by done.
    cbn [current_category parsed_items item_counter].
    replace (N.of_nat (S k) + 1)%N with (N.of_nat (S (S k))) by lia.
    rewrite (IH (S k)). cbn [imap length]. rewrite <- app_assoc.
    f_equal. f_equal.
    + f_equal. cbn [app]. f_equal.
      * unfold parsed, read_back. cbn [item_counter current_category].
        by rewrite Nat.add_0_r.
      * apply imap_ext. intros i x _. cbn. f_equal. lia.
    + f_equal. lia.
Qed.

Lemma to_markdown_one_line (item : ChecklistItem) :
  Forall (fun c => c <> c_newline) (description item) ->
  Forall (fun c => c <> c_newline) (to_markdown item).
Proof.
  intros H. unfold to_markdown.
  destruct (is_checked item);
    cbn [U app List.map list_ascii_of_string]; repeat (constructor; [done|]);
    exact H.
Qed.

(** Items written one per line with [to_markdown] and read back by
    [parse_from_file] come back in the same number and order, with fresh
    ids [CHK001], [CHK002], ..., the category [General] and the description
    stripped of surrounding white space; an item comes back checked when it
    was checked, and also when its line, lower-cased, contains ["[x]"]. *)
Theorem parse_items_to_markdown (items : list ChecklistItem) :
  Forall writable items ->
  parse_items (join [c_newline] (List.map to_markdown items))
  = Some (imap read_back items).
Proof.
  intros H. unfold parse_items.
  destruct items as [|item items].
  { reflexivity. }
  rewrite split_char_join.
  - change 1%N with (N.of_nat 1).
    rewrite (parse_lines_to_markdown _ H 0 []). reflexivity.
  - done.
  - apply Forall_map. eapply Forall_impl; [exact H|].
    intros it [Hit _]. by apply to_markdown_one_line.
Qed.

End ParseProofs.

Section ParseExamples.
Import checklist.

Local Open Scope N_scope.

#[export] Instance ucd_ascii : AsciiLaws ucd.
Proof. split; reflexivity. Qed.

Local Close Scope N_scope.

Definition item_done : ChecklistItem :=
  {| item_id := U "1"; description := U "All principles have outcomes ";
     is_checked := true; category := U "Quality" |}.

Definition item_open : ChecklistItem :=
  {| item_id := U "2"; description := U "Mark [X] when reviewed";
     is_checked := false; category := U "Quality" |}.

Lemma parse_items_to_markdown_witness :
  parse_items (join [c_newline] (List.map to_markdown [item_done; item_open]))
  = Some (imap read_back [item_done; item_open]) /\
  imap read_back [item_done; item_open]
  = [ {| item_id := U "CHK001";
         description := U "All principles have outcomes";
         is_checked := true; category := U "General" |};
      {| item_id := U "CHK002"; description := U "Mark [X] when reviewed";
         is_checked := true; category := U "General" |} ].
Proof.
  split; [|vm_compute; reflexivity].
  apply (parse_items_to_markdown [item_done; item_open]).
  repeat constructor; vm_compute; congruence.
Defined.

End ParseExamples.


(** ** Atomic installation *)

Section UndoProofs.
Import installer.

Lemma run_steps_fst step (fs : filesystem) (p : path) (rest : list path) :
  fst (run_steps step fs (p :: rest))
  = fst (run_steps step (fst (step fs p)) rest).
Proof.
  cbn [run_steps]. destruct (step fs p) as [fs' e]. cbn [fst].
  by destruct (run_steps step fs' rest).
Qed.

Lemma path_exists_Some (fs : filesystem) (p : path) (n : node) :
  nodes fs !! p = Some n -> path_exists fs p = true.
Proof. intros H. unfold path_exists. apply bool_decide_eq_true_2. by rewrite H. Qed.

Lemma path_exists_None (fs : filesystem) (p : path) :
  nodes fs !! p = None -> path_exists fs p = false.
Proof.
  intros H. unfold path_exists. apply bool_decide_eq_false_2. rewrite H.
  by intros [? ?].
Qed.

(** What undoing one tracked path comes to. *)
Definition gone (fs fs' : filesystem) (p : path) : Prop :=
  protected fs' = protected fs /\ nodes fs' = delete p (nodes fs).

Lemma rollback_file_gone (fs : filesystem) (p : path) :
  nodes fs !! p = None \/
  ((exists t, nodes fs !! p = Some (File t)) /\ (p ∉ protected fs)) ->
  gone fs (fst (rollback_file fs p)) p.
Proof.
  intros [H|[[t H] Hp]]; unfold rollback_file.
  - rewrite (path_exists_None fs p H). cbn. split; [done|].
    by rewrite delete_id.
  - rewrite (path_exists_Some fs p _ H). unfold unlink. rewrite H.
    rewrite bool_decide_eq_false_2 by done. by cbn.
Qed.

Lemma rollback_dir_gone (fs : filesystem) (p : path) :
  nodes fs !! p = None \/
  (nodes fs !! p = Some Dir /\ (p ∉ protected fs) /\
   forall q, is_Some (nodes fs !! q) -> q <> p -> parent q <> p) ->
  gone fs (fst (rollback_dir fs p)) p.
Proof.
  intros [H|(H & Hp & Hempty)]; unfold rollback_dir.
  - rewrite (path_exists_None fs p H). cbn. split; [done|].
    by rewrite delete_id.
  - rewrite (path_exists_Some fs p _ H), H.
    assert (He : has_entries fs p = false).
    { unfold has_entries. apply bool_decide_eq_false_2.
      intros (q & n & Hq & Hne & Hpar)%map_Exists_lookup.
      by apply (Hempty q). }
    rewrite He. cbn [negb]. unfold rmdir. rewrite H, He.
    rewrite bool_decide_eq_false_2 by done. by cbn.
Qed.

Lemma gone_lookup (fs fs' : filesystem) (p q : path) :
  gone fs fs' p ->
  nodes fs' !! q = if decide (q = p) then None else nodes fs !! q.
Proof.
  intros [_ ->]. destruct (decide (q = p)) as [->|Hne].
  - by rewrite lookup_delete_eq.
  - by rewrite lookup_delete_ne.
Qed.

(** The first loop of [rollback] removes the tracked files. *)
Lemma undo_files (l : list path) :
  forall fs,
    (forall p, p ∈ l ->
       nodes fs !! p = None \/
       ((exists t, nodes fs !! p = Some (File t)) /\ (p ∉ protected fs))) ->
    let fs1 := fst (run_steps rollback_file fs l) in
    protected fs1 = protected fs /\
    (forall p, p ∈ l -> nodes fs1 !! p = None) /\
    (forall p, p ∉ l -> nodes fs1 !! p = nodes fs !! p).
Proof.
  induction l as [|p l IH]; intros fs Hl; cbn zeta.
  { cbn. split; [done|]. split; [by intros p ?%elem_of_nil|done]. }
  rewrite run_steps_fst.
  pose proof (rollback_file_gone fs p (Hl p ltac:(by left))) as Hg.
  set (fs' := fst (rollback_file fs p)) in *.
  destruct (IH fs') as (Hp & Hin & Hout).
  - intros q Hq. rewrite (gone_lookup fs fs' p q Hg).
    destruct (decide (q = p)); [by left|].
    destruct Hg as [-> _]. apply Hl. by right.
  - split; [destruct Hg; congruence|]. split.
    + intros q Hq. destruct (decide (q ∈ l)) as [Hql|Hql]; [by apply Hin|].
      rewrite Hout by done. rewrite (gone_lookup fs fs' p q Hg).
      apply elem_of_cons in Hq as [->|Hq]; [|done]. by rewrite decide_True.
    + intros q Hq. apply not_elem_of_cons in Hq as [Hne Hq].
      rewrite Hout by done. rewrite (gone_lookup fs fs' p q Hg).
      by rewrite decide_False.
Qed.

(** The second loop removes the tracked directories, provided that what
    lies directly inside one of them is tracked too and comes later in the
    loop, or is gone already. *)
Lemma undo_dirs (l : list path) :
  forall fs,
    (forall p, p ∈ l ->
       nodes fs !! p = None \/ (nodes fs !! p = Some Dir /\ (p ∉ protected fs))) ->
    (forall l1 d l2, l = l1 ++ d :: l2 ->
       forall d', d' ∈ l2 -> d' <> d -> parent d' = d -> nodes fs !! d' = None) ->
    (forall q, is_Some (nodes fs !! q) -> q ∉ l ->
       forall d, d ∈ l -> parent q <> d) ->
    let fs2 := fst (run_steps rollback_dir fs l) in
    (forall p, p ∈ l -> nodes fs2 !! p = None) /\
    (forall p, p ∉ l -> nodes fs2 !! p = nodes fs !! p).
Proof.
  induction l as [|d l IH]; intros fs Hl Hord Hout; cbn zeta.
  { cbn. split; [by intros p ?%elem_of_nil|done]. }
  rewrite run_steps_fst.
  assert (Hg : gone fs (fst (rollback_dir fs d)) d).
  { apply rollback_dir_gone.
    destruct (Hl d ltac:(by left)) as [H|[H Hp]]; [by left|right].
    split; [done|]. split; [done|].
    intros q Hq Hne Hpar.
    destruct (decide (q ∈ d :: l)) as [Hin|Hnin].
    - apply elem_of_cons in Hin as [->|Hin]; [done|].
      rewrite (Hord [] d l eq_refl q Hin Hne Hpar) in Hq. by destruct Hq.
    - apply (Hout q Hq Hnin d); [by left|done]. }
  set (fs' := fst (rollback_dir fs d)) in *.
  destruct (IH fs') as (Hin & Hrest).
  - intros q Hq. rewrite (gone_lookup fs fs' d q Hg).
    destruct (decide (q = d)); [by left|].
    destruct Hg as [-> _]. apply Hl. by right.
  - intros l1 d0 l2 -> d' Hd' Hne Hpar.
    rewrite (gone_lookup fs fs' d d' Hg). destruct (decide (d' = d)); [done|].
    by apply (Hord (d :: l1) d0 l2 eq_refl d').
  - intros q Hq Hnin d0 Hd0.
    rewrite (gone_lookup fs fs' d q Hg) in Hq.
    destruct (decide (q = d)) as [->|Hne]; [by destruct Hq|].
    apply (Hout q Hq); [|by right].
    by intros [->|?]%elem_of_cons.
  - split.
    + intros q Hq. destruct (decide (q ∈ l)) as [Hql|Hql]; [by apply Hin|].
      rewrite Hrest by done. rewrite (gone_lookup fs fs' d q Hg).
      apply elem_of_cons in Hq as [->|Hq]; [|done]. by rewrite decide_True.
    + intros q Hq. apply not_elem_of_cons in Hq as [Hne Hq].
      rewrite Hrest by done. rewrite (gone_lookup fs fs' d q Hg).
      by rewrite decide_False.
Qed.


(** The state of an installation that has not raised yet: the tracked
    paths are exactly what it created, nothing else has changed, and no
    tracked directory was created before the directory it lies in. *)
Record consistent (fs0 fs : filesystem) (tracker : InstallationRollback)
    : Prop := {
  c_protected : protected fs = protected fs0;
  c_files : forall p, p ∈ created_files tracker ->
      (exists t, nodes fs !! p = Some (File t)) /\ (p ∉ protected fs) /\
      nodes fs0 !! p = None;
  c_dirs : forall p, p ∈ created_dirs tracker ->
      nodes fs !! p = Some Dir /\ (p ∉ protected fs) /\
      nodes fs0 !! p = None /\ nodes fs !! parent p = Some Dir;
  c_others : forall p, p ∉ created_files tracker -> p ∉ created_dirs tracker ->
      nodes fs !! p = nodes fs0 !! p;
  c_order : forall l1 d l2, created_dirs tracker = l1 ++ d :: l2 ->
      forall d', d' ∈ l1 -> parent d' <> d;
}.

(** What the tracker holds when the body stops: as above, except that the
    step that raised may have left a path tracked that was never created. *)
Record undoable (fs0 fs : filesystem) (tracker : InstallationRollback)
    : Prop := {
  u_files : forall p, p ∈ created_files tracker ->
      (nodes fs !! p = None \/
       ((exists t, nodes fs !! p = Some (File t)) /\ (p ∉ protected fs))) /\
      nodes fs0 !! p = None;
  u_dirs : forall p, p ∈ created_dirs tracker ->
      (nodes fs !! p = None \/
       (nodes fs !! p = Some Dir /\ (p ∉ protected fs) /\
        nodes fs !! parent p = Some Dir)) /\
      nodes fs0 !! p = None;
  u_others : forall p, p ∉ created_files tracker -> p ∉ created_dirs tracker ->
      nodes fs !! p = nodes fs0 !! p;
  u_order : forall l1 d l2, created_dirs tracker = l1 ++ d :: l2 ->
      forall d', d' ∈ l1 -> parent d' = d -> nodes fs !! d' = None;
}.

Definition well_formed_fs (fs : filesystem) : Prop :=
  forall q, is_Some (nodes fs !! q) ->
            parent q = q \/ is_Some (nodes fs !! parent q).

(** Rolling back restores the nodes of the original filesystem. *)
Lemma rollback_restores (fs0 fs : filesystem) (tracker : InstallationRollback) :
  well_formed_fs fs0 -> undoable fs0 fs tracker ->
  nodes (fst (rollback fs tracker)) = nodes fs0.
Proof.
  intros Hwf [Hf Hd Ho Hord]. unfold rollback.
  destruct (run_steps rollback_file fs (rev (created_files tracker)))
    as [fs1 log1] eqn:E1.
  destruct (run_steps rollback_dir fs1 (rev (created_dirs tracker)))
    as [fs2 log2] eqn:E2.
  cbn [fst].
  destruct (undo_files (rev (created_files tracker)) fs) as (Hp1 & Hin1 & Hout1).
  { intros p Hp. rewrite elem_of_rev in Hp. by destruct (Hf p Hp). }
  rewrite E1 in Hp1, Hin1, Hout1. cbn [fst] in Hp1, Hin1, Hout1.
  assert (Hdir1 : forall p, p ∈ created_dirs tracker ->
                            nodes fs1 !! p = nodes fs !! p).
  { intros p Hpd. destruct (decide (p ∈ rev (created_files tracker))) as [Hpf|Hpf];
      [|by apply Hout1].
    rewrite (Hin1 p Hpf). rewrite elem_of_rev in Hpf.
    destruct (Hf p Hpf) as [[H|[[t H] _]] _]; [done|].
    destruct (Hd p Hpd) as [[H'|[H' _]] _]; congruence. }
  destruct (undo_dirs (rev (created_dirs tracker)) fs1) as (Hin2 & Hout2).
  - intros p Hp. rewrite elem_of_rev in Hp. rewrite (Hdir1 p Hp), Hp1.
    destruct (Hd p Hp) as [[H|(H & Hpr & _)] _]; [by left|by right].
  - intros l1 d l2 Hrev d' Hd' Hne Hpar.
    assert (Hsplit : created_dirs tracker = rev l2 ++ d :: rev l1).
    { rewrite <- (rev_involutive (created_dirs tracker)), Hrev.
      rewrite rev_app_distr. cbn [rev]. by rewrite <- app_assoc. }
    assert (Hd'in : d' ∈ created_dirs tracker).
    { rewrite Hsplit. apply elem_of_app. left. by rewrite elem_of_rev. }
    rewrite (Hdir1 d' Hd'in).
    apply (Hord _ _ _ Hsplit d'); [by rewrite elem_of_rev|done].
  - intros q Hq Hnin d Hdin Hpar. rewrite elem_of_rev in Hdin.
    assert (Hqd : q ∉ created_dirs tracker)
      by (intros ?; apply Hnin; by rewrite elem_of_rev).
    destruct (decide (q ∈ rev (created_files tracker))) as [Hqf|Hqf].
    { rewrite (Hin1 q Hqf) in Hq. by destruct Hq. }
    rewrite (Hout1 q Hqf) in Hq. rewrite Ho in Hq;
      [|by intros ?; apply Hqf; rewrite elem_of_rev|done].
    destruct (Hd d Hdin) as [_ Hd0].
    destruct (Hwf q Hq) as [Hself|Hparent].
    + rewrite Hself in Hpar. subst. rewrite Hd0 in Hq. by destruct Hq.
    + rewrite Hpar, Hd0 in Hparent. by destruct Hparent.
  - rewrite E2 in Hin2, Hout2. cbn [fst] in Hin2, Hout2.
    apply map_eq. intros p.
    destruct (decide (p ∈ rev (created_dirs tracker))) as [Hpd|Hpd].
    { rewrite (Hin2 p Hpd). rewrite elem_of_rev in Hpd.
      by destruct (Hd p Hpd) as [_ ->]. }
    rewrite (Hout2 p Hpd).
    destruct (decide (p ∈ rev (created_files tracker))) as [Hpf|Hpf].
    { rewrite (Hin1 p Hpf). rewrite elem_of_rev in Hpf.
      by destruct (Hf p Hpf) as [_ ->]. }
    rewrite (Hout1 p Hpf). apply Ho.
    + intros ?. apply Hpf. by rewrite elem_of_rev.
    + intros ?. apply Hpd. by rewrite elem_of_rev.
Qed.


Lemma consistent_undoable (fs0 fs : filesystem) (tracker : InstallationRollback) :
  consistent fs0 fs tracker -> undoable fs0 fs tracker.
Proof.
  intros [Hp Hf Hd Ho Hord]. split.
  - intros p Hin. destruct (Hf p Hin) as (H1 & H2 & H3). split; [by right|done].
  - intros p Hin. destruct (Hd p Hin) as (H1 & H2 & H3 & H4).
    split; [by right|done].
  - done.
  - intros l1 d l2 Hs d' Hd' Hpar. by destruct (Hord l1 d l2 Hs d' Hd').
Qed.

Lemma snoc_split {A} (l l1 l2 : list A) (p d : A) :
  l ++ [p] = l1 ++ d :: l2 ->
  (l2 = [] /\ d = p /\ l1 = l) \/
  (exists l2', l2 = l2' ++ [p] /\ l = l1 ++ d :: l2').
Proof.
  destruct l2 as [|x l2] using rev_ind.
  - intros H. apply app_inj_tail in H as [-> ->]. by left.
  - clear IHl2. intros H. right. exists l2.
    change (l1 ++ d :: l2 ++ [x]) with (l1 ++ (d :: l2) ++ [x]) in H.
    rewrite app_assoc in H. apply app_inj_tail in H as [-> ->]. done.
Qed.

(** A path the installation finds absent and that is not tracked was
    absent at the start. *)
Lemma absent_at_start (fs0 fs : filesystem) (tracker : InstallationRollback)
    (p : path) :
  consistent fs0 fs tracker -> nodes fs !! p = None -> nodes fs0 !! p = None.
Proof.
  intros [Hp Hf Hd Ho Hord] Hnone.
  destruct (decide (p ∈ created_files tracker)) as [Hin|Hnf].
  { by destruct (Hf p Hin) as (_ & _ & ?). }
  destruct (decide (p ∈ created_dirs tracker)) as [Hin|Hnd].
  { by destruct (Hd p Hin) as (_ & _ & ? & _). }
  by rewrite <- Ho.
Qed.

Lemma absent_not_tracked (fs0 fs : filesystem) (tracker : InstallationRollback)
    (p : path) :
  consistent fs0 fs tracker -> nodes fs !! p = None ->
  (p ∉ created_files tracker) /\ (p ∉ created_dirs tracker).
Proof.
  intros [Hp Hf Hd Ho Hord] Hnone. split; intros Hin.
  - destruct (Hf p Hin) as ([t Ht] & _). congruence.
  - destruct (Hd p Hin) as (Ht & _). congruence.
Qed.

Lemma mkdir_consistent (fs0 fs fs' : filesystem)
    (tracker : InstallationRollback) (p : path) :
  consistent fs0 fs tracker -> p ∉ protected fs0 ->
  mkdir fs p = Ok fs' ->
  consistent fs0 fs' (track_dir fs tracker p).
Proof.
  intros Hc Hprot. unfold mkdir.
  destruct (nodes fs !! p) eqn:Hp; [done|].
  destruct (nodes fs !! parent p) as [[]|] eqn:Hpar; try done.
  intros [= <-].
  destruct (absent_not_tracked fs0 fs tracker p Hc Hp) as [Hnf Hnd].
  pose proof (absent_at_start fs0 fs tracker p Hc Hp) as Hp0.
  destruct Hc as [Hpr Hf Hd Ho Hord].
  unfold track_dir. rewrite (path_exists_None fs p Hp). cbn [negb].
  split; cbn [nodes protected created_files created_dirs].
  - done.
  - intros q Hq. destruct (Hf q Hq) as ([t Ht] & H2 & H3).
    rewrite lookup_insert_ne by congruence. eauto.
  - intros q [Hq| ->%list_elem_of_singleton]%elem_of_app.
    + destruct (Hd q Hq) as (H1 & H2 & H3 & H4).
      rewrite !lookup_insert_ne by congruence. done.
    + rewrite lookup_insert_eq, lookup_insert_ne by congruence.
      rewrite Hpr. done.
  - intros q Hqf Hqd. apply not_elem_of_app in Hqd as [Hqd Hne].
    rewrite lookup_insert_ne; [by apply Ho|].
    intros ->. apply Hne. by apply list_elem_of_singleton.
  - intros l1 d l2 Hs d' Hd'.
    apply snoc_split in Hs as [(-> & -> & ->)|(l2' & -> & Hs)].
    + destruct (Hd d' Hd') as (_ & _ & _ & H4). congruence.
    + by apply (Hord l1 d l2' Hs).
Qed.

Lemma write_text_consistent (fs0 fs fs' : filesystem)
    (tracker : InstallationRollback) (p : path) (text : str) :
  consistent fs0 fs tracker -> nodes fs0 !! p = None ->
  write_text fs p text = Ok fs' ->
  consistent fs0 fs' (track_file fs tracker p).
Proof.
  intros Hc Hp0. unfold write_text.
  assert (Hgen : nodes fs !! p <> Some Dir -> p ∉ protected fs ->
                 consistent fs0
                   {| nodes := <[p:=File text]> (nodes fs);
                      protected := protected fs |}
                   (track_file fs tracker p)).
  { intros Hnd Hprot.
    assert (Htracked : p ∈ created_files (track_file fs tracker p)).
    { unfold track_file. destruct (nodes fs !! p) as [n|] eqn:Hp.
      - rewrite (path_exists_Some fs p n Hp). cbn [negb].
        destruct Hc as [Hpr Hf Hd Ho Hord].
        destruct (decide (p ∈ created_files tracker)) as [|Hnf]; [done|].
        destruct (decide (p ∈ created_dirs tracker)) as [Hin|Hndir].
        { destruct (Hd p Hin) as (H1 & _). congruence. }
        rewrite (Ho p Hnf Hndir) in Hp. congruence.
      - rewrite (path_exists_None fs p Hp). cbn.
        apply elem_of_app. right. by apply list_elem_of_singleton. }
    assert (Hfiles : forall q, q ∈ created_files (track_file fs tracker p) ->
                               q = p \/ q ∈ created_files tracker).
    { intros q. unfold track_file. destruct (negb _); [|by right]. cbn.
      intros [?| ->%list_elem_of_singleton]%elem_of_app; [by right|by left]. }
    assert (Hdirs : created_dirs (track_file fs tracker p) = created_dirs tracker).
    { unfold track_file. by destruct (negb _). }
    destruct Hc as [Hpr Hf Hd Ho Hord].
    split; cbn [nodes protected]; rewrite ?Hdirs.
    - done.
    - intros q Hq. destruct (decide (q = p)) as [->|Hne].
      + rewrite lookup_insert_eq. eauto.
      + rewrite lookup_insert_ne by done.
        destruct (Hfiles q Hq) as [?|Hq']; [done|]. by apply Hf.
    - intros q Hq. destruct (Hd q Hq) as (H1 & H2 & H3 & H4).
      rewrite !lookup_insert_ne by congruence. done.
    - intros q Hqf Hqd. rewrite lookup_insert_ne by congruence.
      apply Ho; [|done]. intros Hin. apply Hqf.
      unfold track_file. destruct (negb _); [|done]. cbn.
      apply elem_of_app. by left.
    - done. }
  destruct (nodes fs !! p) as [[| |]|] eqn:Hp; try done;
    case_bool_decide; try done; intros [= <-]; by apply Hgen.
Qed.

Lemma write_new_text_Ok (fs fs' : filesystem) (p : path) (text : str) :
  write_new_text fs p text = Ok fs' -> write_text fs p text = Ok fs'.
Proof.
  unfold write_new_text. destruct (nodes fs !! p); [done|].
  by destruct (nodes fs !! parent p) as [[]|].
Qed.

Lemma track_dir_undoable (fs0 fs : filesystem) (tracker : InstallationRollback)
    (p : path) :
  consistent fs0 fs tracker -> undoable fs0 fs (track_dir fs tracker p).
Proof.
  intros Hc. unfold track_dir.
  destruct (nodes fs !! p) as [n|] eqn:Hp.
  { rewrite (path_exists_Some fs p n Hp). by apply consistent_undoable. }
  rewrite (path_exists_None fs p Hp). cbn [negb].
  pose proof (absent_at_start fs0 fs tracker p Hc Hp) as Hp0.
  destruct (consistent_undoable fs0 fs tracker Hc) as [Hf Hd Ho Hord].
  split; cbn [created_files created_dirs].
  - done.
  - intros q [Hq| ->%list_elem_of_singleton]%elem_of_app; [by apply Hd|].
    split; [by left|done].
  - intros q Hqf Hqd. apply not_elem_of_app in Hqd as [Hqd _]. by apply Ho.
  - intros l1 d l2 Hs d' Hd' Hpar.
    apply snoc_split in Hs as [(-> & -> & ->)|(l2' & -> & Hs)].
    + destruct Hc as [_ _ Hcd _ _].
      destruct (Hcd d' Hd') as (_ & _ & _ & H4). congruence.
    + by apply (Hord l1 d l2' Hs).
Qed.

Lemma track_file_undoable (fs0 fs : filesystem) (tracker : InstallationRollback)
    (p : path) :
  consistent fs0 fs tracker -> nodes fs0 !! p = None ->
  undoable fs0 fs (track_file fs tracker p).
Proof.
  intros Hc Hp0. unfold track_file.
  destruct (nodes fs !! p) as [n|] eqn:Hp.
  { rewrite (path_exists_Some fs p n Hp). by apply consistent_undoable. }
  rewrite (path_exists_None fs p Hp). cbn [negb].
  destruct (consistent_undoable fs0 fs tracker Hc) as [Hf Hd Ho Hord].
  split; cbn [created_files created_dirs].
  - intros q [Hq| ->%list_elem_of_singleton]%elem_of_app; [by apply Hf|].
    split; [by left|done].
  - done.
  - intros q Hqf Hqd. apply not_elem_of_app in Hqf as [Hqf _]. by apply Ho.
  - done.
Qed.

Lemma run_body_undoable (fs0 : filesystem) (body : list creation) :
  (forall p text, In (CreateFile p text) body -> nodes fs0 !! p = None) ->
  (forall p, In (CreateDir p) body -> p ∉ protected fs0) ->
  forall fs tracker,
    consistent fs0 fs tracker ->
    undoable fs0 (fst (fst (run_body fs tracker body)))
                 (snd (fst (run_body fs tracker body))).
Proof.
  induction body as [|[p|p text] body IH]; intros Hfiles Hdirs fs tracker Hc;
    cbn [run_body].
  - by apply consistent_undoable.
  - destruct (mkdir fs p) as [fs'|e] eqn:E.
    + apply IH.
      * intros q t Hq. apply (Hfiles q t). by right.
      * intros q Hq. apply Hdirs. by right.
      * apply (mkdir_consistent fs0 fs fs' tracker p Hc); [|done].
        apply Hdirs. by left.
    + cbn. by apply track_dir_undoable.
  - destruct (write_new_text fs p text) as [fs'|e] eqn:E.
    + apply write_new_text_Ok in E. apply IH.
      * intros q t Hq. apply (Hfiles q t). by right.
      * intros q Hq. apply Hdirs. by right.
      * apply (write_text_consistent fs0 fs fs' tracker p text Hc); [|done].
        apply (Hfiles p text). by left.
    + cbn. apply track_file_undoable; [done|]. apply (Hfiles p text). by left.
Qed.

(** When the block of an [atomic_installation] raises, in a step of the
    body or after it, the rollback leaves the filesystem as it was before:
    provided the body only wrote files that did not exist, and every entry
    of the filesystem lay in a directory of it to begin with. *)
Theorem atomic_installation_restores (fs : filesystem) (body : list creation)
    (and_then : option str) :
  well_formed_fs fs ->
  (forall p text, In (CreateFile p text) body -> nodes fs !! p = None) ->
  (forall p, In (CreateDir p) body -> p ∉ protected fs) ->
  (forall e, snd (atomic_installation fs body and_then) = Raise e ->
             nodes (fst (atomic_installation fs body and_then)) = nodes fs) /\
  (is_Some and_then ->
   exists e, snd (atomic_installation fs body and_then) = Raise e).
Proof.
  intros Hwf Hfiles Hdirs.
  assert (Hc : consistent fs fs new_tracker).
  { split; cbn; try done.
    - by intros p ?%elem_of_nil.
    - by intros p ?%elem_of_nil.
    - intros l1 d l2 H. by destruct l1. }
  pose proof (run_body_undoable fs body Hfiles Hdirs fs new_tracker Hc) as Hu.
  unfold atomic_installation.
  destruct (run_body fs new_tracker body) as [[fs' tracker] raised].
  cbn [fst snd] in Hu.
  pose proof (rollback_restores fs fs' tracker Hwf Hu) as Hr.
  split.
  - destruct raised as [e'|]; [|destruct and_then as [e'|]]; cbn [fst snd];
      intros e; try done.
  - intros [e' ->]. destruct raised; eexists; reflexivity.
Qed.

End UndoProofs.

Section UndoExample.
Import installer.

Definition home_fs : filesystem :=
  {| nodes := {[ U "." := Dir; U "proj" := Dir;
                 U "proj/notes.txt" := File (U "mine") ]};
     protected := ∅ |}.

(** The directory and the file are created, the second [mkdir] of the same
    directory raises. *)
Definition failing_body : list creation :=
  [CreateDir (U "proj/deck");
   CreateFile (U "proj/deck/README.md") (U "# Deck");
   CreateDir (U "proj/deck")].

Lemma atomic_installation_restores_witness :
  snd (atomic_installation home_fs failing_body None)
  = Raise (U "Installation failed: [Errno 17] File exists. All changes rolled back.") /\
  nodes (fst (atomic_installation home_fs failing_body None)) = nodes home_fs.
Proof.
  split; [by vm_compute|].
  eapply (proj1 (atomic_installation_restores home_fs failing_body None _ _ _)).
  by vm_compute.
  Unshelve.
  - intros q Hq.
    assert (H : map_Forall
                  (fun q _ => parent q = q \/ is_Some (nodes home_fs !! parent q))
                  (nodes home_fs)).
    { apply (bool_decide_unpack _). by vm_compute. }
    destruct Hq as [n Hq]. exact (H q n Hq).
  - intros p text [H|[H|[H|[]]]]; try discriminate H.
    injection H as <- <-. by vm_compute.
  - intros p _. apply not_elem_of_empty.
Defined.

End UndoExample.


(** ** The detected features, ranked *)

Section RankProofs.
Import feature_detector.
Context {UD : Unicode}.

Definition normalized_name (f : DetectedFeature) : str := lower (name f).

Lemma dedup_go_unique (seen : gset str) (features : list DetectedFeature) :
  NoDup (normalized_name <$> dedup_go seen features) /\
  (forall f, f ∈ dedup_go seen features ->
             (normalized_name f ∉ seen) /\ f ∈ features).
Proof.
  revert seen. induction features as [|x rest IH]; intros seen.
  { split; [constructor|]. by intros f ?%elem_of_nil. }
  cbn [dedup_go]. fold (normalized_name x). case_bool_decide as Hseen.
  - destruct (IH seen) as [Hn Hin]. split; [done|].
    intros f Hf. destruct (Hin f Hf). split; [done|by right].
  - destruct (IH ({[normalized_name x]} ∪ seen)) as [Hn Hin].
    split.
    + rewrite fmap_cons. constructor; [|done].
      intros (f & Hname & Hf)%list_elem_of_fmap.
      destruct (Hin f Hf) as [Hnot _]. apply Hnot. rewrite <- Hname.
      set_solver.
    + intros f [->|Hf]%elem_of_cons; [split; [done|by left]|].
      destruct (Hin f Hf) as [Hnot ?]. split; [set_solver|by right].
Qed.

Lemma keep_ten_best_sublist (l : list DetectedFeature) :
  exists l', Permutation l' l /\ sublist (keep_ten_best l) l'.
Proof.
  unfold keep_ten_best. destruct (10 <? length l)%nat.
  - exists (sorted_desc confidence l). split.
    + apply sorted_desc_permutation.
    + apply sublist_take.
  - by exists l.
Qed.

(** The list before the identifiers and priorities are given. *)
Definition ranked (product_text solution_text : str) : list DetectedFeature :=
  sorted_desc confidence
    (keep_ten_best
       (_deduplicate_features (candidates product_text solution_text))).

Lemma detect_features_ranked (product_text solution_text : str) :
  detect_features product_text solution_text
  = imap (fun idx f => set_id (format_03d (N.of_nat (S idx)))
                              (set_priority (priority_of_rank idx) f))
         (ranked product_text solution_text).
Proof.
  unfold detect_features, assign_ids. rewrite cap_then_rank.
  apply list_eq. intros i. rewrite !list_lookup_imap.
  by destruct (_ !! i).
Qed.

Lemma ranked_unique (product_text solution_text : str) :
  NoDup (normalized_name <$> ranked product_text solution_text).
Proof.
  unfold ranked.
  destruct (keep_ten_best_sublist
              (_deduplicate_features (candidates product_text solution_text)))
    as (l' & Hperm & Hsub).
  rewrite (sorted_desc_permutation confidence _).
  eapply sublist_NoDup; [|apply (fmap_sublist normalized_name), Hsub].
  rewrite Hperm. apply dedup_go_unique.
Qed.

(** What [detect_features] returns is in order: the confidences never
    increase along the list; the feature at position [i] has the identifier
    [i + 1] on three digits and the priority P1 for [i] = 0..2, P2 for 3..6
    and P3 after that; no two features have the same name up to case; and
    every feature is one of the candidates of the passes, identifier and
    priority apart. *)
Theorem detect_features_ranked_unique (product_text solution_text : str) :
  let features := detect_features product_text solution_text in
  (forall i j f g, features !! i = Some f -> features !! j = Some g ->
                   i <= j -> (confidence g <= confidence f)%Q) /\
  (forall i f, features !! i = Some f ->
               id f = [48; 48 + N.of_nat ((i + 1) / 10);
                       48 + N.of_nat ((i + 1) mod 10)]%N /\
               priority f
               = (if (i <? 3)%nat then P1 else if (i <? 7)%nat then P2 else P3) /\
               exists c, c ∈ candidates product_text solution_text /\
                         f = set_id (id f) (set_priority (priority f) c)) /\
  NoDup (List.map (fun f => lower (name f)) features).
Proof.
  cbv zeta. split; [|split].
  - intros i j f g Hf Hg Hij.
    apply detect_features_lookup in Hf as (c & Hc & _ & ->).
    apply detect_features_lookup in Hg as (d & Hd & _ & ->).
    cbn [confidence set_id set_priority].
    eapply (descending_lookup confidence); [|exact Hc|exact Hd|exact Hij].
    apply sorted_desc_descending.
  - intros i f Hf. apply detect_features_lookup in Hf as (c & Hc & Hi & ->).
    cbn [id priority set_id set_priority].
    replace (i + 1) with (S i) by lia.
    split; [|split].
    + clear Hc. do 10 (destruct i as [|i]; [reflexivity|]). lia.
    + reflexivity.
    + exists c. split; [|done].
      apply list_elem_of_lookup_2 in Hc.
      rewrite (sorted_desc_permutation confidence _) in Hc.
      by apply dedup_go_unique in Hc as [_ ?].
  - rewrite detect_features_ranked.
    change (List.map ?f ?l) with (f <$> l). rewrite fmap_imap.
    rewrite (imap_ext _ (const normalized_name)) by done.
    rewrite imap_const. apply ranked_unique.
Qed.

End RankProofs.

(** ** Sections of a pitch deck *)

Section DeckProofs.
Import pitch_deck.

Lemma find_assign_content_eq (sid new_content : str) (l : list PitchDeckSection) :
  List.find (fun section => str_eqb (section_id section) sid)
            (assign_content sid new_content l)
  = set_content new_content
      <$> List.find (fun section => str_eqb (section_id section) sid) l.
Proof.
  induction l as [|s l IH]; [done|]. cbn [assign_content List.find].
  destruct (str_eqb (section_id s) sid) eqn:E; cbn [List.find set_content section_id].
  - by rewrite E.
  - by rewrite E.
Qed.

Lemma find_assign_content_ne (sid other new_content : str)
    (l : list PitchDeckSection) :
  other <> sid ->
  List.find (fun section => str_eqb (section_id section) other)
            (assign_content sid new_content l)
  = List.find (fun section => str_eqb (section_id section) other) l.
Proof.
  intros Hne. induction l as [|s l IH]; [done|]. cbn [assign_content].
  destruct (str_eqb (section_id s) sid) eqn:E.
  - cbn [List.find set_content section_id].
    apply str_eqb_eq in E.
    destruct (str_eqb (section_id s) other) eqn:E2; [|done].
    apply str_eqb_eq in E2. congruence.
  - cbn [List.find]. by rewrite IH.
Qed.

Lemma assign_content_split (sid new_content : str) (l : list PitchDeckSection)
    (section : PitchDeckSection) :
  List.find (fun section => str_eqb (section_id section) sid) l = Some section ->
  exists before after,
    l = before ++ section :: after /\
    Forall (fun s => section_id s <> sid) before /\
    section_id section = sid /\
    assign_content sid new_content l
    = before ++ set_content new_content section :: after.
Proof.
  induction l as [|s l IH]; [done|]. cbn [List.find assign_content].
  destruct (str_eqb (section_id s) sid) eqn:E.
  - intros [= <-]. exists [], l. apply str_eqb_eq in E. by repeat split.
  - intros Hfind. destruct (IH Hfind) as (before & after & -> & Hb & Hs & ->).
    exists (s :: before), after. repeat split; try done.
    constructor; [|done]. intros Heq. apply str_eqb_eq in Heq. congruence.
Qed.

(** [update_section] raises exactly when the deck has no section with the
    identifier.  Otherwise it replaces the content of the first section with
    that identifier and of no other, also where a later section has the same
    identifier; [get_section] of that identifier then returns the section
    with the new content, and of any other identifier what it returned
    before. *)
Theorem update_section_get_section (self : PitchDeck) (sid new_content : str) :
  match update_section self sid new_content with
  | Raise _ => get_section self sid = None
  | Ok deck =>
      exists before section after,
        sections self = before ++ section :: after /\
        Forall (fun s => section_id s <> sid) before /\
        section_id section = sid /\
        sections deck = before ++ set_content new_content section :: after /\
        get_section self sid = Some section /\
        get_section deck sid = Some (set_content new_content section) /\
        (forall other, other <> sid ->
                       get_section deck other = get_section self other) /\
        version deck = version self /\ file_path deck = file_path self
  end.
Proof.
  unfold update_section. destruct (get_section self sid) as [section|] eqn:E;
    [|done].
  unfold get_section in *. cbn [sections version file_path].
  destruct (assign_content_split sid new_content _ _ E)
    as (before & after & Hl & Hb & Hs & Ha).
  exists before, section, after.
  do 4 (split; [done|]). split; [done|]. split; [|split; [|done]].
  - by rewrite find_assign_content_eq, E.
  - intros other Hne. by apply find_assign_content_ne.
Qed.

End DeckProofs.
